(** * pathpy3: the object store and its derived indices

    A shallow embedding of [pathpy/core/base/containers.py] (RelatedObjects,
    BaseDict, NodeDict, EdgeDict) and of the temporal edge collection of
    [pathpy/models/temporal_network.py].

    Python dictionaries are [gmap]s, Python sets are [gset]s.  A method that
    mutates [self] becomes a computation in a state-and-exception monad: when
    an exception is raised the state reached so far is kept, exactly as the
    mutated Python object survives the exception.  Times are exact integers
    extended with the two infinities. *)

From Stdlib Require Import ZArith Lia.
From stdpp Require Import base option list gmap sets strings sorting.

Open Scope Z_scope.
Open Scope nat_scope.

(** ** Python exceptions and the state-and-exception monad *)

Module Py.

Inductive Exc : Type :=
| KeyError | AttributeError | TypeError | IndexError | ValueError.

Inductive result (A : Type) : Type :=
| Ok (a : A)
| Raise (e : Exc).
Arguments Ok {A} a.
Arguments Raise {A} e.

(** A method of an object of type [S]: the object after the call, and the
    value returned or the exception raised. *)
Definition M (S A : Type) : Type := S → S * result A.

Definition ret {S A} (a : A) : M S A := λ s, (s, Ok a).
Definition bind {S A B} (m : M S A) (k : A → M S B) : M S B :=
  λ s, match m s with
       | (s', Ok a) => k a s'
       | (s', Raise e) => (s', Raise e)
       end.
Definition modify {S} (f : S → S) : M S unit := λ s, (f s, Ok tt).

(** [for x in xs: body(x)]; an exception leaves the loop. *)
Fixpoint for_each {S A} (xs : list A) (body : A → M S unit) : M S unit :=
  match xs with
  | [] => ret tt
  | x :: xs' => bind (body x) (λ _, for_each xs' body)
  end.

(** The same bind on plain results, for methods of immutable values. *)
Definition rbind {A B} (r : result A) (k : A → result B) : result B :=
  match r with Ok a => k a | Raise e => Raise e end.

End Py.
Import Py.

#[global] Instance M_ret {S} : MRet (M S) := λ A, @Py.ret S A.
#[global] Instance M_bind {S} : MBind (M S) := λ A B k m, Py.bind m k.
#[global] Instance result_ret : MRet result := λ A, @Ok A.
#[global] Instance result_bind : MBind result := λ A B k r, Py.rbind r k.

(** ** The entities the store holds *)

(** Modelled from the spec: the Node, Edge and Path classes live in
    [pathpy.core] and are not part of the embedded sources.  Section 3 of the
    specification makes entities opaque beyond their identifier; an edge
    additionally knows its ordered endpoints and its directedness flag. *)
Record Node : Type := mkNode { node_uid : string }.

Record Edge : Type := mkEdge {
  edge_uid : string;
  edge_v : Node;
  edge_w : Node;
  edge_directed : bool
}.

Record Path : Type := mkPath { path_uid : string }.

#[global] Instance Node_eq_dec : EqDecision Node.
Proof. solve_decision. Defined.
#[global] Instance Edge_eq_dec : EqDecision Edge.
Proof. solve_decision. Defined.
#[global] Instance Path_eq_dec : EqDecision Path.
Proof. solve_decision. Defined.
#[global] Instance Path_countable : Countable Path.
Proof.
  apply (inj_countable' path_uid mkPath). by intros [u].
Defined.

(** Modelled from the spec: [edge.nodes] is the dictionary of the endpoint
    nodes of the edge keyed by identifier, tail first; a self-loop has a
    single entry. *)
Definition edge_nodes (e : Edge) : list Node :=
  if decide (node_uid (edge_v e) = node_uid (edge_w e))
  then [edge_v e]
  else [edge_v e; edge_w e].

(** ** RelatedObjects *)

Module Related.

Record RelatedObjects : Type := mkRelated {
  nodes : gmap string Node;
  edges : gmap string Edge;
  paths : gset Path
}.

(** [RelatedObjects.__init__] *)
Definition init : RelatedObjects :=
  {| nodes := ∅; edges := ∅; paths := ∅ |}.

(** [dict.update]: the entries of [other] win. *)
Definition dict_update {V} (self other : gmap string V) : gmap string V :=
  other ∪ self.

Definition update (other self : RelatedObjects) : RelatedObjects :=
  {| nodes := dict_update (nodes self) (nodes other);
     edges := dict_update (edges self) (edges other);
     paths := paths self ∪ paths other |}.

(** [del d[k]] *)
Definition dict_del {V} (k : string) (d : gmap string V)
  : result (gmap string V) :=
  match d !! k with
  | Some _ => Ok (base.delete k d)
  | None => Raise KeyError
  end.

Definition add_edge (edge : Edge) (self : RelatedObjects) : RelatedObjects :=
  {| nodes := nodes self;
     edges := <[edge_uid edge := edge]> (edges self);
     paths := paths self |}.

Definition remove_edge (edge : Edge) (self : RelatedObjects)
  : result RelatedObjects :=
  es ← dict_del (edge_uid edge) (edges self);
  Ok {| nodes := nodes self; edges := es; paths := paths self |}.

Definition add_node (node : Node) (self : RelatedObjects) : RelatedObjects :=
  {| nodes := <[node_uid node := node]> (nodes self);
     edges := edges self;
     paths := paths self |}.

Definition remove_node (node : Node) (self : RelatedObjects)
  : result RelatedObjects :=
  ns ← dict_del (node_uid node) (nodes self);
  Ok {| nodes := ns; edges := edges self; paths := paths self |}.

(** [s[k] = x] on a Python [set]: the type has no item assignment. *)
Definition set_setitem {A} `{Countable A} (s : gset A) (k : string) (x : A)
  : result (gset A) :=
  Raise TypeError.

(** [s.remove(x)] on a Python [set]. *)
Definition set_remove {A} `{Countable A} (x : A) (s : gset A)
  : result (gset A) :=
  if decide (x ∈ s) then Ok (s ∖ {[x]}) else Raise KeyError.

Definition add_path (path : Path) (self : RelatedObjects)
  : result RelatedObjects :=
  ps ← set_setitem (paths self) (path_uid path) path;
  Ok {| nodes := nodes self; edges := edges self; paths := ps |}.

(** The comprehension [{p for p in self.paths}] rebuilds the same set. *)
Definition remove_path (path : Path) (self : RelatedObjects)
  : result RelatedObjects :=
  let rebuilt : gset Path := set_map (λ p, p) (paths self) in
  ps ← set_remove path rebuilt;
  Ok {| nodes := nodes self; edges := edges self; paths := ps |}.

End Related.
Import Related(RelatedObjects, mkRelated, nodes, edges, paths).

(** ** BaseDict *)

(** A value of the [_related] table.  The table is a [defaultdict(dict)]:
    reading a missing key stores and returns a plain empty [dict], which has
    none of the RelatedObjects methods. *)
Inductive RelVal : Type :=
| RO (r : RelatedObjects)
| PlainDict.

Module BaseDict.

Record BaseDict (V : Type) : Type := mkBase {
  items : gmap string V;
  _related : gmap string RelVal;
  _counter : gmap string Z
}.
Arguments mkBase {V} _ _ _.
Arguments items {V} _.
Arguments _related {V} _.
Arguments _counter {V} _.

Definition init {V} : BaseDict V :=
  {| items := ∅; _related := ∅; _counter := ∅ |}.

Definition set_items {V} (f : gmap string V → gmap string V)
    (d : BaseDict V) : BaseDict V :=
  {| items := f (items d); _related := _related d; _counter := _counter d |}.

Definition set_related {V} (f : gmap string RelVal → gmap string RelVal)
    (d : BaseDict V) : BaseDict V :=
  {| items := items d; _related := f (_related d); _counter := _counter d |}.

(** [BaseDict.__setitem__] *)
Definition setitem {V} (key : string) (value : V) : M (BaseDict V) unit :=
  modify (set_related (<[key := RO Related.init]>));;
  modify (set_items (<[key := value]>)).

(** [del d[key]] on one of the tables of the store *)
Definition del_related {V} (key : string) : M (BaseDict V) unit :=
  λ d, match _related d !! key with
       | Some _ => (set_related (base.delete key) d, Ok tt)
       | None => (d, Raise KeyError)
       end.

Definition del_item {V} (key : string) : M (BaseDict V) unit :=
  λ d, match items d !! key with
       | Some _ => (set_items (base.delete key) d, Ok tt)
       | None => (d, Raise KeyError)
       end.

(** [BaseDict.delete] *)
Definition delete {V} (key : string) : M (BaseDict V) unit :=
  del_related key;;
  del_item key.

(** The [related] property. *)
Definition related {V} (d : BaseDict V) : gmap string RelVal := _related d.

End BaseDict.

(** ** NodeDict *)

Module NodeDict.
Import BaseDict(BaseDict, mkBase, items, _related, _counter, set_items,
  set_related, del_related, del_item).

(** The nine tables of [_attributes], by the type of what they hold. *)
Inductive NodeProp : Type := successors | predecessors | adjacent_nodes.
Inductive EdgeProp : Type := outgoing | incoming | adjacent_edges.
Inductive DegProp : Type := indegrees | outdegrees | degrees.

#[global] Instance NodeProp_eq_dec : EqDecision NodeProp.
Proof. solve_decision. Defined.
#[global] Instance EdgeProp_eq_dec : EqDecision EdgeProp.
Proof. solve_decision. Defined.
#[global] Instance DegProp_eq_dec : EqDecision DegProp.
Proof. solve_decision. Defined.

Record NodeDict : Type := mkNodeDict {
  as_base : BaseDict Node;
  node_attr : NodeProp → gmap string (gmap string Node);
  edge_attr : EdgeProp → gmap string (gmap string Edge);
  deg_attr : DegProp → gmap string nat
}.

(** [NodeDict.__init__] *)
Definition init : NodeDict :=
  {| as_base := BaseDict.init;
     node_attr := λ _, ∅; edge_attr := λ _, ∅; deg_attr := λ _, ∅ |}.

(** [f[p] = x] on a table of tables *)
Definition fn_set {P X} `{EqDecision P} (p : P) (x : X) (f : P → X) : P → X :=
  λ q, if decide (p = q) then x else f q.

Definition set_base (f : BaseDict Node → BaseDict Node) (s : NodeDict)
  : NodeDict :=
  {| as_base := f (as_base s); node_attr := node_attr s;
     edge_attr := edge_attr s; deg_attr := deg_attr s |}.

Definition set_node_attr (p : NodeProp) (m : gmap string (gmap string Node))
    (s : NodeDict) : NodeDict :=
  {| as_base := as_base s; node_attr := fn_set p m (node_attr s);
     edge_attr := edge_attr s; deg_attr := deg_attr s |}.

Definition set_edge_attr (p : EdgeProp) (m : gmap string (gmap string Edge))
    (s : NodeDict) : NodeDict :=
  {| as_base := as_base s; node_attr := node_attr s;
     edge_attr := fn_set p m (edge_attr s); deg_attr := deg_attr s |}.

Definition set_deg_attr (p : DegProp) (m : gmap string nat) (s : NodeDict)
  : NodeDict :=
  {| as_base := as_base s; node_attr := node_attr s;
     edge_attr := edge_attr s; deg_attr := fn_set p m (deg_attr s) |}.

(** A method inherited from BaseDict, run on the NodeDict. *)
Definition lift_base {A} (m : M (BaseDict Node) A) : M NodeDict A :=
  λ s, let '(b, r) := m (as_base s) in (set_base (λ _, b) s, r).

(** *** Item access on a [defaultdict(dict)] table *)

(** [d[k]]: a missing key is first filled with an empty dictionary, which is
    then the value read. *)
Definition dd_fill {X} (k : string) (d : gmap string (gmap string X))
  : gmap string (gmap string X) :=
  match d !! k with
  | Some _ => d
  | None => <[k := ∅]> d
  end.

Definition dd_read {X} (k : string) (d : gmap string (gmap string X))
  : gmap string X := default ∅ (d !! k).

(** [d[k][k'] = x] *)
Definition dd_setitem {X} (k k' : string) (x : X)
    (d : gmap string (gmap string X)) : gmap string (gmap string X) :=
  <[k := <[k' := x]> (dd_read k d)]> (dd_fill k d).

(** [del d[k][k']], when [k'] is in [d[k]] *)
Definition dd_delitem {X} (k k' : string) (d : gmap string (gmap string X))
  : gmap string (gmap string X) :=
  <[k := base.delete k' (dd_read k d)]> (dd_fill k d).

Definition node_setitem (p : NodeProp) (k k' : string) (x : Node)
  : M NodeDict unit :=
  modify (λ s, set_node_attr p (dd_setitem k k' x (node_attr s p)) s).

Definition edge_setitem (p : EdgeProp) (k k' : string) (x : Edge)
  : M NodeDict unit :=
  modify (λ s, set_edge_attr p (dd_setitem k k' x (edge_attr s p)) s).

Definition node_delitem (p : NodeProp) (k k' : string) : M NodeDict unit :=
  λ s, match dd_read k (node_attr s p) !! k' with
       | Some _ => (set_node_attr p (dd_delitem k k' (node_attr s p)) s, Ok tt)
       | None => (set_node_attr p (dd_fill k (node_attr s p)) s, Raise KeyError)
       end.

Definition edge_delitem (p : EdgeProp) (k k' : string) : M NodeDict unit :=
  λ s, match dd_read k (edge_attr s p) !! k' with
       | Some _ => (set_edge_attr p (dd_delitem k k' (edge_attr s p)) s, Ok tt)
       | None => (set_edge_attr p (dd_fill k (edge_attr s p)) s, Raise KeyError)
       end.

(** [len(self._attributes[p][k])] *)
Definition edge_len (p : EdgeProp) (k : string) : M NodeDict nat :=
  λ s, (set_edge_attr p (dd_fill k (edge_attr s p)) s,
        Ok (size (dd_read k (edge_attr s p)))).

(** *** Calls on the entries of [_related] *)

Definition related_set (k : string) (v : RelVal) (s : NodeDict) : NodeDict :=
  set_base (set_related (<[k := v]>)) s.

(** [self._related[k].method(...)]: reading a missing key stores a plain
    dictionary, on which the call raises [on_dict]. *)
Definition call_related (on_dict : Exc) (k : string)
    (method : RelatedObjects → result RelatedObjects) : M NodeDict unit :=
  λ s, match _related (as_base s) !! k with
       | Some (RO r) =>
           match method r with
           | Ok r' => (related_set k (RO r') s, Ok tt)
           | Raise e => (s, Raise e)
           end
       | Some PlainDict => (s, Raise on_dict)
       | None => (related_set k PlainDict s, Raise on_dict)
       end.

(** [if k not in self._related: self._related[k] = RelatedObjects()] *)
Definition ensure_related (k : string) : M NodeDict unit :=
  modify (λ s, match _related (as_base s) !! k with
               | Some _ => s
               | None => related_set k (RO Related.init) s
               end).

(** *** The methods *)

(** [NodeDict._update_degrees] *)
Definition _update_degrees (key : string) : M NodeDict unit :=
  let tuples := [(indegrees, incoming);
                 (outdegrees, outgoing);
                 (degrees, adjacent_edges)] in
  for_each tuples (λ '(degree, edges),
    n ← edge_len edges key;
    modify (λ s, set_deg_attr degree (<[key := n]> (deg_attr s degree)) s)).

(** The attributes a node gains by an edge.  The source has this block
    twice: for the tail of the edge with the head as [other] and the tables
    [successors] and [outgoing], and for the head of the edge with the tail
    as [other] and the tables [predecessors] and [incoming]. *)
Definition gain_attributes (edge : Edge) (uid : string) (other : Node)
    (np : NodeProp) (ep : EdgeProp) : M NodeDict unit :=
  call_related AttributeError uid (λ r, Ok (Related.add_node other r));;
  node_setitem np uid (node_uid other) other;;
  node_setitem adjacent_nodes uid (node_uid other) other;;
  edge_setitem ep uid (edge_uid edge) edge;;
  edge_setitem adjacent_edges uid (edge_uid edge) edge.

(** The body of the loop of [NodeDict.add_edge]. *)
Definition add_edge_node (edge : Edge) (other : option RelatedObjects)
    (node : Node) : M NodeDict unit :=
  let uid := node_uid node in
  ensure_related uid;;
  match other with
  | Some o => call_related TypeError uid (λ r, Ok (Related.update o r))
  | None => mret tt
  end;;
  call_related AttributeError uid (λ r, Ok (Related.add_edge edge r));;
  (if decide (node = edge_v edge)
   then gain_attributes edge uid (edge_w edge) successors outgoing
   else mret tt);;
  (if decide (node = edge_w edge)
   then gain_attributes edge uid (edge_v edge) predecessors incoming
   else mret tt);;
  _update_degrees uid;;
  (* [self.update({node.uid: node})] is [dict.update], which does not go
     through [__setitem__] *)
  modify (set_base (set_items (<[uid := node]>))).

(** [NodeDict.add_edge] *)
Definition add_edge (edge : Edge) (other : option RelatedObjects)
  : M NodeDict unit :=
  for_each (edge_nodes edge) (add_edge_node edge other).

(** The attributes a node loses with an edge; the block is twice in the
    source, as for [gain_attributes]. *)
Definition lose_attributes (edge : Edge) (uid : string) (other : Node)
    (np : NodeProp) (ep : EdgeProp) : M NodeDict unit :=
  call_related AttributeError uid (Related.remove_node other);;
  node_delitem np uid (node_uid other);;
  node_delitem adjacent_nodes uid (node_uid other);;
  edge_delitem ep uid (edge_uid edge);;
  edge_delitem adjacent_edges uid (edge_uid edge).

(** The body of the loop of [NodeDict.remove_edge]. *)
Definition remove_edge_node (edge : Edge) (node : Node) : M NodeDict unit :=
  let uid := node_uid node in
  call_related AttributeError uid (Related.remove_edge edge);;
  (if decide (node = edge_v edge)
   then lose_attributes edge uid (edge_w edge) successors outgoing
   else mret tt);;
  (if decide (node = edge_w edge)
   then lose_attributes edge uid (edge_v edge) predecessors incoming
   else mret tt);;
  _update_degrees uid.

(** [NodeDict.remove_edge] *)
Definition remove_edge (edge : Edge) : M NodeDict unit :=
  for_each (edge_nodes edge) (remove_edge_node edge).

(** [NodeDict.delete]: the loop over [_properties] drops the key from each
    of the nine tables that has it. *)
Definition delete (key : string) : M NodeDict unit :=
  modify (λ s,
    {| as_base := as_base s;
       node_attr := λ p, base.delete key (node_attr s p);
       edge_attr := λ p, base.delete key (edge_attr s p);
       deg_attr := λ p, base.delete key (deg_attr s p) |});;
  lift_base (del_related key);;
  lift_base (del_item key).

(** *** Reading the tables, as a caller does *)

(** [self.successors[k]] and its siblings, without the side effect. *)
Definition nodes_of (s : NodeDict) (p : NodeProp) (k : string)
  : gmap string Node := dd_read k (node_attr s p).
Definition edges_of (s : NodeDict) (p : EdgeProp) (k : string)
  : gmap string Edge := dd_read k (edge_attr s p).
(** [self.degrees()[k]] and its siblings: a [defaultdict(float)]. *)
Definition degree_of (s : NodeDict) (p : DegProp) (k : string) : nat :=
  default 0 (deg_attr s p !! k).

(** A call of the interface, and a run of calls: an exception ends it. *)
Inductive Call : Type :=
| AddEdge (edge : Edge) (other : option RelatedObjects)
| RemoveEdge (edge : Edge).

Definition call (c : Call) : M NodeDict unit :=
  match c with
  | AddEdge e o => add_edge e o
  | RemoveEdge e => remove_edge e
  end.

(** The states after each completed call of a run. *)
Fixpoint trace (cs : list Call) (s : NodeDict) : list NodeDict :=
  match cs with
  | [] => []
  | c :: cs' =>
      match call c s with
      | (s', Ok _) => s' :: trace cs' s'
      | (_, Raise _) => []
      end
  end.

End NodeDict.

(** ** EdgeDict *)

Module EdgeDict.
Import BaseDict(BaseDict, items).

(** [all(...)] and [any(...)] on a list of truth values. *)
Definition py_all (l : list bool) : bool := forallb id l.
Definition py_any (l : list bool) : bool := existsb id l.

(** [self.values()] *)
Definition values (self : BaseDict Edge) : list Edge :=
  (map_to_list (items self)).*2.

(** The [EdgeDict.directed] property; [None] is Python's [None]. *)
Definition directed (self : BaseDict Edge) : option bool :=
  if py_all (edge_directed <$> values self) then Some true
  else if negb (py_any (edge_directed <$> values self)) then Some false
  else None.

End EdgeDict.

(** ** Times *)

Inductive Time : Type := NegInf | Fin (z : Z) | PosInf.

#[global] Instance Time_eq_dec : EqDecision Time.
Proof. solve_decision. Defined.
#[global] Instance Time_countable : Countable Time.
Proof.
  apply (inj_countable'
    (λ t, match t with
          | NegInf => inl false | PosInf => inl true | Fin z => inr z end)
    (λ x, match x with
          | inl false => NegInf | inl true => PosInf | inr z => Fin z end)).
  by intros [].
Defined.

(** [a <= b] and [a < b] on times. *)
Definition tle (a b : Time) : Prop :=
  match a, b with
  | NegInf, _ => True
  | _, PosInf => True
  | Fin x, Fin y => (x ≤ y)%Z
  | _, _ => False
  end.

Definition tlt (a b : Time) : Prop :=
  match a, b with
  | NegInf, NegInf => False
  | NegInf, _ => True
  | PosInf, _ => False
  | Fin x, Fin y => (x < y)%Z
  | Fin _, PosInf => True
  | Fin _, NegInf => False
  end.

#[global] Instance tle_dec a b : Decision (tle a b).
Proof. destruct a, b; simpl; apply _. Defined.
#[global] Instance tlt_dec a b : Decision (tlt a b).
Proof. destruct a, b; simpl; apply _. Defined.

(** [min(a, b)] and [max(a, b)]: the first argument wins a tie. *)
Definition tmin (a b : Time) : Time := if decide (tlt b a) then b else a.
Definition tmax (a b : Time) : Time := if decide (tlt a b) then b else a.

#[global] Instance Edge_countable : Countable Edge.
Proof.
  apply (inj_countable'
    (λ e, (edge_uid e, node_uid (edge_v e), node_uid (edge_w e),
           edge_directed e))
    (λ '(u, v, w, d), mkEdge u (mkNode v) (mkNode w) d)).
  by intros [u [v] [w] d].
Defined.

(** ** The interval tree

    [IntervalTree] is the set of intervals of the [intervaltree] package: a
    set of triples (begin, end, data), here with an edge as data.  The
    package is a dependency of the repository; its operations are embedded
    by their documented behaviour, which section 4.6 of the specification
    restates: chopping every interval at a point, and removing the intervals
    that a range envelops. *)

Module IntervalTree.

Definition Interval : Type := Time * Time * Edge.
Definition iv_begin (iv : Interval) : Time := iv.1.1.
Definition iv_end (iv : Interval) : Time := iv.1.2.
Definition iv_data (iv : Interval) : Edge := iv.2.

(** [tree.addi(begin, end, data)]; a null interval is refused. *)
Definition addi (b e : Time) (d : Edge) (t : gset Interval)
  : result (gset Interval) :=
  if decide (tle e b) then Raise ValueError else Ok ({[ (b, e, d) ]} ∪ t).

(** [tree.at(p)]: the intervals that contain the point. *)
Definition at_point (p : Time) (t : gset Interval) : gset Interval :=
  filter (λ iv, tle (iv_begin iv) p ∧ tlt p (iv_end iv)) t.

(** [tree.slice(p)]: every interval that contains [p] in its interior is
    replaced by its part below and its part above [p]. *)
Definition slice (p : Time) (t : gset Interval) : gset Interval :=
  let hitlist := filter (λ iv, tlt (iv_begin iv) p) (at_point p t) in
  let insertions :=
    set_bind (λ iv, {[ (iv_begin iv, p, iv_data iv);
                       (p, iv_end iv, iv_data iv) ]}) hitlist in
  (t ∖ hitlist) ∪ insertions.

(** [tree.envelop(begin, end)]: the intervals that lie within the range. *)
Definition envelop (b e : Time) (t : gset Interval) : gset Interval :=
  if decide (t = ∅) then ∅
  else if decide (tle e b) then ∅
  else filter (λ iv, tle b (iv_begin iv) ∧ tle (iv_end iv) e) t.

(** [tree.remove_envelop(begin, end)] *)
Definition remove_envelop (b e : Time) (t : gset Interval) : gset Interval :=
  t ∖ envelop b e t.

(** The keys of the boundary table: every begin and every end. *)
Definition boundaries (t : gset Interval) : list Time :=
  (iv_begin <$> elements t) ++ (iv_end <$> elements t).

(** [tree.begin()] and [tree.end()]: the smallest and the largest
    boundary, and 0 for an empty tree. *)
Definition begin (t : gset Interval) : Time :=
  match boundaries t with
  | [] => Fin 0
  | x :: xs => foldr tmin x xs
  end.

Definition end_ (t : gset Interval) : Time :=
  match boundaries t with
  | [] => Fin 0
  | x :: xs => foldr tmax x xs
  end.

(** The order of [sorted(tree)]: by begin, then by end. *)
Definition iv_le (a b : Interval) : Prop :=
  tlt (iv_begin a) (iv_begin b) ∨
  (iv_begin a = iv_begin b ∧ tle (iv_end a) (iv_end b)).
#[global] Instance iv_le_dec a b : Decision (iv_le a b).
Proof. unfold iv_le. apply _. Defined.

(** [sorted(tree)] *)
Definition sorted (t : gset Interval) : list Interval :=
  merge_sort iv_le (elements t).

(** [sorted(tree, key=lambda x: x[1])] *)
Definition sorted_by_end (t : gset Interval) : list Interval :=
  merge_sort (λ a b, tle (iv_end a) (iv_end b)) (elements t).

(** [sorted(tree, key=lambda x: x[1], reverse=True)] *)
Definition sorted_by_end_reverse (t : gset Interval) : list Interval :=
  merge_sort (λ a b, tle (iv_end b) (iv_end a)) (elements t).

End IntervalTree.

(** ** TemporalEdgeCollection *)

Module TemporalEdgeCollection.
Import IntervalTree(Interval, iv_begin, iv_end, iv_data).

Record TemporalEdgeCollection : Type := mkCollection {
  (** the edges of the collection, by identifier *)
  _map : gmap string Edge;
  (** intervals to edges *)
  _intervals : gset Interval;
  (** edges to intervals *)
  _interval_map : gmap Edge (gset (Time * Time))
}.

(** [TemporalEdgeCollection()] *)
Definition init : TemporalEdgeCollection :=
  {| _map := ∅; _intervals := ∅; _interval_map := ∅ |}.

(** The two statements [_add] and [_if_edge_exists] share:
    [self._intervals.addi(begin, end, edge)] and
    [self._interval_map[edge].add((begin, end))]. *)
Definition store_interval (b e : Time) (edge : Edge)
    (self : TemporalEdgeCollection) : result TemporalEdgeCollection :=
  tree ← IntervalTree.addi b e edge (_intervals self);
  Ok {| _map := _map self;
        _intervals := tree;
        _interval_map :=
          <[edge := {[ (b, e) ]} ∪ default ∅ (_interval_map self !! edge)]>
            (_interval_map self) |}.

(** Modelled from the spec: [EdgeCollection.add] and the [_add] of the base
    class are in [pathpy.core.edge], outside the embedded sources.  By
    section 4.6 of the specification a projection re-inserts every edge
    with the interval of its tree entry: [new.add(edge, begin=b, end=e)]
    stores the interval [(b, e)] for the edge and registers the edge under
    its identifier. *)
Definition add (edge : Edge) (b e : Time) (self : TemporalEdgeCollection)
  : result TemporalEdgeCollection :=
  c ← store_interval b e edge self;
  Ok {| _map := <[edge_uid edge := edge]> (_map c);
        _intervals := _intervals c;
        _interval_map := _interval_map c |}.

(** [TemporalEdgeCollection._new_from_intervals] *)
Definition _new_from_intervals (intervals : gset Interval)
  : result TemporalEdgeCollection :=
  foldl (λ acc iv, new ← acc; add (iv_data iv) (iv_begin iv) (iv_end iv) new)
        (Ok init) (elements intervals).

(** The interval tree that [slice] hands to [_new_from_intervals]. *)
Definition slice_tree (b e : Time) (self : TemporalEdgeCollection)
  : gset Interval :=
  let tree := _intervals self in
  let tree := IntervalTree.slice b tree in
  let tree := IntervalTree.slice e tree in
  let tree :=
    IntervalTree.remove_envelop (IntervalTree.begin (_intervals self)) b
      tree in
  let tree :=
    IntervalTree.remove_envelop e (IntervalTree.end_ (_intervals self))
      tree in
  tree.

(** [TemporalEdgeCollection.slice] *)
Definition slice (b e : Time) (self : TemporalEdgeCollection)
  : result TemporalEdgeCollection :=
  _new_from_intervals (slice_tree b e self).

(** [l[0]] and [l[-1]] *)
Definition first {A} (l : list A) : result A :=
  match l with [] => Raise IndexError | x :: _ => Ok x end.
Definition last_item {A} (l : list A) : result A :=
  match last l with None => Raise IndexError | Some x => Ok x end.

(** [TemporalEdgeCollection.begin] *)
Definition begin (finite : bool) (self : TemporalEdgeCollection)
  : result Time :=
  let _begin := IntervalTree.begin (_intervals self) in
  let _end := PosInf in
  if finite then
    let _begin :=
      match List.find (λ iv, bool_decide (tlt NegInf (iv_begin iv)))
              (IntervalTree.sorted (_intervals self)) with
      | Some iv => iv_begin iv
      | None => _begin
      end in
    iv ← first (IntervalTree.sorted_by_end (_intervals self));
    let _end := iv_end iv in
    let _begin :=
      if bool_decide (_begin = NegInf ∧ tlt _end PosInf)
      then _end else _begin in
    Ok (tmin _begin _end)
  else Ok (tmin _begin _end).

(** [TemporalEdgeCollection.end] *)
Definition end_ (finite : bool) (self : TemporalEdgeCollection)
  : result Time :=
  let _begin := NegInf in
  let _end := IntervalTree.end_ (_intervals self) in
  if finite then
    let _end :=
      match List.find (λ iv, bool_decide (tlt (iv_end iv) PosInf))
              (IntervalTree.sorted_by_end_reverse (_intervals self)) with
      | Some iv => iv_end iv
      | None => _end
      end in
    iv ← last_item (IntervalTree.sorted (_intervals self));
    let _begin := iv_begin iv in
    let _end :=
      if bool_decide (tlt NegInf _begin ∧ _end = PosInf)
      then _begin else _end in
    Ok (tmax _begin _end)
  else Ok (tmax _begin _end).

End TemporalEdgeCollection.

(** ** TemporalNetwork.add_edge *)

Module TemporalNetwork.

(** The numbers of Python, as far as the keywords need them. *)
Inductive Num : Type := Tm (t : Time) | NaN.

(** [a + b] *)
Definition num_add (a b : Num) : Num :=
  match a, b with
  | Tm (Fin x), Tm (Fin y) => Tm (Fin (x + y))
  | Tm PosInf, Tm NegInf | Tm NegInf, Tm PosInf => NaN
  | Tm PosInf, Tm _ | Tm _, Tm PosInf => Tm PosInf
  | Tm NegInf, Tm _ | Tm _, Tm NegInf => Tm NegInf
  | NaN, _ | _, NaN => NaN
  end.

(** A keyword value. *)
Inductive PyVal : Type :=
| PyNone
| PyNum (n : Num)
| PyStr (s : string).

(** [isinstance(x, (int, float))] *)
Definition is_number (x : PyVal) : option Num :=
  match x with PyNum n => Some n | _ => None end.

(** The four temporal keywords of a call; [None] is a keyword that was not
    passed. *)
Record Kwargs : Type := mkKwargs {
  kw_begin : option PyVal;
  kw_end : option PyVal;
  kw_timestamp : option PyVal;
  kw_duration : option PyVal
}.

(** [kwargs.pop(key, default)] *)
Definition pop (v : option PyVal) (dflt : PyVal) : PyVal := default dflt v.

(** [TemporalNetwork.add_edge], up to the call of the base class: the
    [begin] and [end] keywords handed on.  [duration_value] is
    [config['temporal']['duration_value']]. *)
Definition add_edge (duration_value : Num) (kwargs : Kwargs)
  : PyVal * PyVal :=
  let _begin := pop (kw_begin kwargs) (PyNum (Tm NegInf)) in
  let _end := pop (kw_end kwargs) (PyNum (Tm PosInf)) in
  let _timestamp := pop (kw_timestamp kwargs) PyNone in
  let _duration := pop (kw_duration kwargs) PyNone in
  match is_number _timestamp with
  | Some ts =>
      match is_number _duration with
      | Some d => (PyNum ts, PyNum (num_add ts d))
      | None => (PyNum ts, PyNum (num_add ts duration_value))
      end
  | None => (_begin, _end)
  end.

End TemporalNetwork.

(** * Properties of the embedded code *)

(** ** RelatedObjects: the path relation *)

Section related_paths.
Implicit Types (r : RelatedObjects) (p : Path).

Lemma remove_path_rebuilt (X : gset Path) :
  set_map (C:=gset Path) (D:=gset Path) (λ p, p) X = X.
Proof.
  apply set_eq. intros x. rewrite elem_of_map. split.
  - by intros [y [-> Hy]].
  - intros Hx. by exists x.
Qed.

Lemma remove_path_present r p :
  p ∈ paths r →
  Related.remove_path p r =
    Ok {| nodes := nodes r; edges := edges r; paths := paths r ∖ {[p]} |}.
Proof.
  intros Hin. unfold Related.remove_path. rewrite remove_path_rebuilt.
  unfold Related.set_remove. by rewrite decide_True.
Qed.

Lemma remove_path_absent r p :
  p ∉ paths r → Related.remove_path p r = Raise KeyError.
Proof.
  intros Hin. unfold Related.remove_path. rewrite remove_path_rebuilt.
  unfold Related.set_remove. by rewrite decide_False.
Qed.

(** C8: [add_path] never adds anything: on every record and every path it
    raises [TypeError], because the path container is a set and the method
    assigns to it by key; so [remove_path] after [add_path] on a fresh
    record finds nothing to remove and raises [KeyError]. *)
Theorem add_path_raises r p :
  Related.add_path p r = Raise TypeError ∧
  Related.remove_path p Related.init = Raise KeyError.
Proof.
  split; [done|]. apply remove_path_absent. set_solver.
Qed.

End related_paths.

(** ** BaseDict: assignment *)

Section basedict_setitem.
Context {V : Type}.
Implicit Types (d : BaseDict.BaseDict V).

Lemma setitem_state key (value : V) d :
  BaseDict.setitem key value d =
    ({| BaseDict.items := <[key := value]> (BaseDict.items d);
        BaseDict._related :=
          <[key := RO Related.init]> (BaseDict._related d);
        BaseDict._counter := BaseDict._counter d |}, Ok tt).
Proof. done. Qed.

(** C5: [__setitem__] gives the key a fresh, empty RelatedObjects record
    whatever the store held before, also when the key was present with a
    record of its own: the relations of a replaced value are dropped. *)
Theorem setitem_resets_related key (value : V) d :
  BaseDict._related (BaseDict.setitem key value d).1 !! key
    = Some (RO Related.init).
Proof. rewrite setitem_state. simpl. apply lookup_insert_eq. Qed.

End basedict_setitem.

(** A store that holds node [a] with one related edge. *)
Definition store_with_relation : BaseDict.BaseDict Node :=
  let a := mkNode "a" in
  let e := mkEdge "e" a (mkNode "b") true in
  {| BaseDict.items := {[ "a" := a ]};
     BaseDict._related := {[ "a" := RO (Related.add_edge e Related.init) ]};
     BaseDict._counter := ∅ |}.

Example setitem_existing_key_loses_relations :
  BaseDict.items store_with_relation !! "a" = Some (mkNode "a") ∧
  BaseDict._related store_with_relation !! "a"
    ≠ BaseDict._related
        (BaseDict.setitem "a" (mkNode "a") store_with_relation).1 !! "a".
Proof.
  split; [done|]. rewrite setitem_state.
  unfold store_with_relation. simpl.
  rewrite lookup_singleton_eq, lookup_insert_eq. discriminate.
Qed.

(** ** EdgeDict: directedness *)

Section edgedict_directed.
Implicit Types (self : BaseDict.BaseDict Edge).

(** An edge is stored when some identifier maps to it. *)
Definition stored self (e : Edge) : Prop :=
  ∃ k, BaseDict.items self !! k = Some e.

Lemma elem_of_values self e : e ∈ EdgeDict.values self ↔ stored self e.
Proof.
  unfold EdgeDict.values, stored. rewrite list_elem_of_fmap. split.
  - intros [[k e'] [-> Hin]]. exists k. by apply elem_of_map_to_list.
  - intros [k Hk]. exists (k, e). split; [done|].
    by apply elem_of_map_to_list.
Qed.

Lemma py_all_true (l : list bool) :
  EdgeDict.py_all l = true ↔ ∀ b, b ∈ l → b = true.
Proof.
  unfold EdgeDict.py_all. rewrite forallb_forall.
  setoid_rewrite <- list_elem_of_In. done.
Qed.

Lemma py_any_true (l : list bool) :
  EdgeDict.py_any l = true ↔ ∃ b, b ∈ l ∧ b = true.
Proof.
  unfold EdgeDict.py_any. rewrite existsb_exists.
  setoid_rewrite <- list_elem_of_In. done.
Qed.

Lemma all_directed_iff self :
  EdgeDict.py_all (edge_directed <$> EdgeDict.values self) = true ↔
  ∀ e, stored self e → edge_directed e = true.
Proof.
  rewrite py_all_true. split.
  - intros H e He. apply H, list_elem_of_fmap. exists e.
    split; [done|]. by apply elem_of_values.
  - intros H b Hb. apply list_elem_of_fmap in Hb as [e [-> He]].
    apply H. by apply elem_of_values.
Qed.

Lemma any_directed_iff self :
  EdgeDict.py_any (edge_directed <$> EdgeDict.values self) = true ↔
  ∃ e, stored self e ∧ edge_directed e = true.
Proof.
  rewrite py_any_true. split.
  - intros [b [Hb ->]]. apply list_elem_of_fmap in Hb as [e [Hd He]].
    exists e. split; [by apply elem_of_values | done].
  - intros [e [He Hd]]. exists true. split; [|done].
    apply list_elem_of_fmap. exists e. split; [done|].
    by apply elem_of_values.
Qed.

(** C3, as the code has it: [directed] is [True] exactly when every stored
    edge is directed, which includes the index without edges; it is [False]
    exactly when there is a stored edge and none is directed; it is [None]
    exactly when a directed and an undirected edge are both stored. *)
Theorem directed_characterised self :
  (EdgeDict.directed self = Some true ↔
     ∀ e, stored self e → edge_directed e = true) ∧
  (EdgeDict.directed self = Some false ↔
     (∃ e, stored self e) ∧ ∀ e, stored self e → edge_directed e = false) ∧
  (EdgeDict.directed self = None ↔
     (∃ e, stored self e ∧ edge_directed e = true) ∧
     (∃ e, stored self e ∧ edge_directed e = false)).
Proof.
  unfold EdgeDict.directed.
  destruct (EdgeDict.py_all _) eqn:Hall.
  - rewrite all_directed_iff in Hall. split_and!.
    + done.
    + split; [done|]. intros [[e He] Hnone].
      specialize (Hall e He). specialize (Hnone e He). congruence.
    + split; [done|]. intros [_ [e [He Hd]]].
      specialize (Hall e He). congruence.
  - assert (¬ ∀ e, stored self e → edge_directed e = true) as Hnall.
    { rewrite <- all_directed_iff. congruence. }
    assert (∃ e, stored self e ∧ edge_directed e = false) as [e0 [He0 Hd0]].
    { apply not_true_iff_false in Hall. rewrite py_all_true in Hall.
      destruct (decide (Forall (λ b, b = true)
                  (edge_directed <$> EdgeDict.values self))) as [HF|HF].
      - exfalso. apply Hall. by apply Forall_forall.
      - apply not_Forall_Exists in HF; [|apply _].
        apply Exists_exists in HF as [b [Hb Hnb]].
        apply list_elem_of_fmap in Hb as [e [-> He]].
        exists e. split; [by apply elem_of_values|].
        by apply not_true_is_false. }
    destruct (EdgeDict.py_any _) eqn:Hany; simpl.
    + rewrite any_directed_iff in Hany. destruct Hany as [e1 [He1 Hd1]].
      split_and!.
      * done.
      * split; [done|]. intros [_ Hnone]. specialize (Hnone e1 He1).
        congruence.
      * split; [|done]. intros _. split; eauto.
    + split_and!.
      * done.
      * split; [|done]. intros _. split; [eauto|].
        intros e He. destruct (edge_directed e) eqn:Hd; [|done].
        assert (EdgeDict.py_any (edge_directed <$> EdgeDict.values self)
                = true) as Ht by (apply any_directed_iff; eauto).
        congruence.
      * split; [done|]. intros [[e [He Hd]] _].
        assert (EdgeDict.py_any (edge_directed <$> EdgeDict.values self)
                = true) as Ht by (apply any_directed_iff; eauto).
        congruence.
Qed.

(** C3, the failing case of the claim as stated: the index without edges
    is reported as directed, not as indeterminate. *)
Lemma directed_empty_is_true :
  EdgeDict.directed BaseDict.init = Some true ∧
  EdgeDict.directed BaseDict.init ≠ None.
Proof. split; [reflexivity | discriminate]. Qed.

End edgedict_directed.

(** ** TemporalNetwork: the interval of a new edge *)

Section temporal_add_edge.
Import TemporalNetwork.
Variable duration_value : Num.


End temporal_add_edge.

(** ** The monad: how a sequence of statements runs *)

Section monad_runs.
Context {S : Type}.

Lemma bind_run {A B} (m : M S A) (f : A → M S B) s s' a :
  m s = (s', Ok a) → (m ≫= f) s = f a s'.
Proof. intros H. unfold mbind, M_bind, Py.bind. by rewrite H. Qed.

Lemma bind_fail {A B} (m : M S A) (f : A → M S B) s s' e :
  m s = (s', Raise e) → (m ≫= f) s = (s', Raise e).
Proof. intros H. unfold mbind, M_bind, Py.bind. by rewrite H. Qed.

Lemma bind_assoc {A B C} (m : M S A) (f : A → M S B) (g : B → M S C) s :
  ((m ≫= f) ≫= g) s = (m ≫= (λ a, f a ≫= g)) s.
Proof.
  unfold mbind, M_bind, Py.bind. by destruct (m s) as [s' [a|e]].
Qed.

Lemma bind_ok_inv {A B} (m : M S A) (f : A → M S B) s s' b :
  (m ≫= f) s = (s', Ok b) →
  ∃ s1 a, m s = (s1, Ok a) ∧ f a s1 = (s', Ok b).
Proof.
  unfold mbind, M_bind, Py.bind. destruct (m s) as [s1 [a|e]]; [|done].
  intros H. by exists s1, a.
Qed.





End monad_runs.

(** ** NodeDict: reading the tables after a write *)

Section dd_tables.
Context {X : Type}.
Implicit Types (d : gmap string (gmap string X)) (k a : string).
Import NodeDict.

Lemma dd_read_fill k k' d : dd_read k' (dd_fill k d) = dd_read k' d.
Proof.
  unfold dd_read, dd_fill. destruct (d !! k) eqn:Hk; [done|].
  destruct (decide (k = k')) as [->|Hne].
  - by rewrite lookup_insert_eq, Hk.
  - by rewrite lookup_insert_ne.
Qed.

Lemma dd_read_insert k k' (m : gmap string X) d :
  dd_read k' (<[k := m]> d) = if decide (k' = k) then m else dd_read k' d.
Proof.
  unfold dd_read. case_decide as Hk.
  - subst. by rewrite lookup_insert_eq.
  - by rewrite lookup_insert_ne.
Qed.

Lemma dd_read_setitem k k' a (x : X) d :
  dd_read k' (dd_setitem k a x d)
  = if decide (k' = k) then <[a := x]> (dd_read k d) else dd_read k' d.
Proof.
  unfold dd_setitem. rewrite dd_read_insert. case_decide; [done|].
  apply dd_read_fill.
Qed.

Lemma dd_read_delitem k k' a d :
  dd_read k' (dd_delitem k a d)
  = if decide (k' = k) then base.delete a (dd_read k d) else dd_read k' d.
Proof.
  unfold dd_delitem. rewrite dd_read_insert. case_decide; [done|].
  apply dd_read_fill.
Qed.

End dd_tables.

Section nodedict_frames.
Import NodeDict.
Import BaseDict(items, _related, _counter, set_items, set_related).
Implicit Types (s : NodeDict) (k : string).

(** The table of edges a degree is the size of. *)
Definition edges_for (p : DegProp) : EdgeProp :=
  match p with
  | indegrees => incoming
  | outdegrees => outgoing
  | degrees => adjacent_edges
  end.

(** The cached degrees of [k] agree with the edge tables of [k]. *)
Definition degrees_agree s k : Prop :=
  ∀ p, degree_of s p k = size (edges_of s (edges_for p) k).

(** The edge tables and the degrees of every key but [k] read the same. *)
Definition same_elsewhere k s s' : Prop :=
  ∀ k', k' ≠ k →
    (∀ p, edges_of s' p k' = edges_of s p k') ∧
    (∀ p, degree_of s' p k' = degree_of s p k').

#[local] Instance same_elsewhere_refl k : Reflexive (same_elsewhere k).
Proof. by intros s k' Hk. Qed.
#[local] Instance same_elsewhere_trans k : Transitive (same_elsewhere k).
Proof.
  intros s1 s2 s3 H12 H23 k' Hk.
  destruct (H12 k' Hk) as [He1 Hd1], (H23 k' Hk) as [He2 Hd2].
  split; intros p; [by rewrite He2 | by rewrite Hd2].
Qed.

Lemma edges_of_set_edge_attr p q (m : gmap string (gmap string Edge)) s k :
  edges_of (set_edge_attr p m s) q k
  = if decide (p = q) then dd_read k m else edges_of s q k.
Proof. unfold edges_of, set_edge_attr, fn_set. simpl. by case_decide. Qed.

Lemma nodes_of_set_node_attr p q (m : gmap string (gmap string Node)) s k :
  nodes_of (set_node_attr p m s) q k
  = if decide (p = q) then dd_read k m else nodes_of s q k.
Proof. unfold nodes_of, set_node_attr, fn_set. simpl. by case_decide. Qed.















End nodedict_frames.

(** ** NodeDict: the cached degrees *)

Section nodedict_degrees.
Import NodeDict.
Import BaseDict(items, _related, _counter, set_items, set_related).
Implicit Types (s : NodeDict) (k : string).

(** What [_update_degrees] does, in terms of what is read afterwards. *)
Lemma update_degrees_spec k s :
  ∃ s', _update_degrees k s = (s', Ok tt) ∧
        as_base s' = as_base s ∧
        node_attr s' = node_attr s ∧
        (∀ p k', edges_of s' p k' = edges_of s p k') ∧
        (∀ p k', degree_of s' p k'
                 = if decide (k' = k) then size (edges_of s (edges_for p) k)
                   else degree_of s p k').
Proof.
  eexists. split; [reflexivity|]. split_and!; [done..| |].
  - intros p k'. unfold edges_of. simpl. unfold fn_set.
    destruct p; simpl; by rewrite ?dd_read_fill.
  - intros p k'. unfold degree_of, edges_of. simpl. unfold fn_set.
    destruct p; simpl; case_decide; subst;
      rewrite ?lookup_insert_eq, ?lookup_insert_ne by done; simpl;
      by rewrite ?dd_read_fill.
Qed.




(** The invariant of the index. *)
Definition degrees_consistent s : Prop := ∀ k, degrees_agree s k.









End nodedict_degrees.

(** ** NodeDict: what one edge does to one node *)

Section nodedict_steps.
Import NodeDict.
Import BaseDict(items, _related, _counter, set_items, set_related).
Implicit Types (s : NodeDict) (k uid : string) (r : RelatedObjects).

Lemma call_related_run exc k method s r r' :
  _related (as_base s) !! k = Some (RO r) → method r = Ok r' →
  call_related exc k method s = (related_set k (RO r') s, Ok tt).
Proof. intros Hk Hm. unfold call_related. by rewrite Hk, Hm. Qed.

Lemma call_related_fail exc k method s r x :
  _related (as_base s) !! k = Some (RO r) → method r = Raise x →
  call_related exc k method s = (s, Raise x).
Proof. intros Hk Hm. unfold call_related. by rewrite Hk, Hm. Qed.

Lemma node_delitem_run p k k' s x :
  nodes_of s p k !! k' = Some x →
  node_delitem p k k' s
  = (set_node_attr p (dd_delitem k k' (node_attr s p)) s, Ok tt).
Proof. intros H. unfold node_delitem. unfold nodes_of in H. by rewrite H. Qed.

Lemma edge_delitem_run p k k' s x :
  edges_of s p k !! k' = Some x →
  edge_delitem p k k' s
  = (set_edge_attr p (dd_delitem k k' (edge_attr s p)) s, Ok tt).
Proof. intros H. unfold edge_delitem. unfold edges_of in H. by rewrite H. Qed.

(** The tables a block of [gain_attributes] or [lose_attributes] writes. *)
Definition writes_nodes (np p : NodeProp) : Prop := p = np ∨ p = adjacent_nodes.
Definition writes_edges (ep p : EdgeProp) : Prop := p = ep ∨ p = adjacent_edges.

#[local] Instance writes_nodes_dec np p : Decision (writes_nodes np p).
Proof. unfold writes_nodes. apply _. Defined.
#[local] Instance writes_edges_dec ep p : Decision (writes_edges ep p).
Proof. unfold writes_edges. apply _. Defined.

Lemma gain_attributes_spec e uid other np ep s r :
  _related (as_base s) !! uid = Some (RO r) →
  ∃ s', gain_attributes e uid other np ep s = (s', Ok tt) ∧
    as_base s' = set_related (<[uid := RO (Related.add_node other r)]>)
                   (as_base s) ∧
    (∀ p k, nodes_of s' p k
            = if decide (k = uid ∧ writes_nodes np p)
              then <[node_uid other := other]> (nodes_of s p k)
              else nodes_of s p k) ∧
    (∀ p k, edges_of s' p k
            = if decide (k = uid ∧ writes_edges ep p)
              then <[edge_uid e := e]> (edges_of s p k)
              else edges_of s p k) ∧
    deg_attr s' = deg_attr s.
Proof.
  intros Hr. unfold gain_attributes.
  erewrite bind_run by (by eapply call_related_run).
  eexists. split; [reflexivity|]. split_and!; [done| | |done].
  - intros p k. unfold nodes_of, writes_nodes. simpl. unfold fn_set.
    destruct np, p; simpl; rewrite ?dd_read_setitem;
      repeat case_decide; subst; try done; try (exfalso; intuition congruence);
      by rewrite ?insert_insert_eq.
  - intros p k. unfold edges_of, writes_edges. simpl. unfold fn_set.
    destruct ep, p; simpl; rewrite ?dd_read_setitem;
      repeat case_decide; subst; try done; try (exfalso; intuition congruence);
      by rewrite ?insert_insert_eq.
Qed.


Lemma lose_attributes_spec e uid other np ep s r :
  np ≠ adjacent_nodes → ep ≠ adjacent_edges →
  _related (as_base s) !! uid = Some (RO r) →
  is_Some (nodes r !! node_uid other) →
  is_Some (nodes_of s np uid !! node_uid other) →
  is_Some (nodes_of s adjacent_nodes uid !! node_uid other) →
  is_Some (edges_of s ep uid !! edge_uid e) →
  is_Some (edges_of s adjacent_edges uid !! edge_uid e) →
  ∃ s', lose_attributes e uid other np ep s = (s', Ok tt) ∧
    as_base s'
    = set_related
        (<[uid := RO {| nodes := base.delete (node_uid other) (nodes r);
                        edges := edges r; paths := paths r |}]>)
        (as_base s) ∧
    (∀ p k, nodes_of s' p k
            = if decide (k = uid ∧ writes_nodes np p)
              then base.delete (node_uid other) (nodes_of s p k)
              else nodes_of s p k) ∧
    (∀ p k, edges_of s' p k
            = if decide (k = uid ∧ writes_edges ep p)
              then base.delete (edge_uid e) (edges_of s p k)
              else edges_of s p k) ∧
    deg_attr s' = deg_attr s.
Proof.
  intros Hnp Hep Hr [x Hx] [n1 Hn1] [n2 Hn2] [e1 He1] [e2 He2].
  unfold lose_attributes.
  erewrite bind_run; cycle 1.
  { eapply call_related_run; [exact Hr|].
    unfold Related.remove_node, Related.dict_del. by rewrite Hx. }
  erewrite bind_run; cycle 1.
  { eapply node_delitem_run. exact Hn1. }
  erewrite bind_run; cycle 1.
  { eapply node_delitem_run. rewrite nodes_of_set_node_attr.
    rewrite decide_False by done. exact Hn2. }
  erewrite bind_run; cycle 1.
  { eapply edge_delitem_run. exact He1. }
  erewrite edge_delitem_run; cycle 1.
  { rewrite edges_of_set_edge_attr. rewrite decide_False by done. exact He2. }
  eexists. split; [reflexivity|]. split_and!; [done| | |done].
  - intros p k. unfold nodes_of, writes_nodes. simpl. unfold fn_set.
    destruct np, p; simpl; rewrite ?dd_read_delitem;
      repeat case_decide; subst; try done;
      exfalso; intuition congruence.
  - intros p k. unfold edges_of, writes_edges. simpl. unfold fn_set.
    destruct ep, p; simpl; rewrite ?dd_read_delitem;
      repeat case_decide; subst; try done;
      exfalso; intuition congruence.
Qed.

Lemma lose_attributes_fail e uid other np ep s r :
  _related (as_base s) !! uid = Some (RO r) →
  nodes r !! node_uid other = None →
  lose_attributes e uid other np ep s = (s, Raise KeyError).
Proof.
  intros Hr Hx. unfold lose_attributes. apply bind_fail.
  eapply call_related_fail; [exact Hr|].
  unfold Related.remove_node, Related.dict_del. by rewrite Hx.
Qed.

(** The RelatedObjects record, the adjacent nodes and the adjacent edges of a
    node after the loop body of [add_edge] has run for it. *)
Definition related_after_add (e : Edge) (oth : option RelatedObjects)
    (n : Node) (r0 : RelatedObjects) : RelatedObjects :=
  let r := match oth with Some o => Related.update o r0 | None => r0 end in
  let r := Related.add_edge e r in
  let r := if decide (n = edge_v e) then Related.add_node (edge_w e) r
           else r in
  if decide (n = edge_w e) then Related.add_node (edge_v e) r else r.

Definition nodes_after_add (e : Edge) (n : Node) (p : NodeProp)
    (m : gmap string Node) : gmap string Node :=
  let m := if decide (n = edge_v e ∧ writes_nodes successors p)
           then <[node_uid (edge_w e) := edge_w e]> m else m in
  if decide (n = edge_w e ∧ writes_nodes predecessors p)
  then <[node_uid (edge_v e) := edge_v e]> m else m.

Definition edges_after_add (e : Edge) (n : Node) (p : EdgeProp)
    (m : gmap string Edge) : gmap string Edge :=
  if decide ((n = edge_v e ∧ writes_edges outgoing p) ∨
             (n = edge_w e ∧ writes_edges incoming p))
  then <[edge_uid e := e]> m else m.

(** The node has a RelatedObjects record [r0], or none yet and [r0] is the
    empty record it would get. *)
Definition record_of s uid r0 : Prop :=
  _related (as_base s) !! uid = Some (RO r0) ∨
  (_related (as_base s) !! uid = None ∧ r0 = Related.init).

Lemma ensure_related_run uid s r0 :
  record_of s uid r0 →
  ∃ s0, ensure_related uid s = (s0, Ok tt) ∧
    _related (as_base s0) = <[uid := RO r0]> (_related (as_base s)) ∧
    items (as_base s0) = items (as_base s) ∧
    _counter (as_base s0) = _counter (as_base s) ∧
    node_attr s0 = node_attr s ∧ edge_attr s0 = edge_attr s ∧
    deg_attr s0 = deg_attr s.
Proof.
  intros [Hr|[Hr ->]]; unfold ensure_related, modify; rewrite Hr;
    eexists; (split; [reflexivity|]); split_and!; try done.
  simpl. by rewrite insert_id.
Qed.

Lemma gain_if_spec (P : Prop) `{Decision P} e uid other np ep s r :
  _related (as_base s) !! uid = Some (RO r) →
  ∃ s', (if decide P then gain_attributes e uid other np ep else mret tt) s
        = (s', Ok tt) ∧
    _related (as_base s')
    = <[uid := RO (if decide P then Related.add_node other r else r)]>
        (_related (as_base s)) ∧
    items (as_base s') = items (as_base s) ∧
    _counter (as_base s') = _counter (as_base s) ∧
    (∀ p k, nodes_of s' p k
            = if decide (k = uid ∧ P ∧ writes_nodes np p)
              then <[node_uid other := other]> (nodes_of s p k)
              else nodes_of s p k) ∧
    (∀ p k, edges_of s' p k
            = if decide (k = uid ∧ P ∧ writes_edges ep p)
              then <[edge_uid e := e]> (edges_of s p k)
              else edges_of s p k) ∧
    deg_attr s' = deg_attr s.
Proof.
  intros Hr. destruct (decide P) as [HP|HP].
  - destruct (gain_attributes_spec e uid other np ep s r Hr)
      as (s' & Hrun & Hb & Hn & He & Hd).
    exists s'. split; [done|]. rewrite Hb. simpl. split_and!; try done.
    + intros p k. rewrite Hn. repeat case_decide; try done;
        exfalso; intuition congruence.
    + intros p k. rewrite He. repeat case_decide; try done;
        exfalso; intuition congruence.
  - exists s. split; [done|]. split_and!; try done.
    + by rewrite insert_id.
    + intros p k. rewrite decide_False; [done | intuition].
    + intros p k. rewrite decide_False; [done | intuition].
Qed.

Lemma add_edge_node_spec e oth n s r0 :
  record_of s (node_uid n) r0 →
  ∃ s', add_edge_node e oth n s = (s', Ok tt) ∧
    _related (as_base s')
    = <[node_uid n := RO (related_after_add e oth n r0)]>
        (_related (as_base s)) ∧
    items (as_base s') = <[node_uid n := n]> (items (as_base s)) ∧
    _counter (as_base s') = _counter (as_base s) ∧
    (∀ p k, nodes_of s' p k
            = if decide (k = node_uid n)
              then nodes_after_add e n p (nodes_of s p k)
              else nodes_of s p k) ∧
    (∀ p k, edges_of s' p k
            = if decide (k = node_uid n)
              then edges_after_add e n p (edges_of s p k)
              else edges_of s p k) ∧
    (∀ p k, degree_of s' p k
            = if decide (k = node_uid n)
              then size (edges_after_add e n (edges_for p)
                           (edges_of s (edges_for p) k))
              else degree_of s p k).
Proof.
  intros Hpre. unfold add_edge_node.
  destruct (ensure_related_run _ _ _ Hpre)
    as (s0 & Hrun0 & Hrel0 & Hit0 & Hc0 & Hn0 & He0 & Hd0).
  rewrite (bind_run _ _ _ _ _ Hrun0).
  (* the call of [update], if any *)
  set (r1 := match oth with Some o => Related.update o r0 | None => r0 end).
  assert (∃ s1, (match oth with
                 | Some o => call_related TypeError (node_uid n)
                               (λ r, Ok (Related.update o r))
                 | None => mret tt
                 end) s0 = (s1, Ok tt) ∧
            _related (as_base s1)
            = <[node_uid n := RO r1]> (_related (as_base s)) ∧
            items (as_base s1) = items (as_base s) ∧
            _counter (as_base s1) = _counter (as_base s) ∧
            node_attr s1 = node_attr s ∧ edge_attr s1 = edge_attr s ∧
            deg_attr s1 = deg_attr s)
    as (s1 & Hrun1 & Hrel1 & Hit1 & Hc1 & Hn1 & He1 & Hd1).
  { destruct oth as [o|].
    - eexists. split.
      + eapply call_related_run; [|reflexivity].
        rewrite Hrel0. apply lookup_insert_eq.
      + simpl. rewrite Hrel0, insert_insert_eq. by split_and!.
    - exists s0. by split_and!. }
  rewrite (bind_run _ _ _ _ _ Hrun1).
  (* the call of [add_edge] on the record *)
  erewrite bind_run; cycle 1.
  { eapply call_related_run; [|reflexivity].
    rewrite Hrel1. apply lookup_insert_eq. }
  set (s2 := related_set _ _ s1).
  assert (_related (as_base s2)
          = <[node_uid n := RO (Related.add_edge e r1)]>
              (_related (as_base s))) as Hrel2.
  { subst s2. simpl. by rewrite Hrel1, insert_insert_eq. }
  (* the two blocks of attributes *)
  destruct (gain_if_spec (n = edge_v e) e (node_uid n) (edge_w e)
              successors outgoing s2 (Related.add_edge e r1))
    as (s3 & Hrun3 & Hrel3 & Hit3 & Hc3 & Hn3 & He3 & Hd3).
  { rewrite Hrel2. apply lookup_insert_eq. }
  rewrite (bind_run _ _ _ _ _ Hrun3).
  rewrite Hrel2, insert_insert_eq in Hrel3.
  destruct (gain_if_spec (n = edge_w e) e (node_uid n) (edge_v e)
              predecessors incoming s3 _
              ltac:(rewrite Hrel3; apply lookup_insert_eq))
    as (s4 & Hrun4 & Hrel4 & Hit4 & Hc4 & Hn4 & He4 & Hd4).
  rewrite (bind_run _ _ _ _ _ Hrun4).
  rewrite Hrel3, insert_insert_eq in Hrel4.
  (* the degrees and the entry of the node *)
  destruct (update_degrees_spec (node_uid n) s4)
    as (s5 & Hrun5 & Hb5 & Hn5 & He5 & Hd5).
  rewrite (bind_run _ _ _ _ _ Hrun5).
  eexists. split; [reflexivity|]. simpl. rewrite Hb5.
  assert (∀ p k, edges_of s4 p k
            = if decide (k = node_uid n)
              then edges_after_add e n p (edges_of s p k)
              else edges_of s p k) as Hedges.
  { intros p k. rewrite He4, He3. unfold edges_after_add.
    replace (edges_of s2 p k) with (edges_of s p k)
      by (subst s2; unfold edges_of; simpl; by rewrite He1).
    repeat case_decide; try done; rewrite ?insert_insert_eq; try done;
      exfalso; intuition congruence. }
  split_and!.
  - by rewrite Hrel4.
  - rewrite Hit4, Hit3. subst s2. simpl. by rewrite Hit1.
  - rewrite Hc4, Hc3. subst s2. simpl. by rewrite Hc1.
  - intros p k.
    replace (nodes_of (set_base (set_items <[node_uid n:=n]>) s5) p k)
      with (nodes_of s4 p k) by (unfold nodes_of; simpl; by rewrite Hn5).
    rewrite Hn4, Hn3. unfold nodes_after_add.
    replace (nodes_of s2 p k) with (nodes_of s p k)
      by (subst s2; unfold nodes_of; simpl; by rewrite Hn1).
    repeat case_decide; try done; exfalso; intuition congruence.
  - intros p k.
    replace (edges_of (set_base (set_items <[node_uid n:=n]>) s5) p k)
      with (edges_of s5 p k) by done.
    by rewrite He5, Hedges.
  - intros p k.
    replace (degree_of (set_base (set_items <[node_uid n:=n]>) s5) p k)
      with (degree_of s5 p k) by done.
    rewrite Hd5. destruct (decide (k = node_uid n)) as [->|Hk].
    + rewrite Hedges. by rewrite decide_True.
    + unfold degree_of. rewrite Hd4, Hd3. subst s2. simpl. by rewrite Hd1.
Qed.

End nodedict_steps.

(** ** NodeDict: removing a self-loop *)

Section nodedict_self_loop.
Import NodeDict.
Import BaseDict(items, _related, _counter, set_items, set_related).
Implicit Types (s : NodeDict) (k uid : string) (r : RelatedObjects).

Lemma add_edge_node_record e oth n s s' :
  add_edge_node e oth n s = (s', Ok tt) → ∃ r0, record_of s (node_uid n) r0.
Proof.
  intros Hrun. unfold record_of.
  destruct (_related (as_base s) !! node_uid n) as [[r|]|] eqn:Hr; [eauto| |eauto].
  exfalso. revert Hrun. unfold add_edge_node.
  assert (ensure_related (node_uid n) s = (s, Ok tt)) as H0.
  { unfold ensure_related, modify. by rewrite Hr. }
  rewrite (bind_run _ _ _ _ _ H0).
  destruct oth as [o|].
  - erewrite bind_fail; [done|]. unfold call_related. by rewrite Hr.
  - erewrite bind_run by reflexivity.
    erewrite bind_fail; [done|]. unfold call_related. by rewrite Hr.
Qed.

(** C10: a self-loop that [add_edge] has registered cannot be removed:
    [remove_edge] raises [KeyError] when it deletes the node relation for the
    second time.  At that point the successors, the adjacent nodes, the
    outgoing and the adjacent edges of the node are already retracted, while
    its predecessors, its incoming edges and its cached degrees are not: the
    index is left partially retracted. *)
Theorem remove_self_loop_raises (e : Edge) oth s s1 :
  edge_v e = edge_w e →
  add_edge e oth s = (s1, Ok tt) →
  ∃ s2, remove_edge e s1 = (s2, Raise KeyError) ∧
    nodes_of s2 successors (node_uid (edge_v e)) !! node_uid (edge_v e) = None ∧
    nodes_of s2 adjacent_nodes (node_uid (edge_v e)) !! node_uid (edge_v e)
      = None ∧
    edges_of s2 outgoing (node_uid (edge_v e)) !! edge_uid e = None ∧
    edges_of s2 adjacent_edges (node_uid (edge_v e)) !! edge_uid e = None ∧
    nodes_of s2 predecessors (node_uid (edge_v e)) !! node_uid (edge_v e)
      = Some (edge_v e) ∧
    edges_of s2 incoming (node_uid (edge_v e)) !! edge_uid e = Some e ∧
    (∀ p, degree_of s2 p (node_uid (edge_v e))
          = degree_of s1 p (node_uid (edge_v e))) ∧
    degree_of s2 outdegrees (node_uid (edge_v e))
      = S (size (edges_of s2 outgoing (node_uid (edge_v e)))) ∧
    s2 ≠ s1.
Proof.
  destruct e as [u a w d]. simpl. intros <- Hadd.
  set (e := mkEdge u a a d) in *.
  unfold add_edge, edge_nodes in Hadd. simpl in Hadd.
  rewrite decide_True in Hadd by done. simpl in Hadd.
  apply bind_ok_inv in Hadd as (s1' & [] & Hadd & [= <-]).
  destruct (add_edge_node_record _ _ _ _ _ Hadd) as [r0 Hrec].
  destruct (add_edge_node_spec e oth a s r0 Hrec)
    as (s1'' & Hrun & Hrel & _ & _ & Hn & He & Hd).
  rewrite Hadd in Hrun. injection Hrun as <-.
  set (r1 := related_after_add e oth a r0) in *.
  assert (nodes r1 !! node_uid a = Some a ∧ edges r1 !! u = Some e)
    as [Hr1n Hr1e].
  { subst r1. unfold related_after_add. simpl.
    rewrite !decide_True by done. simpl.
    split; [by rewrite lookup_insert_eq|].
    destruct oth; simpl; by rewrite lookup_insert_eq. }
  assert (∀ p, nodes_of s1' p (node_uid a) !! node_uid a = Some a) as Hn1.
  { intros p. rewrite Hn, decide_True by done. unfold nodes_after_add.
    unfold writes_nodes. simpl.
    destruct p; repeat case_decide; rewrite ?lookup_insert_eq; try done;
      exfalso; intuition congruence. }
  assert (∀ p, edges_of s1' p (node_uid a) !! u = Some e) as He1.
  { intros p. rewrite He, decide_True by done. unfold edges_after_add.
    unfold writes_edges. simpl.
    destruct p; repeat case_decide; rewrite ?lookup_insert_eq; try done;
      exfalso; intuition congruence. }
  (* the run of [remove_edge] *)
  unfold remove_edge, edge_nodes. simpl. rewrite decide_True by done. simpl.
  unfold remove_edge_node. simpl. rewrite !decide_True by done.
  set (r2 := {| nodes := nodes r1; edges := base.delete u (edges r1);
                paths := paths r1 |}).
  set (t1 := related_set (node_uid a) (RO r2) s1').
  assert (_related (as_base t1) !! node_uid a = Some (RO r2)) as Hrel1
    by apply lookup_insert_eq.
  assert (is_Some (nodes r2 !! node_uid a)) as Hr2n by (by exists a).
  destruct (lose_attributes_spec e (node_uid a) a successors outgoing t1 r2
              ltac:(done) ltac:(done) Hrel1 Hr2n
              (ex_intro _ a (Hn1 successors))
              (ex_intro _ a (Hn1 adjacent_nodes))
              (ex_intro _ e (He1 outgoing))
              (ex_intro _ e (He1 adjacent_edges)))
    as (t2 & Hrun2 & Hb2 & Hn2 & He2 & Hd2).
  exists t2. split.
  { apply bind_fail. erewrite bind_run; cycle 1.
    { eapply call_related_run; [by rewrite Hrel, lookup_insert_eq|].
      unfold Related.remove_edge, Related.dict_del. simpl.
      by rewrite Hr1e. }
    fold t1. erewrite bind_run by exact Hrun2.
    apply bind_fail. eapply lose_attributes_fail.
    - rewrite Hb2. simpl. apply lookup_insert_eq.
    - simpl. apply lookup_delete_eq. }
  assert (∀ p k, nodes_of t1 p k = nodes_of s1' p k) as Ht1n by done.
  assert (∀ p k, edges_of t1 p k = edges_of s1' p k) as Ht1e by done.
  assert (∀ p k, degree_of t2 p k = degree_of s1' p k) as Ht2d.
  { intros p k. unfold degree_of. by rewrite Hd2. }
  split_and!.
  - rewrite Hn2, decide_True by (unfold writes_nodes; auto).
    apply lookup_delete_eq.
  - rewrite Hn2, decide_True by (unfold writes_nodes; auto).
    apply lookup_delete_eq.
  - rewrite He2, decide_True by (unfold writes_edges; auto).
    apply lookup_delete_eq.
  - rewrite He2, decide_True by (unfold writes_edges; auto).
    apply lookup_delete_eq.
  - rewrite Hn2, decide_False by (unfold writes_nodes; intuition congruence).
    rewrite Ht1n. apply Hn1.
  - rewrite He2, decide_False by (unfold writes_edges; intuition congruence).
    rewrite Ht1e. apply He1.
  - intros p. apply Ht2d.
  - rewrite Ht2d.
    assert (degree_of s1' outdegrees (node_uid a)
            = size (edges_of s1' outgoing (node_uid a))) as ->.
    { rewrite Hd, He. by rewrite !decide_True. }
    rewrite He2, decide_True by (unfold writes_edges; auto).
    rewrite Ht1e, map_size_delete_Some by (exists e; apply He1).
    pose proof (map_size_ne_0_lookup_2 _ u
                  (ex_intro _ e (He1 outgoing))) as Hpos.
    lia.
  - intros Heq. specialize (Hn1 successors).
    rewrite <- Heq, Hn2, decide_True in Hn1 by (unfold writes_nodes; auto).
    by rewrite lookup_delete_eq in Hn1.
Qed.

End nodedict_self_loop.

(** A self-loop on a new index, the concrete case of the theorem. *)
Definition loop_edge : Edge := mkEdge "l" (mkNode "A") (mkNode "A") true.

Lemma remove_self_loop_raises_witness :
  ∃ s2,
    NodeDict.remove_edge loop_edge
      (NodeDict.add_edge loop_edge None NodeDict.init).1
    = (s2, Raise KeyError) ∧
    NodeDict.nodes_of s2 NodeDict.successors "A" !! "A" = None ∧
    NodeDict.nodes_of s2 NodeDict.adjacent_nodes "A" !! "A" = None ∧
    NodeDict.edges_of s2 NodeDict.outgoing "A" !! "l" = None ∧
    NodeDict.edges_of s2 NodeDict.adjacent_edges "A" !! "l" = None ∧
    NodeDict.nodes_of s2 NodeDict.predecessors "A" !! "A"
      = Some (mkNode "A") ∧
    NodeDict.edges_of s2 NodeDict.incoming "A" !! "l" = Some loop_edge ∧
    (∀ p, NodeDict.degree_of s2 p "A"
          = NodeDict.degree_of
              (NodeDict.add_edge loop_edge None NodeDict.init).1 p "A") ∧
    NodeDict.degree_of s2 NodeDict.outdegrees "A"
      = S (size (NodeDict.edges_of s2 NodeDict.outgoing "A")) ∧
    s2 ≠ (NodeDict.add_edge loop_edge None NodeDict.init).1.
Proof.
  apply (remove_self_loop_raises loop_edge None NodeDict.init).
  - reflexivity.
  - vm_compute. reflexivity.
Defined.

(** ** NodeDict: deleting a node *)

Section nodedict_delete.
Import NodeDict.
Import BaseDict(items, _related, _counter, set_items, set_related).
Implicit Types (s : NodeDict) (k key : string).

Lemma delete_node_attr key s p :
  node_attr (delete key s).1 p = base.delete key (node_attr s p).
Proof.
  unfold delete, mbind, M_bind, Py.bind, modify, lift_base. simpl.
  unfold BaseDict.del_related, BaseDict.del_item. simpl.
  destruct (_related (as_base s) !! key); simpl; [|done].
  by destruct (items (as_base s) !! key).
Qed.

(** C6, as the code has it: [delete] drops the entries kept under the key
    of the deleted node and nothing else, so the successors, predecessors
    and adjacent nodes of every other node read as before; a reference to
    the deleted node is gone from them afterwards exactly when it was not
    there before. *)
Theorem delete_keeps_other_nodes s key m p :
  m ≠ key →
  nodes_of (delete key s).1 p m = nodes_of s p m ∧
  (nodes_of (delete key s).1 p m !! key = None ↔
   nodes_of s p m !! key = None).
Proof.
  intros Hne.
  assert (nodes_of (delete key s).1 p m = nodes_of s p m) as Heq.
  { unfold nodes_of, dd_read. rewrite delete_node_attr.
    by rewrite lookup_delete_ne. }
  split; [done|]. by rewrite Heq.
Qed.

Lemma delete_completes s key :
  is_Some (_related (as_base s) !! key) →
  is_Some (items (as_base s) !! key) →
  (delete key s).2 = Ok tt.
Proof.
  intros [r Hr] [n Hn].
  unfold delete, mbind, M_bind, Py.bind, modify, lift_base. simpl.
  unfold BaseDict.del_related, BaseDict.del_item. simpl.
  rewrite Hr. simpl. by rewrite Hn.
Qed.

End nodedict_delete.

(** The index after [add_edge] of one edge from [A] to [B]. *)
Definition edge_AB : Edge := mkEdge "e" (mkNode "A") (mkNode "B") true.
Definition index_AB : NodeDict.NodeDict :=
  (NodeDict.add_edge edge_AB None NodeDict.init).1.

Lemma delete_keeps_other_nodes_witness :
  NodeDict.nodes_of (NodeDict.delete "A" index_AB).1 NodeDict.predecessors "B"
  = NodeDict.nodes_of index_AB NodeDict.predecessors "B" ∧
  (NodeDict.nodes_of (NodeDict.delete "A" index_AB).1
     NodeDict.predecessors "B" !! "A" = None ↔
   NodeDict.nodes_of index_AB NodeDict.predecessors "B" !! "A" = None).
Proof.
  apply (delete_keeps_other_nodes index_AB "A" "B" NodeDict.predecessors).
  discriminate.
Defined.

(** C6, the failing case of the claim as stated: node [A] is stored and
    [delete] completes, yet [A] is still a predecessor and an adjacent node
    of [B] afterwards. *)
Lemma delete_leaves_dangling_reference :
  BaseDict.items (NodeDict.as_base index_AB) !! "A" = Some (mkNode "A") ∧
  (NodeDict.delete "A" index_AB).2 = Ok tt ∧
  NodeDict.nodes_of (NodeDict.delete "A" index_AB).1
    NodeDict.predecessors "B" !! "A" = Some (mkNode "A") ∧
  NodeDict.nodes_of (NodeDict.delete "A" index_AB).1
    NodeDict.adjacent_nodes "B" !! "A" = Some (mkNode "A").
Proof. vm_compute. done. Qed.

(** ** NodeDict: an edge added and removed again *)

Section nodedict_round_trip.
Import NodeDict.
Import BaseDict(items, _related, _counter, set_items, set_related).
Implicit Types (s : NodeDict) (k uid : string) (r : RelatedObjects).

(** The loop body of [remove_edge] for an endpoint of an edge that is not a
    self-loop: [n] is the tail and [other] the head, or the reverse. *)
Definition one_side (e : Edge) (n other : Node) (np : NodeProp)
    (ep : EdgeProp) : Prop :=
  (n = edge_v e ∧ n ≠ edge_w e ∧ other = edge_w e ∧
   np = successors ∧ ep = outgoing) ∨
  (n = edge_w e ∧ n ≠ edge_v e ∧ other = edge_v e ∧
   np = predecessors ∧ ep = incoming).

Lemma remove_edge_node_spec e n other np ep s r :
  one_side e n other np ep →
  _related (as_base s) !! node_uid n = Some (RO r) →
  is_Some (edges r !! edge_uid e) →
  is_Some (nodes r !! node_uid other) →
  is_Some (nodes_of s np (node_uid n) !! node_uid other) →
  is_Some (nodes_of s adjacent_nodes (node_uid n) !! node_uid other) →
  is_Some (edges_of s ep (node_uid n) !! edge_uid e) →
  is_Some (edges_of s adjacent_edges (node_uid n) !! edge_uid e) →
  ∃ s', remove_edge_node e n s = (s', Ok tt) ∧
    _related (as_base s')
    = <[node_uid n :=
          RO {| nodes := base.delete (node_uid other) (nodes r);
                edges := base.delete (edge_uid e) (edges r);
                paths := paths r |}]> (_related (as_base s)) ∧
    items (as_base s') = items (as_base s) ∧
    _counter (as_base s') = _counter (as_base s) ∧
    (∀ p k, nodes_of s' p k
            = if decide (k = node_uid n ∧ writes_nodes np p)
              then base.delete (node_uid other) (nodes_of s p k)
              else nodes_of s p k) ∧
    (∀ p k, edges_of s' p k
            = if decide (k = node_uid n ∧ writes_edges ep p)
              then base.delete (edge_uid e) (edges_of s p k)
              else edges_of s p k) ∧
    (∀ p k, degree_of s' p k
            = if decide (k = node_uid n)
              then size (edges_of s' (edges_for p) k)
              else degree_of s p k).
Proof.
  intros Hside Hr [x Hx] Hn Hn1 Hn2 He1 He2. unfold remove_edge_node.
  erewrite bind_run; cycle 1.
  { eapply call_related_run; [exact Hr|].
    unfold Related.remove_edge, Related.dict_del. by rewrite Hx. }
  set (r1 := {| nodes := nodes r; edges := base.delete (edge_uid e) (edges r);
                paths := paths r |}).
  set (s1 := related_set _ _ s).
  assert (np ≠ adjacent_nodes ∧ ep ≠ adjacent_edges) as [Hnp Hep]
    by (destruct Hside as [(_&_&_&->&->)|(_&_&_&->&->)]; done).
  destruct (lose_attributes_spec e (node_uid n) other np ep s1 r1 Hnp Hep
              ltac:(apply lookup_insert_eq) Hn Hn1 Hn2 He1 He2)
    as (s2 & Hrun2 & Hb2 & Hn3 & He3 & Hd3).
  destruct (update_degrees_spec (node_uid n) s2)
    as (s3 & Hrun3 & Hb3 & Hn4 & He4 & Hd4).
  exists s3. split.
  { destruct Hside as [(->&Hne&->&->&->)|(->&Hne&->&->&->)].
    - destruct (decide (edge_v e = edge_v e)); [|done].
      destruct (decide (edge_v e = edge_w e)); [done|].
      erewrite bind_run by exact Hrun2. erewrite bind_run by reflexivity.
      exact Hrun3.
    - destruct (decide (edge_w e = edge_w e)); [|done].
      destruct (decide (edge_w e = edge_v e)); [done|].
      erewrite bind_run by reflexivity. erewrite bind_run by exact Hrun2.
      exact Hrun3. }
  rewrite Hb3, Hb2. simpl. split_and!; try done.
  - by rewrite insert_insert_eq.
  - intros p k. unfold nodes_of at 1. rewrite Hn4. apply Hn3.
  - intros p k. rewrite He4. apply He3.
  - intros p k. rewrite Hd4. destruct (decide (k = node_uid n)) as [->|Hk].
    + by rewrite He4.
    + unfold degree_of. by rewrite Hd3.
Qed.


Lemma related_after_add_tail e r :
  edge_v e ≠ edge_w e →
  related_after_add e None (edge_v e) r
  = Related.add_node (edge_w e) (Related.add_edge e r).
Proof.
  intros Hne. unfold related_after_add.
  destruct (decide (edge_v e = edge_v e)); [|done].
  by destruct (decide (edge_v e = edge_w e)).
Qed.

Lemma related_after_add_head e r :
  edge_v e ≠ edge_w e →
  related_after_add e None (edge_w e) r
  = Related.add_node (edge_v e) (Related.add_edge e r).
Proof.
  intros Hne. unfold related_after_add.
  destruct (decide (edge_w e = edge_w e)); [|done].
  by destruct (decide (edge_w e = edge_v e)).
Qed.

Lemma nodes_after_add_tail e p (m : gmap string Node) :
  edge_v e ≠ edge_w e →
  nodes_after_add e (edge_v e) p m
  = if decide (writes_nodes successors p)
    then <[node_uid (edge_w e) := edge_w e]> m else m.
Proof.
  intros Hne. unfold nodes_after_add.
  repeat case_decide; try done; exfalso; intuition congruence.
Qed.

Lemma nodes_after_add_head e p (m : gmap string Node) :
  edge_v e ≠ edge_w e →
  nodes_after_add e (edge_w e) p m
  = if decide (writes_nodes predecessors p)
    then <[node_uid (edge_v e) := edge_v e]> m else m.
Proof.
  intros Hne. unfold nodes_after_add.
  repeat case_decide; try done; exfalso; intuition congruence.
Qed.

Lemma edges_after_add_tail e p (m : gmap string Edge) :
  edge_v e ≠ edge_w e →
  edges_after_add e (edge_v e) p m
  = if decide (writes_edges outgoing p) then <[edge_uid e := e]> m else m.
Proof.
  intros Hne. unfold edges_after_add.
  repeat case_decide; try done; exfalso; intuition congruence.
Qed.

Lemma edges_after_add_head e p (m : gmap string Edge) :
  edge_v e ≠ edge_w e →
  edges_after_add e (edge_w e) p m
  = if decide (writes_edges incoming p) then <[edge_uid e := e]> m else m.
Proof.
  intros Hne. unfold edges_after_add.
  repeat case_decide; try done; exfalso; intuition congruence.
Qed.

(** The edge is not registered for the node with identifier [k]. *)
Definition edge_unknown_at s (e : Edge) k : Prop :=
  (∀ r, _related (as_base s) !! k = Some (RO r) →
        edges r !! edge_uid e = None) ∧
  ∀ p, edges_of s p k !! edge_uid e = None.

(** The node with identifier [k'] is not yet a neighbour of the node with
    identifier [k]. *)
Definition not_adjacent_at s k k' : Prop :=
  (∀ r, _related (as_base s) !! k = Some (RO r) → nodes r !! k' = None) ∧
  ∀ p, nodes_of s p k !! k' = None.

Lemma record_of_edges s k r0 e :
  record_of s k r0 → edge_unknown_at s e k → edges r0 !! edge_uid e = None.
Proof. intros [Hr|[_ ->]] [H _]; [by eapply H | done]. Qed.

Lemma record_of_nodes s k k' r0 :
  record_of s k r0 → not_adjacent_at s k k' → nodes r0 !! k' = None.
Proof. intros [Hr|[_ ->]] [H _]; [by eapply H | done]. Qed.

(** C2, as the code has it: when the endpoints are distinct, the edge is not
    registered for either of them, they are not yet neighbours of each other
    and their cached degrees are right, [add_edge] followed by [remove_edge]
    completes and every table reads as before for every node, and the
    RelatedObjects records of the endpoints hold what they held ([ra] and
    [rb] are the empty record for an endpoint that had none). *)
Theorem add_then_remove_restores (e : Edge) s ra rb :
  node_uid (edge_v e) ≠ node_uid (edge_w e) →
  record_of s (node_uid (edge_v e)) ra →
  record_of s (node_uid (edge_w e)) rb →
  edge_unknown_at s e (node_uid (edge_v e)) →
  edge_unknown_at s e (node_uid (edge_w e)) →
  not_adjacent_at s (node_uid (edge_v e)) (node_uid (edge_w e)) →
  not_adjacent_at s (node_uid (edge_w e)) (node_uid (edge_v e)) →
  degrees_agree s (node_uid (edge_v e)) →
  degrees_agree s (node_uid (edge_w e)) →
  ∃ s1 s2,
    add_edge e None s = (s1, Ok tt) ∧
    remove_edge e s1 = (s2, Ok tt) ∧
    (∀ p k, nodes_of s2 p k = nodes_of s p k) ∧
    (∀ p k, edges_of s2 p k = edges_of s p k) ∧
    (∀ p k, degree_of s2 p k = degree_of s p k) ∧
    _related (as_base s2) !! node_uid (edge_v e) = Some (RO ra) ∧
    _related (as_base s2) !! node_uid (edge_w e) = Some (RO rb).
Proof.
  intros Hab Hra Hrb Hea Heb Hna Hnb Hda Hdb.
  assert (edge_v e ≠ edge_w e) as Hvw by congruence.
  pose proof (record_of_edges _ _ _ _ Hra Hea) as Hrae.
  pose proof (record_of_edges _ _ _ _ Hrb Heb) as Hrbe.
  pose proof (record_of_nodes _ _ _ _ Hra Hna) as Hran.
  pose proof (record_of_nodes _ _ _ _ Hrb Hnb) as Hrbn.
  destruct Hea as [_ Hea], Heb as [_ Heb], Hna as [_ Hna], Hnb as [_ Hnb].
  set (a := node_uid (edge_v e)) in *. set (b := node_uid (edge_w e)) in *.
  (* add, tail *)
  destruct (add_edge_node_spec e None (edge_v e) s ra Hra)
    as (sa & Hrun_a & Hrel_a & _ & _ & Hn_a & He_a & Hd_a).
  fold a in Hrel_a, Hn_a, He_a, Hd_a.
  rewrite related_after_add_tail in Hrel_a by done.
  (* add, head *)
  assert (record_of sa b rb) as Hrb'.
  { unfold record_of. rewrite Hrel_a, lookup_insert_ne by done. exact Hrb. }
  destruct (add_edge_node_spec e None (edge_w e) sa rb Hrb')
    as (s1 & Hrun_1 & Hrel_1 & _ & _ & Hn_1 & He_1 & Hd_1).
  fold b in Hrel_1, Hn_1, He_1, Hd_1.
  rewrite related_after_add_head in Hrel_1 by done.
  (* what is read after the two of them *)
  assert (∀ p k, nodes_of s1 p k
            = if decide (k = b)
              then (if decide (writes_nodes predecessors p)
                    then <[a := edge_v e]> (nodes_of s p k)
                    else nodes_of s p k)
              else if decide (k = a)
              then (if decide (writes_nodes successors p)
                    then <[b := edge_w e]> (nodes_of s p k)
                    else nodes_of s p k)
              else nodes_of s p k) as Hn1.
  { intros p k. rewrite Hn_1, Hn_a.
    rewrite nodes_after_add_head, nodes_after_add_tail by done.
    destruct (decide (k = b)) as [->|?]; [|done].
    by rewrite (decide_False (P := b = a)) by done. }
  assert (∀ p k, edges_of s1 p k
            = if decide (k = b)
              then (if decide (writes_edges incoming p)
                    then <[edge_uid e := e]> (edges_of s p k)
                    else edges_of s p k)
              else if decide (k = a)
              then (if decide (writes_edges outgoing p)
                    then <[edge_uid e := e]> (edges_of s p k)
                    else edges_of s p k)
              else edges_of s p k) as He1.
  { intros p k. rewrite He_1, He_a.
    rewrite edges_after_add_head, edges_after_add_tail by done.
    destruct (decide (k = b)) as [->|?]; [|done].
    by rewrite (decide_False (P := b = a)) by done. }
  (* remove, tail *)
  set (r1a := Related.add_node (edge_w e) (Related.add_edge e ra)) in *.
  set (r1b := Related.add_node (edge_v e) (Related.add_edge e rb)) in *.
  assert (_related (as_base s1) !! a = Some (RO r1a)) as Hlook_a.
  { rewrite Hrel_1, lookup_insert_ne by done.
    rewrite Hrel_a. apply lookup_insert_eq. }
  assert (∀ p, writes_nodes successors p →
               is_Some (nodes_of s1 p a !! b)) as Hsome_n.
  { intros p Hp. rewrite Hn1.
    rewrite (decide_False (P := a = b)) by done.
    rewrite (decide_True (P := a = a)) by done.
    rewrite decide_True by done. rewrite lookup_insert_eq. by eexists. }
  assert (∀ p, writes_edges outgoing p →
               is_Some (edges_of s1 p a !! edge_uid e)) as Hsome_e.
  { intros p Hp. rewrite He1.
    rewrite (decide_False (P := a = b)) by done.
    rewrite (decide_True (P := a = a)) by done.
    rewrite decide_True by done. rewrite lookup_insert_eq. by eexists. }
  destruct (remove_edge_node_spec e (edge_v e) (edge_w e) successors outgoing
              s1 r1a)
    as (sc & Hrun_c & Hrel_c & _ & _ & Hn_c & He_c & Hd_c).
  { left. by split_and!. }
  { exact Hlook_a. }
  { exists e. apply lookup_insert_eq. }
  { exists (edge_w e). apply lookup_insert_eq. }
  { apply Hsome_n. by left. }
  { apply Hsome_n. by right. }
  { apply Hsome_e. by left. }
  { apply Hsome_e. by right. }
  fold a b in Hrel_c, Hn_c, He_c, Hd_c.
  (* remove, head *)
  assert (_related (as_base sc) !! b = Some (RO r1b)) as Hlook_b.
  { rewrite Hrel_c, lookup_insert_ne by done.
    rewrite Hrel_1. apply lookup_insert_eq. }
  assert (∀ p, writes_nodes predecessors p →
               is_Some (nodes_of sc p b !! a)) as Hsome_n'.
  { intros p Hp. rewrite Hn_c.
    rewrite decide_False by (intros [? _]; done). rewrite Hn1.
    rewrite (decide_True (P := b = b)) by done.
    rewrite decide_True by done. rewrite lookup_insert_eq. by eexists. }
  assert (∀ p, writes_edges incoming p →
               is_Some (edges_of sc p b !! edge_uid e)) as Hsome_e'.
  { intros p Hp. rewrite He_c.
    rewrite decide_False by (intros [? _]; done). rewrite He1.
    rewrite (decide_True (P := b = b)) by done.
    rewrite decide_True by done. rewrite lookup_insert_eq. by eexists. }
  destruct (remove_edge_node_spec e (edge_w e) (edge_v e) predecessors
              incoming sc r1b)
    as (s2 & Hrun_2 & Hrel_2 & _ & _ & Hn_2 & He_2 & Hd_2).
  { right. by split_and!. }
  { exact Hlook_b. }
  { exists e. apply lookup_insert_eq. }
  { exists (edge_v e). apply lookup_insert_eq. }
  { apply Hsome_n'. by left. }
  { apply Hsome_n'. by right. }
  { apply Hsome_e'. by left. }
  { apply Hsome_e'. by right. }
  fold a b in Hrel_2, Hn_2, He_2, Hd_2.
  (* the tables read as at the start *)
  assert (∀ p k, nodes_of s2 p k = nodes_of s p k) as Hnodes.
  { intros p k. rewrite Hn_2, Hn_c, Hn1.
    repeat case_decide; subst; try done; try (exfalso; intuition congruence);
      rewrite delete_insert_eq, delete_id; done. }
  assert (∀ p k, edges_of s2 p k = edges_of s p k) as Hedges.
  { intros p k. rewrite He_2, He_c, He1.
    repeat case_decide; subst; try done; try (exfalso; intuition congruence);
      rewrite delete_insert_eq, delete_id; done. }
  assert (∀ p, edges_of sc p a = edges_of s p a) as Hedges_a.
  { intros p. rewrite <- Hedges, He_2.
    by rewrite decide_False by (intros [? _]; done). }
  exists s1, s2. split_and!.
  - unfold add_edge, edge_nodes. fold a b.
    destruct (decide (a = b)); [done|]. simpl.
    unfold Py.bind. by rewrite Hrun_a, Hrun_1.
  - unfold remove_edge, edge_nodes. fold a b.
    destruct (decide (a = b)); [done|]. simpl.
    unfold Py.bind. by rewrite Hrun_c, Hrun_2.
  - exact Hnodes.
  - exact Hedges.
  - intros p k. rewrite Hd_2. destruct (decide (k = b)) as [->|Hkb].
    { rewrite Hedges. symmetry. apply Hdb. }
    rewrite Hd_c. destruct (decide (k = a)) as [->|Hka].
    { rewrite Hedges_a. symmetry. apply Hda. }
    rewrite Hd_1, decide_False by done. by rewrite Hd_a, decide_False.
  - rewrite Hrel_2, lookup_insert_ne by done.
    rewrite Hrel_c, lookup_insert_eq. do 2 f_equal.
    destruct ra as [ns es ps]. simpl in *. f_equal.
    + by rewrite delete_insert_eq, delete_id.
    + by rewrite delete_insert_eq, delete_id.
  - rewrite Hrel_2, lookup_insert_eq. do 2 f_equal.
    destruct rb as [ns es ps]. simpl in *. f_equal.
    + by rewrite delete_insert_eq, delete_id.
    + by rewrite delete_insert_eq, delete_id.
Qed.

End nodedict_round_trip.

(** The concrete case of the theorem: on the index that holds the edge from
    [A] to [B], an edge from [B] to a new node [C] is added and removed. *)
Definition edge_BC : Edge := mkEdge "g" (mkNode "B") (mkNode "C") true.
Definition record_B : RelatedObjects :=
  Related.add_node (mkNode "A") (Related.add_edge edge_AB Related.init).

Lemma add_then_remove_restores_witness :
  ∃ s1 s2,
    NodeDict.add_edge edge_BC None index_AB = (s1, Ok tt) ∧
    NodeDict.remove_edge edge_BC s1 = (s2, Ok tt) ∧
    (∀ p k, NodeDict.nodes_of s2 p k = NodeDict.nodes_of index_AB p k) ∧
    (∀ p k, NodeDict.edges_of s2 p k = NodeDict.edges_of index_AB p k) ∧
    (∀ p k, NodeDict.degree_of s2 p k = NodeDict.degree_of index_AB p k) ∧
    BaseDict._related (NodeDict.as_base s2) !! "B" = Some (RO record_B) ∧
    BaseDict._related (NodeDict.as_base s2) !! "C" = Some (RO Related.init).
Proof.
  apply (add_then_remove_restores edge_BC index_AB record_B Related.init).
  - discriminate.
  - left. vm_compute. reflexivity.
  - right. split; [vm_compute; reflexivity | reflexivity].
  - split.
    + intros r. vm_compute. intros [= <-]. reflexivity.
    + intros []; vm_compute; reflexivity.
  - split.
    + intros r. vm_compute. discriminate.
    + intros []; vm_compute; reflexivity.
  - split.
    + intros r. vm_compute. intros [= <-]. reflexivity.
    + intros []; vm_compute; reflexivity.
  - split.
    + intros r. vm_compute. discriminate.
    + intros []; vm_compute; reflexivity.
  - intros []; vm_compute; reflexivity.
  - intros []; vm_compute; reflexivity.
Defined.

(** C2, the failing case of the claim as stated: the index holds an edge
    from [A] to [B]; a second, parallel edge, not registered before, is
    added and removed again.  Both calls complete, but [B] is no longer a
    successor of [A], although the first edge is still there. *)
Definition edge_AB_parallel : Edge :=
  mkEdge "f" (mkNode "A") (mkNode "B") true.

Lemma round_trip_drops_parallel_edge_neighbour :
  edge_unknown_at index_AB edge_AB_parallel "A" ∧
  edge_unknown_at index_AB edge_AB_parallel "B" ∧
  (NodeDict.add_edge edge_AB_parallel None index_AB).2 = Ok tt ∧
  (NodeDict.remove_edge edge_AB_parallel
     (NodeDict.add_edge edge_AB_parallel None index_AB).1).2 = Ok tt ∧
  NodeDict.nodes_of index_AB NodeDict.successors "A" !! "B"
    = Some (mkNode "B") ∧
  NodeDict.nodes_of
    (NodeDict.remove_edge edge_AB_parallel
       (NodeDict.add_edge edge_AB_parallel None index_AB).1).1
    NodeDict.successors "A" !! "B" = None ∧
  NodeDict.edges_of
    (NodeDict.remove_edge edge_AB_parallel
       (NodeDict.add_edge edge_AB_parallel None index_AB).1).1
    NodeDict.outgoing "A" !! "e" = Some edge_AB.
Proof.
  split_and!; try (vm_compute; reflexivity).
  - split.
    + intros r. vm_compute. intros [= <-]. reflexivity.
    + intros []; vm_compute; reflexivity.
  - split.
    + intros r. vm_compute. intros [= <-]. reflexivity.
    + intros []; vm_compute; reflexivity.
Qed.

(** A run of three calls that all complete. *)
Example trace_of_three_calls :
  length (NodeDict.trace
            [NodeDict.AddEdge edge_AB None; NodeDict.AddEdge edge_BC None;
             NodeDict.RemoveEdge edge_AB] NodeDict.init) = 3.
Proof. vm_compute. reflexivity. Qed.

(** ** Times: the order *)

Ltac time_cases :=
  intros; unfold tmin, tmax, tle, tlt in *;
  repeat match goal with x : Time |- _ => destruct x end;
  repeat case_decide; simpl in *; try done; try lia; try (f_equal; lia);
  try tauto.

Section time_order.
Implicit Types (a b c : Time).

Lemma tle_refl a : tle a a.
Proof. time_cases. Qed.
Lemma tle_trans a b c : tle a b → tle b c → tle a c.
Proof. time_cases. Qed.
Lemma tle_total a b : tle a b ∨ tle b a.
Proof. time_cases. Qed.
Lemma tle_antisym a b : tle a b → tle b a → a = b.
Proof. time_cases. Qed.
Lemma tlt_tle a b : tlt a b → tle a b.
Proof. time_cases. Qed.
Lemma tlt_irrefl a : ¬ tlt a a.
Proof. time_cases. Qed.
Lemma tlt_not_tle a b : tlt a b ↔ ¬ tle b a.
Proof. time_cases. Qed.
Lemma tle_not_tlt a b : tle a b ↔ ¬ tlt b a.
Proof. time_cases. Qed.
Lemma tlt_tle_trans a b c : tlt a b → tle b c → tlt a c.
Proof. time_cases. Qed.
Lemma tle_tlt_trans a b c : tle a b → tlt b c → tlt a c.
Proof. time_cases. Qed.
Lemma tlt_trans a b c : tlt a b → tlt b c → tlt a c.
Proof. time_cases. Qed.
Lemma tle_eq_or_tlt a b : tle a b → a = b ∨ tlt a b.
Proof.
  destruct a as [|x|], b as [|y|]; simpl; try tauto; try (right; exact I).
  intros Hxy. destruct (decide (x = y)) as [->|Hne]; [by left | right; lia].
Qed.
Lemma tmin_le_l a b : tle (tmin a b) a.
Proof. time_cases. Qed.
Lemma tmin_le_r a b : tle (tmin a b) b.
Proof. time_cases. Qed.
Lemma tmin_cases a b : tmin a b = a ∨ tmin a b = b.
Proof. time_cases; auto. Qed.
Lemma tmax_ge_l a b : tle a (tmax a b).
Proof. time_cases. Qed.
Lemma tmax_ge_r a b : tle b (tmax a b).
Proof. time_cases. Qed.
Lemma tmax_cases a b : tmax a b = a ∨ tmax a b = b.
Proof. time_cases; auto. Qed.
Lemma tle_NegInf a : tle a NegInf → a = NegInf.
Proof. time_cases. Qed.
Lemma tle_PosInf a : tle PosInf a → a = PosInf.
Proof. time_cases. Qed.
Lemma tlt_NegInf a : tlt NegInf a ↔ a ≠ NegInf.
Proof. time_cases. Qed.
Lemma tlt_PosInf a : tlt a PosInf ↔ a ≠ PosInf.
Proof. time_cases. Qed.
Lemma tmin_Fin x y : tmin (Fin x) (Fin y) = Fin (Z.min x y).
Proof. time_cases. Qed.
Lemma tmax_Fin x y : tmax (Fin x) (Fin y) = Fin (Z.max x y).
Proof. time_cases. Qed.
Lemma tle_Fin x y : tle (Fin x) (Fin y) ↔ (x ≤ y)%Z.
Proof. done. Qed.

Lemma foldr_tmin_le x xs y : y ∈ x :: xs → tle (foldr tmin x xs) y.
Proof.
  revert y. induction xs as [|z xs IH]; intros y Hy; simpl.
  - apply list_elem_of_singleton in Hy as ->. apply tle_refl.
  - apply elem_of_cons in Hy as [->|Hy].
    + eapply tle_trans; [apply tmin_le_r|]. apply IH. by left.
    + apply elem_of_cons in Hy as [->|Hy].
      * apply tmin_le_l.
      * eapply tle_trans; [apply tmin_le_r|]. apply IH. by right.
Qed.

Lemma foldr_tmax_ge x xs y : y ∈ x :: xs → tle y (foldr tmax x xs).
Proof.
  revert y. induction xs as [|z xs IH]; intros y Hy; simpl.
  - apply list_elem_of_singleton in Hy as ->. apply tle_refl.
  - apply elem_of_cons in Hy as [->|Hy].
    + eapply tle_trans; [|apply tmax_ge_r]. apply IH. by left.
    + apply elem_of_cons in Hy as [->|Hy].
      * apply tmax_ge_l.
      * eapply tle_trans; [|apply tmax_ge_r]. apply IH. by right.
Qed.

End time_order.

(** ** The interval tree: chopping and removing *)

Section interval_tree.
Import IntervalTree.
Implicit Types (t : gset Interval) (iv : Interval) (p b e : Time).

(** No interval of the tree is null: [addi] refuses them. *)
Definition well_formed t : Prop := ∀ iv, iv ∈ t → tlt (iv_begin iv) (iv_end iv).

(** The point lies in the interior of the interval. *)
Definition straddles p iv : Prop := tlt (iv_begin iv) p ∧ tlt p (iv_end iv).

Lemma elem_of_slice p t iv :
  iv ∈ slice p t ↔
  (iv ∈ t ∧ ¬ straddles p iv) ∨
  (∃ iv0, iv0 ∈ t ∧ straddles p iv0 ∧
          (iv = (iv_begin iv0, p, iv_data iv0) ∨
           iv = (p, iv_end iv0, iv_data iv0))).
Proof.
  unfold slice, at_point, straddles.
  rewrite elem_of_union, elem_of_difference, elem_of_set_bind.
  setoid_rewrite elem_of_filter. setoid_rewrite elem_of_filter.
  setoid_rewrite elem_of_union. setoid_rewrite elem_of_singleton.
  split.
  - intros [[Hin Hnot]|(iv0 & (Hlt & (Hle & Hlt') & Hin0) & Hiv)].
    + left. split; [done|]. intros [H1 H2]. apply Hnot.
      split_and!; try done. by apply tlt_tle.
    + right. exists iv0. by split_and!.
  - intros [[Hin Hnot]|(iv0 & Hin0 & [H1 H2] & Hiv)].
    + left. split; [done|]. intros (H1 & (_ & H2) & _). by apply Hnot.
    + right. exists iv0. split; [|done]. split_and!; try done.
      by apply tlt_tle.
Qed.

Lemma slice_well_formed p t : well_formed t → well_formed (slice p t).
Proof.
  intros Hwf iv Hiv. apply elem_of_slice in Hiv
    as [[Hin _]|(iv0 & Hin0 & [H1 H2] & [->| ->])]; [by apply Hwf|done..].
Qed.

Lemma slice_no_straddle p t iv : iv ∈ slice p t → ¬ straddles p iv.
Proof.
  intros Hiv. apply elem_of_slice in Hiv
    as [[_ Hnot]|(iv0 & _ & _ & [->| ->])]; [done|..];
    unfold straddles, iv_begin, iv_end; simpl; intros [H1 H2];
    by eapply tlt_irrefl.
Qed.

Lemma slice_keeps_no_straddle q p t :
  (∀ iv, iv ∈ t → ¬ straddles q iv) →
  ∀ iv, iv ∈ slice p t → ¬ straddles q iv.
Proof.
  intros Ht iv Hiv. apply elem_of_slice in Hiv
    as [[Hin _]|(iv0 & Hin0 & [H1 H2] & [->| ->])]; [by apply Ht|..];
    unfold straddles, iv_begin, iv_end; simpl; intros [H3 H4];
    apply (Ht iv0 Hin0); split; try done.
  - by eapply tlt_trans.
  - by eapply tlt_trans.
Qed.

Lemma slice_begin_bound lo p t :
  (∀ iv, iv ∈ t → tle lo (iv_begin iv)) →
  ∀ iv, iv ∈ slice p t → tle lo (iv_begin iv).
Proof.
  intros Ht iv Hiv. apply elem_of_slice in Hiv
    as [[Hin _]|(iv0 & Hin0 & [H1 H2] & [->| ->])]; [by apply Ht|..];
    unfold iv_begin; simpl.
  - by apply Ht.
  - eapply tle_trans; [by apply Ht|]. by apply tlt_tle.
Qed.

Lemma slice_end_bound hi p t :
  (∀ iv, iv ∈ t → tle (iv_end iv) hi) →
  ∀ iv, iv ∈ slice p t → tle (iv_end iv) hi.
Proof.
  intros Ht iv Hiv. apply elem_of_slice in Hiv
    as [[Hin _]|(iv0 & Hin0 & [H1 H2] & [->| ->])]; [by apply Ht|..];
    unfold iv_end; simpl.
  - eapply tle_trans; [|by apply (Ht iv0)]. by apply tlt_tle.
  - by apply Ht.
Qed.

Lemma elem_of_boundaries t x :
  x ∈ boundaries t ↔ ∃ iv, iv ∈ t ∧ (iv_begin iv = x ∨ iv_end iv = x).
Proof.
  unfold boundaries. rewrite elem_of_app, !list_elem_of_fmap.
  setoid_rewrite elem_of_elements. split.
  - intros [(iv & -> & Hin)|(iv & -> & Hin)]; exists iv; auto.
  - intros (iv & Hin & [<-|<-]); [left|right]; by exists iv.
Qed.

Lemma tree_begin_le t iv : iv ∈ t → tle (begin t) (iv_begin iv).
Proof.
  intros Hin. unfold begin.
  assert (iv_begin iv ∈ boundaries t) as Hb
    by (apply elem_of_boundaries; eauto).
  destruct (boundaries t) as [|x xs]; [by apply elem_of_nil in Hb|].
  by apply foldr_tmin_le.
Qed.

Lemma tree_end_ge t iv : iv ∈ t → tle (iv_end iv) (end_ t).
Proof.
  intros Hin. unfold end_.
  assert (iv_end iv ∈ boundaries t) as Hb
    by (apply elem_of_boundaries; eauto).
  destruct (boundaries t) as [|x xs]; [by apply elem_of_nil in Hb|].
  by apply foldr_tmax_ge.
Qed.

Lemma elem_of_remove_envelop b e t iv :
  iv ∈ remove_envelop b e t ↔
  iv ∈ t ∧ ¬ (tlt b e ∧ tle b (iv_begin iv) ∧ tle (iv_end iv) e).
Proof.
  unfold remove_envelop, envelop. rewrite elem_of_difference.
  destruct (decide (t = ∅)) as [->|Hne].
  { split; [intros [H _]|intros [H _]]; by apply not_elem_of_empty in H. }
  destruct (decide (tle e b)) as [Hle|Hle].
  - split; intros [Hin _]; (split; [done|]).
    + intros [Hlt _]. by apply tlt_not_tle in Hlt.
    + apply not_elem_of_empty.
  - rewrite elem_of_filter. apply tlt_not_tle in Hle. tauto.
Qed.

End interval_tree.

(** ** TemporalEdgeCollection: slices *)

Section temporal_slice.
Import IntervalTree.
Import TemporalEdgeCollection(TemporalEdgeCollection, _map, _intervals,
  _interval_map, store_interval, add, _new_from_intervals, slice_tree).
Implicit Types (c : TemporalEdgeCollection) (iv : Interval) (b e : Time).

Lemma slice_tree_within b e c iv :
  well_formed (_intervals c) → iv ∈ slice_tree b e c →
  tle b (iv_begin iv) ∧ tle (iv_end iv) e.
Proof.
  intros Hwf Hiv. unfold slice_tree in Hiv.
  apply elem_of_remove_envelop in Hiv as [Hiv Hout_e].
  apply elem_of_remove_envelop in Hiv as [Hiv Hout_b].
  set (t := _intervals c) in *.
  assert (tlt (iv_begin iv) (iv_end iv)) as Hlt.
  { apply (slice_well_formed b), (slice_well_formed e) in Hwf.
    by apply Hwf. }
  assert (¬ straddles e iv) as Hne by by eapply slice_no_straddle.
  assert (¬ straddles b iv) as Hnb.
  { clear Hout_e Hout_b Hlt Hne. revert iv Hiv. apply slice_keeps_no_straddle.
    intros iv. apply slice_no_straddle. }
  assert (tle (begin t) (iv_begin iv)) as Hlo.
  { clear Hout_e Hout_b Hlt Hne Hnb. revert iv Hiv.
    do 2 apply slice_begin_bound. intros iv. apply tree_begin_le. }
  assert (tle (iv_end iv) (end_ t)) as Hhi.
  { clear Hout_e Hout_b Hlt Hne Hnb Hlo. revert iv Hiv.
    do 2 apply slice_end_bound. intros iv. apply tree_end_ge. }
  unfold straddles in *. split.
  - apply tle_not_tlt. intros Hb. apply Hout_b.
    assert (tle (iv_end iv) b) as Hend
      by (apply tle_not_tlt; intros Hx; by apply Hnb).
    split_and!; [|done..]. by eapply tle_tlt_trans.
  - apply tle_not_tlt. intros He. apply Hout_e.
    assert (tle e (iv_begin iv)) as Hbeg
      by (apply tle_not_tlt; intros Hx; by apply Hne).
    split_and!; [|done..]. by eapply tlt_tle_trans.
Qed.

Lemma slice_tree_well_formed b e c :
  well_formed (_intervals c) → well_formed (slice_tree b e c).
Proof.
  intros Hwf iv Hiv. unfold slice_tree in Hiv.
  apply elem_of_remove_envelop in Hiv as [Hiv _].
  apply elem_of_remove_envelop in Hiv as [Hiv _].
  apply (slice_well_formed b), (slice_well_formed e) in Hwf. by apply Hwf.
Qed.

Lemma add_run edge b e c :
  tlt b e →
  ∃ c', add edge b e c = Ok c' ∧
        _intervals c' = {[ (b, e, edge) ]} ∪ _intervals c ∧
        _map c' = <[edge_uid edge := edge]> (_map c).
Proof.
  intros Hlt. unfold add, store_interval, addi.
  rewrite decide_False by by apply tlt_not_tle.
  eexists. by split_and!.
Qed.

Lemma new_from_list (l : list Interval) c :
  (∀ iv, iv ∈ l → tlt (iv_begin iv) (iv_end iv)) →
  ∃ c', foldl (λ acc iv,
                 new ← acc; add (iv_data iv) (iv_begin iv) (iv_end iv) new)
              (Ok c) l = Ok c' ∧
        _intervals c' = list_to_set l ∪ _intervals c ∧
        (∀ k, is_Some (_map c' !! k) ↔
              (∃ iv, iv ∈ l ∧ edge_uid (iv_data iv) = k) ∨
              is_Some (_map c !! k)).
Proof.
  revert c. induction l as [|iv l IH]; intros c Hl; simpl.
  - exists c. split_and!; [done|by rewrite (left_id_L ∅ (∪))|].
    intros k. split; [auto|]. intros [(iv & Hin & _)|H]; [|done].
    by apply elem_of_nil in Hin.
  - destruct (add_run (iv_data iv) (iv_begin iv) (iv_end iv) c)
      as (c1 & Hrun & Hint & Hmap); [apply Hl; by left|].
    unfold mbind at 1, result_bind, rbind. rewrite Hrun.
    destruct (IH c1) as (c' & Hfold & Hint' & Hmap').
    { intros iv' Hin. apply Hl. by right. }
    exists c'. split; [done|]. split.
    + rewrite Hint', Hint. destruct iv as [[x y] d].
      unfold iv_begin, iv_end, iv_data. simpl.
      by rewrite (assoc_L (∪)), (comm_L (∪) (list_to_set l)).
    + intros k. rewrite Hmap', Hmap. split.
      * intros [(iv' & Hin & Hk)|Hk].
        { left. exists iv'. split; [by right | done]. }
        destruct (decide (edge_uid (iv_data iv) = k)) as [<-|Hne].
        { left. exists iv. split; [by left | done]. }
        right. by rewrite lookup_insert_ne in Hk.
      * intros [(iv' & Hin & Hk)|Hk].
        { apply elem_of_cons in Hin as [->|Hin].
          - right. subst k. rewrite lookup_insert_eq. by eexists.
          - left. by exists iv'. }
        right. destruct (decide (edge_uid (iv_data iv) = k)) as [<-|Hne].
        { rewrite lookup_insert_eq. by eexists. }
        by rewrite lookup_insert_ne.
Qed.

Lemma new_from_intervals_run (t : gset Interval) :
  well_formed t →
  ∃ c', _new_from_intervals t = Ok c' ∧ _intervals c' = t ∧
        (∀ k, is_Some (_map c' !! k) ↔
              ∃ iv, iv ∈ t ∧ edge_uid (iv_data iv) = k).
Proof.
  intros Hwf. unfold _new_from_intervals.
  destruct (new_from_list (elements t) TemporalEdgeCollection.init)
    as (c' & Hrun & Hint & Hmap).
  { intros iv Hin. apply Hwf. by apply elem_of_elements. }
  exists c'. split; [done|]. split.
  - rewrite Hint. simpl. rewrite list_to_set_elements_L.
    by rewrite (right_id_L ∅ (∪)).
  - intros k. rewrite Hmap. simpl. setoid_rewrite elem_of_elements.
    rewrite lookup_empty. split; [|auto].
    intros [H|H]; [done|]. by destruct H.
Qed.

End temporal_slice.

(** Three edges with the intervals [0,5), [3,8) and [10,12). *)
Definition edge_1 : Edge := mkEdge "e1" (mkNode "a") (mkNode "b") true.
Definition edge_2 : Edge := mkEdge "e2" (mkNode "b") (mkNode "c") true.
Definition edge_3 : Edge := mkEdge "e3" (mkNode "c") (mkNode "d") true.

Definition three_edges
  : result TemporalEdgeCollection.TemporalEdgeCollection :=
  c ← TemporalEdgeCollection.add edge_1 (Fin 0) (Fin 5)
        TemporalEdgeCollection.init;
  c ← TemporalEdgeCollection.add edge_2 (Fin 3) (Fin 8) c;
  TemporalEdgeCollection.add edge_3 (Fin 10) (Fin 12) c.

Section temporal_slice_claim.
Import IntervalTree.
Import TemporalEdgeCollection(TemporalEdgeCollection, _map, _intervals,
  _interval_map, slice_tree).

Lemma three_edges_sliced :
  (c ← three_edges;
   c' ← TemporalEdgeCollection.slice (Fin 4) (Fin 6) c;
   Ok (elements (_intervals c'), map_to_list (_map c')))
  = Ok ([(Fin 4, Fin 6, edge_2); (Fin 4, Fin 5, edge_1)],
        [("e1", edge_1); ("e2", edge_2)]).
Proof. vm_compute. reflexivity. Qed.

(** C4: the slice from 4 to 6 of the three edges is a new collection with
    exactly the first edge, on [4,5), and the second edge, on [4,6); and
    every interval of every slice of a collection without null intervals
    lies within the window of the slice. *)
Theorem slice_within_window :
  (∃ c c',
     three_edges = Ok c ∧
     TemporalEdgeCollection.slice (Fin 4) (Fin 6) c = Ok c' ∧
     (∀ iv, iv ∈ _intervals c' ↔
            iv = (Fin 4, Fin 5, edge_1) ∨ iv = (Fin 4, Fin 6, edge_2)) ∧
     (∀ k x, _map c' !! k = Some x ↔
             (k = "e1" ∧ x = edge_1) ∨ (k = "e2" ∧ x = edge_2))) ∧
  (∀ c b e,
     well_formed (_intervals c) →
     ∃ c', TemporalEdgeCollection.slice b e c = Ok c' ∧
           _intervals c' = slice_tree b e c ∧
           ∀ iv, iv ∈ _intervals c' →
                 tle b (iv_begin iv) ∧ tle (iv_end iv) e).
Proof.
  split.
  - pose proof three_edges_sliced as H.
    destruct three_edges as [c|x]; [|done]. exists c.
    unfold mbind at 1, result_bind, rbind in H.
    destruct (TemporalEdgeCollection.slice (Fin 4) (Fin 6) c) as [c'|x];
      [|done].
    exists c'. simpl in H. injection H as Hiv Hmap.
    split_and!; [done..| |].
    + intros iv. rewrite <- elem_of_elements, Hiv.
      rewrite !elem_of_cons, elem_of_nil. tauto.
    + intros k x. rewrite <- elem_of_map_to_list, Hmap.
      rewrite !elem_of_cons, elem_of_nil.
      split.
      * intros [[= -> ->]|[[= -> ->]|[]]]; auto.
      * intros [[-> ->]|[-> ->]]; auto.
  - intros c b e Hwf. unfold TemporalEdgeCollection.slice.
    destruct (new_from_intervals_run (slice_tree b e c))
      as (c' & Hrun & Hint & _); [by apply slice_tree_well_formed|].
    exists c'. split_and!; [done..|].
    intros iv Hiv. rewrite Hint in Hiv. by eapply slice_tree_within.
Qed.

End temporal_slice_claim.

(** ** Sorted lists: the first match, the first and the last element *)

Section sorted_lists.
Context {A : Type} (R : relation A) `{!Reflexive R}.

Lemma find_sorted_least (P : A → bool) l x :
  StronglySorted R l → List.find P l = Some x →
  P x = true ∧ x ∈ l ∧ ∀ y, y ∈ l → P y = true → R x y.
Proof.
  induction 1 as [|a l Hl IH Hall]; simpl; [done|].
  destruct (P a) eqn:Ha.
  - intros [= <-]. split_and!; [done|by left|].
    intros y Hy _. apply elem_of_cons in Hy as [->|Hy]; [done|].
    rewrite List.Forall_forall in Hall. by apply Hall, list_elem_of_In.
  - intros Hfind. destruct (IH Hfind) as (Hx & Hin & Hleast).
    split_and!; [done|by right|].
    intros y Hy HPy. apply elem_of_cons in Hy as [->|Hy]; [congruence|].
    by apply Hleast.
Qed.

Lemma find_none_all (P : A → bool) l y :
  List.find P l = None → y ∈ l → P y = false.
Proof.
  intros Hfind Hy. apply list_elem_of_In in Hy.
  by apply (List.find_none _ _ Hfind).
Qed.

Lemma head_sorted_least x l y :
  StronglySorted R (x :: l) → y ∈ x :: l → R x y.
Proof.
  intros Hs Hy. apply StronglySorted_inv in Hs as [_ Hall].
  apply elem_of_cons in Hy as [->|Hy]; [done|].
  rewrite List.Forall_forall in Hall. by apply Hall, list_elem_of_In.
Qed.

Lemma last_sorted_greatest l x y :
  StronglySorted R l → last l = Some x → y ∈ l → R y x.
Proof.
  induction 1 as [|a l Hl IH Hall]; [done|]. intros Hlast Hy.
  destruct l as [|a' l'].
  - injection Hlast as <-. by apply list_elem_of_singleton in Hy as ->.
  - rewrite last_cons_cons in Hlast.
    apply elem_of_cons in Hy as [->|Hy]; [|by apply IH].
    rewrite List.Forall_forall in Hall.
    by apply Hall, list_elem_of_In, last_Some_elem_of.
Qed.

End sorted_lists.

(** ** TemporalEdgeCollection: the first and the last finite time *)

Section temporal_bounds.
Import IntervalTree.
Import TemporalEdgeCollection(TemporalEdgeCollection, _map, _intervals,
  _interval_map).
Implicit Types (c : TemporalEdgeCollection) (t : gset Interval)
  (iv : Interval).

#[local] Instance iv_le_refl : Reflexive iv_le.
Proof. intros x. right. split; [done | apply tle_refl]. Qed.
#[local] Instance iv_le_trans : Transitive iv_le.
Proof.
  intros x y z [H1|[H1 H1']] [H2|[H2 H2']]; unfold iv_le.
  - left. by eapply tlt_trans.
  - left. by rewrite <- H2.
  - left. by rewrite H1.
  - right. split; [congruence | by eapply tle_trans].
Qed.
#[local] Instance iv_le_total : Total iv_le.
Proof.
  intros x y. unfold iv_le.
  destruct (tle_total (iv_begin x) (iv_begin y)) as [H|H];
    apply tle_eq_or_tlt in H as [H|H]; auto.
  - destruct (tle_total (iv_end x) (iv_end y)); auto.
  - destruct (tle_total (iv_end x) (iv_end y)); auto.
Qed.

Definition by_end : relation Interval := λ a b, tle (iv_end a) (iv_end b).
Definition by_end_reverse : relation Interval :=
  λ a b, tle (iv_end b) (iv_end a).

#[local] Instance by_end_refl : Reflexive by_end.
Proof. intros x. apply tle_refl. Qed.
#[local] Instance by_end_trans : Transitive by_end.
Proof. intros x y z. apply tle_trans. Qed.
#[local] Instance by_end_total : Total by_end.
Proof. intros x y. apply tle_total. Qed.
#[local] Instance by_end_reverse_refl : Reflexive by_end_reverse.
Proof. intros x. apply tle_refl. Qed.
#[local] Instance by_end_reverse_trans : Transitive by_end_reverse.
Proof. intros x y z H1 H2. by eapply tle_trans. Qed.
#[local] Instance by_end_reverse_total : Total by_end_reverse.
Proof. intros x y. apply tle_total. Qed.

Lemma iv_le_begin a b : iv_le a b → tle (iv_begin a) (iv_begin b).
Proof. intros [H|[-> _]]; [by apply tlt_tle | apply tle_refl]. Qed.

Lemma elem_of_sorted t iv : iv ∈ sorted t ↔ iv ∈ t.
Proof.
  unfold sorted. by rewrite merge_sort_Permutation, elem_of_elements.
Qed.
Lemma elem_of_sorted_by_end t iv : iv ∈ sorted_by_end t ↔ iv ∈ t.
Proof.
  unfold sorted_by_end. by rewrite merge_sort_Permutation, elem_of_elements.
Qed.
Lemma elem_of_sorted_by_end_reverse t iv :
  iv ∈ sorted_by_end_reverse t ↔ iv ∈ t.
Proof.
  unfold sorted_by_end_reverse.
  by rewrite merge_sort_Permutation, elem_of_elements.
Qed.

Lemma sorted_strongly t : StronglySorted iv_le (sorted t).
Proof. apply StronglySorted_merge_sort; apply _. Qed.
Lemma sorted_by_end_strongly t : StronglySorted by_end (sorted_by_end t).
Proof. apply (StronglySorted_merge_sort by_end). Qed.
Lemma sorted_by_end_reverse_strongly t :
  StronglySorted by_end_reverse (sorted_by_end_reverse t).
Proof. apply (StronglySorted_merge_sort by_end_reverse). Qed.


(** [z] is a finite begin or end of an interval of the tree. *)
Definition finite_bound t (z : Z) : Prop :=
  ∃ iv, iv ∈ t ∧ (iv_begin iv = Fin z ∨ iv_end iv = Fin z).

Lemma begin_finite c z0 :
  well_formed (_intervals c) → finite_bound (_intervals c) z0 →
  ∃ lo, TemporalEdgeCollection.begin true c = Ok (Fin lo) ∧
        finite_bound (_intervals c) lo ∧
        ∀ z, finite_bound (_intervals c) z → (lo ≤ z)%Z.
Proof.
  intros Hwf (ivz & Hivz & Hz). unfold TemporalEdgeCollection.begin.
  set (t := _intervals c) in *.
  (* the smallest end *)
  pose proof (sorted_by_end_strongly t) as HsE.
  destruct (sorted_by_end t) as [|iv0 E] eqn:HE.
  { apply elem_of_sorted_by_end in Hivz. rewrite HE in Hivz.
    by apply elem_of_nil in Hivz. }
  assert (iv0 ∈ t) as Hiv0.
  { apply elem_of_sorted_by_end. rewrite HE. by left. }
  assert (∀ iv, iv ∈ t → tle (iv_end iv0) (iv_end iv)) as Hmin_end.
  { intros iv Hiv. apply (head_sorted_least by_end iv0 E iv HsE).
    rewrite <- HE. by apply elem_of_sorted_by_end. }
  pose proof (Hwf iv0 Hiv0) as Hwf0.
  simpl.
  (* the first begin above minus infinity *)
  destruct (List.find _ (sorted t)) as [ivb|] eqn:Hfind.
  - apply (find_sorted_least iv_le) in Hfind as (HP & Hin & Hleast);
      [|apply sorted_strongly].
    apply bool_decide_eq_true_1 in HP. apply elem_of_sorted in Hin.
    pose proof (Hwf ivb Hin) as Hwfb.
    assert (∀ iv, iv ∈ t → tlt NegInf (iv_begin iv) →
                  tle (iv_begin ivb) (iv_begin iv)) as Hmin_begin.
    { intros iv Hiv Hlt. apply iv_le_begin, Hleast.
      - by apply elem_of_sorted.
      - by apply bool_decide_eq_true_2. }
    destruct (iv_begin ivb) as [|zb|] eqn:Hb; [done| |done].
    rewrite bool_decide_eq_false_2 by (by intros [? _]).
    destruct (iv_end iv0) as [|ze|] eqn:He0; [by destruct (iv_begin iv0)| |].
    + exists (Z.min zb ze). rewrite tmin_Fin. split_and!; [done| |].
      * destruct (Z.min_spec zb ze) as [[_ ->]|[_ ->]];
          [exists ivb | exists iv0]; auto.
      * intros z (iv & Hiv & [Hzb|Hze]).
        -- specialize (Hmin_begin iv Hiv). rewrite Hzb in Hmin_begin.
           specialize (Hmin_begin I). simpl in Hmin_begin. lia.
        -- specialize (Hmin_end iv Hiv). rewrite Hze in Hmin_end.
           simpl in Hmin_end. lia.
    + exists zb. split_and!; [done| |].
      * exists ivb. auto.
      * intros z (iv & Hiv & [Hzb|Hze]).
        -- specialize (Hmin_begin iv Hiv). rewrite Hzb in Hmin_begin.
           by specialize (Hmin_begin I).
        -- specialize (Hmin_end iv Hiv). by rewrite Hze in Hmin_end.
  - assert (∀ iv, iv ∈ t → iv_begin iv = NegInf) as Hall.
    { intros iv Hiv. apply elem_of_sorted in Hiv.
      pose proof (find_none_all _ _ _ Hfind Hiv) as HP. simpl in HP.
      apply bool_decide_eq_false_1 in HP.
      by destruct (iv_begin iv). }
    assert (begin t = NegInf) as ->.
    { apply tle_NegInf. rewrite <- (Hall iv0 Hiv0). by apply tree_begin_le. }
    destruct (iv_end iv0) as [|ze|] eqn:He0; [by destruct (iv_begin iv0)| |].
    + rewrite bool_decide_eq_true_2 by done.
      exists ze. split_and!.
      * unfold tmin. by rewrite decide_False by apply tlt_irrefl.
      * exists iv0. auto.
      * intros z (iv & Hiv & [Hzb|Hze]).
        -- by rewrite (Hall iv Hiv) in Hzb.
        -- specialize (Hmin_end iv Hiv). by rewrite Hze in Hmin_end.
    + exfalso. destruct Hz as [Hz|Hz].
      * by rewrite (Hall ivz Hivz) in Hz.
      * specialize (Hmin_end ivz Hivz). by rewrite Hz in Hmin_end.
Qed.


Lemma end_finite c z0 :
  well_formed (_intervals c) → finite_bound (_intervals c) z0 →
  ∃ hi, TemporalEdgeCollection.end_ true c = Ok (Fin hi) ∧
        finite_bound (_intervals c) hi ∧
        ∀ z, finite_bound (_intervals c) z → (z ≤ hi)%Z.
Proof.
  intros Hwf (ivz & Hivz & Hz). unfold TemporalEdgeCollection.end_.
  set (t := _intervals c) in *.
  (* the largest begin *)
  unfold TemporalEdgeCollection.last_item.
  destruct (last (sorted t)) as [ivl|] eqn:Hlast; cycle 1.
  { apply last_None in Hlast. apply elem_of_sorted in Hivz.
    rewrite Hlast in Hivz. by apply elem_of_nil in Hivz. }
  assert (ivl ∈ t) as Hivl
    by (by apply elem_of_sorted, last_Some_elem_of).
  assert (∀ iv, iv ∈ t → tle (iv_begin iv) (iv_begin ivl)) as Hmax_begin.
  { intros iv Hiv. apply iv_le_begin.
    apply (last_sorted_greatest iv_le (sorted t));
      [apply sorted_strongly | done | by apply elem_of_sorted]. }
  pose proof (Hwf ivl Hivl) as Hwfl.
  simpl.
  (* the first end below plus infinity, from the largest down *)
  destruct (List.find _ (sorted_by_end_reverse t)) as [ive|] eqn:Hfind.
  - apply (find_sorted_least by_end_reverse) in Hfind
      as (HP & Hin & Hleast); [|apply sorted_by_end_reverse_strongly].
    apply bool_decide_eq_true_1 in HP.
    apply elem_of_sorted_by_end_reverse in Hin.
    pose proof (Hwf ive Hin) as Hwfe.
    assert (∀ iv, iv ∈ t → tlt (iv_end iv) PosInf →
                  tle (iv_end iv) (iv_end ive)) as Hmax_end.
    { intros iv Hiv Hlt. apply Hleast.
      - by apply elem_of_sorted_by_end_reverse.
      - by apply bool_decide_eq_true_2. }
    destruct (iv_end ive) as [|ze|] eqn:He;
      [by destruct (iv_begin ive)| |done].
    rewrite bool_decide_eq_false_2 by (by intros [_ ?]).
    destruct (iv_begin ivl) as [|zb|] eqn:Hb; [| |by destruct (iv_end ivl)].
    + exists ze. split_and!; [done| |].
      * exists ive. auto.
      * intros z (iv & Hiv & [Hzb|Hze]).
        -- specialize (Hmax_begin iv Hiv). by rewrite Hzb in Hmax_begin.
        -- specialize (Hmax_end iv Hiv). rewrite Hze in Hmax_end.
           by specialize (Hmax_end I).
    + exists (Z.max zb ze). rewrite tmax_Fin. split_and!; [done| |].
      * destruct (Z.max_spec zb ze) as [[_ ->]|[_ ->]];
          [exists ive | exists ivl]; auto.
      * intros z (iv & Hiv & [Hzb|Hze]).
        -- specialize (Hmax_begin iv Hiv). rewrite Hzb in Hmax_begin.
           simpl in Hmax_begin. lia.
        -- specialize (Hmax_end iv Hiv). rewrite Hze in Hmax_end.
           specialize (Hmax_end I). simpl in Hmax_end. lia.
  - assert (∀ iv, iv ∈ t → iv_end iv = PosInf) as Hall.
    { intros iv Hiv. apply elem_of_sorted_by_end_reverse in Hiv.
      pose proof (find_none_all _ _ _ Hfind Hiv) as HP. simpl in HP.
      apply bool_decide_eq_false_1 in HP.
      by destruct (iv_end iv). }
    assert (end_ t = PosInf) as ->.
    { apply tle_PosInf. rewrite <- (Hall ivl Hivl). by apply tree_end_ge. }
    destruct (iv_begin ivl) as [|zb|] eqn:Hb; [| |by destruct (iv_end ivl)].
    + exfalso. destruct Hz as [Hz|Hz].
      * specialize (Hmax_begin ivz Hivz). by rewrite Hz in Hmax_begin.
      * by rewrite (Hall ivz Hivz) in Hz.
    + rewrite bool_decide_eq_true_2 by done.
      exists zb. split_and!.
      * unfold tmax. by rewrite decide_False by apply tlt_irrefl.
      * exists ivl. auto.
      * intros z (iv & Hiv & [Hzb|Hze]).
        -- specialize (Hmax_begin iv Hiv). by rewrite Hzb in Hmax_begin.
        -- by rewrite (Hall iv Hiv) in Hze.
Qed.

End temporal_bounds.

(** Two edges with the intervals [-inf,3) and [1,5). *)
Definition two_edges
  : result TemporalEdgeCollection.TemporalEdgeCollection :=
  c ← TemporalEdgeCollection.add edge_1 NegInf (Fin 3)
        TemporalEdgeCollection.init;
  TemporalEdgeCollection.add edge_2 (Fin 1) (Fin 5) c.

(** C7: on the intervals [-inf,3) and [1,5), [begin(finite=True)] is 1 and
    [end(finite=True)] is 5; and on every collection without null intervals
    that has a finite bound at all, [begin(finite=True)] is the earliest and
    [end(finite=True)] the latest of the finite begins and ends of its
    intervals. *)
Theorem begin_end_finite :
  (∃ c, two_edges = Ok c ∧
        TemporalEdgeCollection.begin true c = Ok (Fin 1) ∧
        TemporalEdgeCollection.end_ true c = Ok (Fin 5)) ∧
  (∀ c z0,
     well_formed (TemporalEdgeCollection._intervals c) →
     finite_bound (TemporalEdgeCollection._intervals c) z0 →
     ∃ lo hi,
       TemporalEdgeCollection.begin true c = Ok (Fin lo) ∧
       TemporalEdgeCollection.end_ true c = Ok (Fin hi) ∧
       finite_bound (TemporalEdgeCollection._intervals c) lo ∧
       finite_bound (TemporalEdgeCollection._intervals c) hi ∧
       ∀ z, finite_bound (TemporalEdgeCollection._intervals c) z →
            (lo ≤ z ≤ hi)%Z).
Proof.
  split.
  - assert ((c ← two_edges;
             b ← TemporalEdgeCollection.begin true c;
             e ← TemporalEdgeCollection.end_ true c; Ok (b, e))
            = Ok (Fin 1, Fin 5)) as H by (vm_compute; reflexivity).
    destruct two_edges as [c|x]; [|done]. exists c.
    unfold mbind at 1, result_bind, rbind in H.
    destruct (TemporalEdgeCollection.begin true c) as [b|x]; [|done].
    unfold mbind at 1, result_bind, rbind in H.
    destruct (TemporalEdgeCollection.end_ true c) as [e|x]; [|done].
    simpl in H. by injection H as -> ->.
  - intros c z0 Hwf Hz.
    destruct (begin_finite c z0 Hwf Hz) as (lo & Hb & Hlo & Hmin).
    destruct (end_finite c z0 Hwf Hz) as (hi & He & Hhi & Hmax).
    exists lo, hi. split_and!; try done.
    intros z Hzb. split; [by apply Hmin | by apply Hmax].
Qed.

(** * Further properties of the embedded code *)

(** ** RelatedObjects: merging and the add/remove pairs *)

Section related_more.
Implicit Types (r o : RelatedObjects) (e : Edge) (n : Node) (p : Path).

Lemma dict_update_lookup {V} (self other : gmap string V) k :
  Related.dict_update self other !! k
  = match other !! k with Some x => Some x | None => self !! k end.
Proof.
  unfold Related.dict_update. rewrite lookup_union.
  destruct (other !! k), (self !! k); done.
Qed.

(** X1:
    [update] takes every node and edge reference of [other], the incoming
    value winning on an identifier both records have, and every path of
    either; merging the same record a second time changes nothing. *)
Theorem update_overwrites_and_is_idempotent o r :
  (∀ k, nodes (Related.update o r) !! k
        = match nodes o !! k with Some x => Some x | None => nodes r !! k end) ∧
  (∀ k, edges (Related.update o r) !! k
        = match edges o !! k with Some x => Some x | None => edges r !! k end) ∧
  (∀ p, p ∈ paths (Related.update o r) ↔ p ∈ paths r ∨ p ∈ paths o) ∧
  Related.update o (Related.update o r) = Related.update o r.
Proof.
  split_and!.
  - intros k. apply dict_update_lookup.
  - intros k. apply dict_update_lookup.
  - intros p. simpl. apply elem_of_union.
  - unfold Related.update, Related.dict_update. simpl. f_equal.
    + by rewrite (assoc_L (∪)), (idemp_L (∪)).
    + by rewrite (assoc_L (∪)), (idemp_L (∪)).
    + by rewrite <- (assoc_L (∪)), (idemp_L (∪)).
Qed.

(** X2:
    [remove_edge] after [add_edge], and [remove_node] after [add_node], give
    back the record when the identifier was not in it before. *)
Theorem related_add_then_remove r e n :
  edges r !! edge_uid e = None →
  nodes r !! node_uid n = None →
  Related.remove_edge e (Related.add_edge e r) = Ok r ∧
  Related.remove_node n (Related.add_node n r) = Ok r.
Proof.
  intros He Hn. destruct r as [ns es ps]. simpl in *.
  unfold Related.remove_edge, Related.remove_node, Related.dict_del,
    Related.add_edge, Related.add_node. simpl.
  rewrite !lookup_insert_eq. simpl.
  by rewrite !delete_insert_eq, !delete_id.
Qed.

Lemma related_add_then_remove_witness :
  Related.remove_edge edge_AB (Related.add_edge edge_AB Related.init)
    = Ok Related.init ∧
  Related.remove_node (mkNode "A") (Related.add_node (mkNode "A") Related.init)
    = Ok Related.init.
Proof.
  apply (related_add_then_remove Related.init edge_AB (mkNode "A"));
    reflexivity.
Defined.

(** X3:
    Whatever the record held under the identifier before, [remove_edge]
    after [add_edge] completes and leaves the record without the identifier:
    an earlier reference under the same identifier is overwritten and then
    deleted, and a second [remove_edge] raises [KeyError]. *)
Theorem related_add_then_remove_clears r e :
  ∃ r', Related.remove_edge e (Related.add_edge e r) = Ok r' ∧
        edges r' !! edge_uid e = None ∧
        (∀ k, k ≠ edge_uid e → edges r' !! k = edges r !! k) ∧
        nodes r' = nodes r ∧ paths r' = paths r ∧
        Related.remove_edge e r' = Raise KeyError.
Proof.
  unfold Related.remove_edge, Related.dict_del, Related.add_edge.
  simpl. rewrite lookup_insert_eq. simpl. eexists. split; [reflexivity|].
  simpl. rewrite lookup_delete_eq. split_and!; [done| |done..].
  intros k Hk. by rewrite lookup_delete_ne, lookup_insert_ne.
Qed.

End related_more.

(** ** BaseDict: deletion and the counters *)

Module BaseDictCounters.
Import BaseDict(BaseDict, mkBase, items, _related, _counter).

Definition set_counter {V} (f : gmap string Z → gmap string Z)
    (d : BaseDict V) : BaseDict V :=
  {| items := items d; _related := _related d; _counter := f (_counter d) |}.

(** The [key] argument of the counter methods: one identifier, or a list of
    identifiers. *)
Inductive Key : Type :=
| KStr (k : string)
| KList (ks : list string).

(** [c[k] += count] on a [defaultdict(int)] *)
Definition counter_add (count : Z) (c : gmap string Z) (k : string)
  : gmap string Z :=
  <[k := (default 0 (c !! k) + count)%Z]> c.

(** [BaseDict.increase_counter] *)
Definition increase_counter {V} (key : Key) (count : Z)
  : M (BaseDict V) unit :=
  match key with
  | KStr k => modify (set_counter (λ c, counter_add count c k))
  | KList ks =>
      for_each ks (λ k, modify (set_counter (λ c, counter_add count c k)))
  end.

(** [BaseDict.decrease_counter] *)
Definition decrease_counter {V} (key : Key) (count : Z)
  : M (BaseDict V) unit :=
  match key with
  | KStr k => modify (set_counter (λ c, counter_add (- count) c k))
  | KList ks =>
      for_each ks (λ k, modify (set_counter (λ c, counter_add (- count) c k)))
  end.

(** [BaseDict.counter]: the comprehension reads [self._counter[k]] for every
    stored key, which stores a 0 for a key that was never counted. *)
Definition counter {V} : M (BaseDict V) (gmap string Z) :=
  λ d, let keys := (map_to_list (items d)).*1 in
       (set_counter
          (λ c, foldl (λ c k, match c !! k with
                              | Some _ => c
                              | None => <[k := 0%Z]> c
                              end) c keys) d,
        Ok (list_to_map ((λ k, (k, default 0%Z (_counter d !! k))) <$> keys))).

(** [self._counter[k]], without storing the default *)
Definition count_of {V} (d : BaseDict V) (k : string) : Z :=
  default 0%Z (_counter d !! k).

End BaseDictCounters.

Section basedict_more.
Context {V : Type}.
Import BaseDict(BaseDict, mkBase, items, _related, _counter).
Import BaseDictCounters.
Implicit Types (d : BaseDict V) (k : string) (count : Z).

Lemma for_each_modify {S A} (f : A → S → S) (xs : list A) (s : S) :
  for_each xs (λ x, modify (f x)) s = (foldl (λ s x, f x s) s xs, Ok tt).
Proof.
  revert s. induction xs as [|x xs IH]; intros s; [done|].
  simpl. unfold Py.bind, modify. by rewrite IH.
Qed.

(** The number of times [k] is in the list. *)
Definition occurrences (k : string) (ks : list string) : nat :=
  length (filter (λ k', k' = k) ks).

Lemma count_of_counter_add count d k k' :
  count_of (set_counter (λ c, counter_add count c k) d) k'
  = (count_of d k' + if decide (k = k') then count else 0)%Z.
Proof.
  unfold count_of, counter_add. simpl. case_decide as Hk.
  - subst. by rewrite lookup_insert_eq.
  - rewrite lookup_insert_ne by done. lia.
Qed.

Lemma count_of_foldl count ks d k' :
  count_of (foldl (λ d k, set_counter (λ c, counter_add count c k) d) d ks) k'
  = (count_of d k' + count * Z.of_nat (occurrences k' ks))%Z.
Proof.
  revert d. induction ks as [|k ks IH]; intros d; simpl.
  - unfold occurrences. simpl. lia.
  - rewrite IH, count_of_counter_add. unfold occurrences.
    rewrite filter_cons. case_decide; simpl; lia.
Qed.

(** The number of times a key is named by the argument. *)
Definition named (key : Key) (k : string) : nat :=
  match key with
  | KStr k0 => if decide (k0 = k) then 1 else 0
  | KList ks => occurrences k ks
  end.

Lemma increase_counter_count key count d k :
  (increase_counter key count d).2 = Ok tt ∧
  count_of (increase_counter key count d).1 k
  = (count_of d k + count * Z.of_nat (named key k))%Z.
Proof.
  destruct key as [k0|ks]; simpl.
  - split; [done|]. rewrite count_of_counter_add. case_decide; lia.
  - rewrite for_each_modify. simpl. split; [done|]. apply count_of_foldl.
Qed.

Lemma decrease_counter_count key count d k :
  (decrease_counter key count d).2 = Ok tt ∧
  count_of (decrease_counter key count d).1 k
  = (count_of d k - count * Z.of_nat (named key k))%Z.
Proof.
  destruct key as [k0|ks]; simpl.
  - split; [done|]. rewrite count_of_counter_add. case_decide; lia.
  - rewrite for_each_modify. simpl. split; [done|].
    rewrite count_of_foldl. lia.
Qed.

(** X4:
    [increase_counter] never raises and adds [count] to the counter of a key
    once for every time the argument names it: once for a single identifier,
    and as often as the identifier occurs for a list; the other counters
    stay. *)
Theorem increase_counter_adds key count d :
  (increase_counter key count d).2 = Ok tt ∧
  ∀ k, count_of (increase_counter key count d).1 k
       = (count_of d k + count * Z.of_nat (named key k))%Z.
Proof.
  split; [apply (increase_counter_count key count d "")|].
  intros k. apply increase_counter_count.
Qed.

(** X5:
    [decrease_counter] undoes [increase_counter] of the same argument and
    amount: every counter reads as before, and the entities and their
    relations are not touched. *)
Theorem increase_then_decrease_counter key count d :
  ∃ d', (increase_counter key count;; decrease_counter key count) d
        = (d', Ok tt) ∧
        items d' = items d ∧ _related d' = _related d ∧
        ∀ k, count_of d' k = count_of d k.
Proof.
  destruct (increase_counter key count d) as [d1 r1] eqn:H1.
  destruct (decrease_counter key count d1) as [d2 r2] eqn:H2.
  pose proof (increase_counter_count key count d) as Hinc.
  pose proof (decrease_counter_count key count d1) as Hdec.
  rewrite H1 in Hinc. rewrite H2 in Hdec. simpl in *.
  exists d2. split_and!.
  - unfold mbind, M_bind, Py.bind. rewrite H1.
    destruct (Hinc "") as [-> _]. rewrite H2.
    by destruct (Hdec "") as [-> _].
  - assert (∀ key count d, items (increase_counter key count d).1 = items d)
      as Hi.
    { intros [k0|ks] c0 d0; simpl; [done|]. rewrite for_each_modify. simpl.
      revert d0. induction ks as [|k ks IH]; intros d0; simpl; [done|].
      by rewrite IH. }
    assert (∀ key count d, items (decrease_counter key count d).1 = items d)
      as Hi'.
    { intros [k0|ks] c0 d0; simpl; [done|]. rewrite for_each_modify. simpl.
      revert d0. induction ks as [|k ks IH]; intros d0; simpl; [done|].
      by rewrite IH. }
    pose proof (Hi key count d) as E1. pose proof (Hi' key count d1) as E2.
    rewrite H1 in E1. rewrite H2 in E2. simpl in *. congruence.
  - assert (∀ key count d,
              _related (increase_counter key count d).1 = _related d) as Hi.
    { intros [k0|ks] c0 d0; simpl; [done|]. rewrite for_each_modify. simpl.
      revert d0. induction ks as [|k ks IH]; intros d0; simpl; [done|].
      by rewrite IH. }
    assert (∀ key count d,
              _related (decrease_counter key count d).1 = _related d) as Hi'.
    { intros [k0|ks] c0 d0; simpl; [done|]. rewrite for_each_modify. simpl.
      revert d0. induction ks as [|k ks IH]; intros d0; simpl; [done|].
      by rewrite IH. }
    pose proof (Hi key count d) as E1. pose proof (Hi' key count d1) as E2.
    rewrite H1 in E1. rewrite H2 in E2. simpl in *. congruence.
  - intros k. destruct (Hdec k) as [_ ->]. destruct (Hinc k) as [_ ->]. lia.
Qed.


Lemma snapshot_lookup (g : string → Z) (keys : list string) k :
  (list_to_map ((λ k, (k, g k)) <$> keys) : gmap string Z) !! k
  = if decide (k ∈ keys) then Some (g k) else None.
Proof.
  induction keys as [|k0 keys IH].
  - rewrite fmap_nil, list_to_map_nil, lookup_empty.
    destruct (decide (k ∈ [])) as [Hin|_]; [|done].
    by apply elem_of_nil in Hin.
  - rewrite fmap_cons, list_to_map_cons.
    destruct (decide (k0 = k)) as [->|Hne].
    + rewrite lookup_insert_eq.
      destruct (decide (k ∈ k :: keys)) as [_|Hn]; [done|].
      exfalso. apply Hn. by left.
    + rewrite lookup_insert_ne, IH by done.
      destruct (decide (k ∈ keys)) as [Hin|Hn],
               (decide (k ∈ k0 :: keys)) as [Hin'|Hn']; try done.
      * exfalso. apply Hn'. by right.
      * apply elem_of_cons in Hin' as [?|?]; [congruence|done].
Qed.

Lemma count_of_fill (keys : list string) d k :
  count_of (set_counter
              (λ c, foldl (λ c k, match c !! k with
                                  | Some _ => c
                                  | None => <[k := 0%Z]> c
                                  end) c keys) d) k
  = count_of d k.
Proof.
  unfold count_of. simpl. generalize (_counter d). clear d.
  induction keys as [|k0 keys IH]; intros c; simpl; [done|].
  rewrite IH. destruct (c !! k0) eqn:Hk0; [done|].
  destruct (decide (k0 = k)) as [->|Hne].
  - by rewrite lookup_insert_eq, Hk0.
  - by rewrite lookup_insert_ne.
Qed.

(** X6:
    [counter()] never raises; the snapshot has exactly the stored keys, each
    with its counter and 0 for a key that was never counted, so the counter
    of a key that is no longer stored is not in it; taking the snapshot
    changes no counter reading, no entity and no relation. *)
Theorem counter_snapshot d :
  ∃ d' m, counter d = (d', Ok m) ∧
    (∀ k, m !! k = match items d !! k with
                   | Some _ => Some (count_of d k)
                   | None => None
                   end) ∧
    (∀ k, count_of d' k = count_of d k) ∧
    items d' = items d ∧ _related d' = _related d.
Proof.
  unfold counter. eexists _, _. split; [reflexivity|]. split_and!; [| |done..].
  - intros k. rewrite snapshot_lookup. unfold count_of.
    destruct (items d !! k) as [v|] eqn:Hk.
    + rewrite decide_True; [done|]. apply list_elem_of_fmap.
      exists (k, v). split; [done|]. by apply elem_of_map_to_list.
    + rewrite decide_False; [done|]. intros Hin.
      apply list_elem_of_fmap in Hin as [[k' v] [-> Hin]].
      apply elem_of_map_to_list in Hin. simpl in *. congruence.
  - intros k. apply count_of_fill.
Qed.

(** X7:
    [delete] of a key that has no RelatedObjects entry raises [KeyError] and
    changes nothing; of a key that has one but is not stored, it raises
    [KeyError] after the entry is already gone; of a stored key with an
    entry it completes, and entity and entry are gone while every other key
    and every counter is as before. *)
Theorem basedict_delete_outcomes d key :
  (_related d !! key = None → BaseDict.delete key d = (d, Raise KeyError)) ∧
  (is_Some (_related d !! key) → items d !! key = None →
   BaseDict.delete key d
   = (BaseDict.set_related (base.delete key) d, Raise KeyError)) ∧
  (is_Some (_related d !! key) → is_Some (items d !! key) →
   ∃ d', BaseDict.delete key d = (d', Ok tt) ∧
         items d' = base.delete key (items d) ∧
         _related d' = base.delete key (_related d) ∧
         _counter d' = _counter d).
Proof.
  unfold BaseDict.delete, mbind, M_bind, Py.bind, BaseDict.del_related,
    BaseDict.del_item.
  split_and!.
  - intros Hr. by rewrite Hr.
  - intros [r Hr] Hi. rewrite Hr. simpl. by rewrite Hi.
  - intros [r Hr] [v Hi]. rewrite Hr. simpl. rewrite Hi.
    eexists. by split_and!.
Qed.

(** X8:
    Storing a value under a key the store does not know and deleting the
    key again gives back the store as it was. *)
Theorem setitem_then_delete d key (value : V) :
  items d !! key = None → _related d !! key = None →
  (BaseDict.setitem key value;; BaseDict.delete key) d = (d, Ok tt).
Proof.
  intros Hi Hr. destruct d as [it rel cnt]. simpl in *.
  unfold mbind, M_bind, Py.bind, BaseDict.setitem, BaseDict.delete,
    mbind, M_bind, Py.bind, modify, BaseDict.del_related, BaseDict.del_item,
    BaseDict.set_related, BaseDict.set_items. simpl.
  rewrite !lookup_insert_eq. simpl. rewrite lookup_insert_eq.
  by rewrite !delete_insert_eq, !delete_id.
Qed.

End basedict_more.

Lemma setitem_then_delete_witness :
  (BaseDict.setitem "b" (mkNode "b");; BaseDict.delete "b")
    store_with_relation
  = (store_with_relation, Ok tt).
Proof.
  apply (setitem_then_delete store_with_relation "b" (mkNode "b"));
    reflexivity.
Defined.

(** ** NodeDict: what [add_edge] leaves behind *)

Section nodedict_add_edge.
Import NodeDict.
Import BaseDict(items, _related, _counter, set_items, set_related).
Implicit Types (s : NodeDict) (k uid : string) (r : RelatedObjects)
  (e : Edge).

Lemma node_eq_uid (n m : Node) : n = m ↔ node_uid n = node_uid m.
Proof. destruct n, m. simpl. split; congruence. Qed.

Lemma add_edge_run e oth s :
  add_edge e oth s
  = if decide (edge_v e = edge_w e)
    then add_edge_node e oth (edge_v e) s
    else (add_edge_node e oth (edge_v e);; add_edge_node e oth (edge_w e)) s.
Proof.
  unfold add_edge, edge_nodes.
  destruct (decide (edge_v e = edge_w e)) as [Heq|Hne].
  - rewrite decide_True by by rewrite Heq. simpl.
    unfold Py.bind. by destruct (add_edge_node _ _ _ _) as [? [[]|?]].
  - rewrite decide_False by by rewrite <- node_eq_uid. simpl.
    unfold mbind, M_bind, Py.bind.
    destruct (add_edge_node _ _ _ _) as [s1 [[]|?]]; [|done].
    by destruct (add_edge_node _ _ _ _) as [? [[]|?]].
Qed.

(** The state after a completed [add_edge], as read through the tables:
    [ra] and [rb] are the records of tail and head before the call. *)
Lemma add_edge_spec e oth s ra rb :
  record_of s (node_uid (edge_v e)) ra →
  record_of s (node_uid (edge_w e)) rb →
  ∃ s1, add_edge e oth s = (s1, Ok tt) ∧
    (∀ k, _related (as_base s1) !! k
          = if decide (k = node_uid (edge_v e))
            then Some (RO (related_after_add e oth (edge_v e) ra))
            else if decide (k = node_uid (edge_w e))
            then Some (RO (related_after_add e oth (edge_w e) rb))
            else _related (as_base s) !! k) ∧
    (∀ k, items (as_base s1) !! k
          = if decide (k = node_uid (edge_v e)) then Some (edge_v e)
            else if decide (k = node_uid (edge_w e)) then Some (edge_w e)
            else items (as_base s) !! k) ∧
    (∀ p k, nodes_of s1 p k
            = if decide (k = node_uid (edge_v e))
              then nodes_after_add e (edge_v e) p (nodes_of s p k)
              else if decide (k = node_uid (edge_w e))
              then nodes_after_add e (edge_w e) p (nodes_of s p k)
              else nodes_of s p k) ∧
    (∀ p k, edges_of s1 p k
            = if decide (k = node_uid (edge_v e))
              then edges_after_add e (edge_v e) p (edges_of s p k)
              else if decide (k = node_uid (edge_w e))
              then edges_after_add e (edge_w e) p (edges_of s p k)
              else edges_of s p k) ∧
    (∀ p k, degree_of s1 p k
            = if decide (k = node_uid (edge_v e) ∨ k = node_uid (edge_w e))
              then size (edges_of s1 (edges_for p) k)
              else degree_of s p k).
Proof.
  intros Hra Hrb. rewrite add_edge_run.
  set (a := node_uid (edge_v e)) in *. set (b := node_uid (edge_w e)) in *.
  destruct (add_edge_node_spec e oth (edge_v e) s ra Hra)
    as (sa & Hrun_a & Hrel_a & Hit_a & _ & Hn_a & He_a & Hd_a).
  fold a in Hrel_a, Hit_a, Hn_a, He_a, Hd_a.
  destruct (decide (edge_v e = edge_w e)) as [Heq|Hne].
  - assert (b = a) as Hba by (subst a b; by rewrite Heq).
    exists sa. split; [done|]. split_and!.
    + intros k. rewrite Hrel_a.
      destruct (decide (k = a)) as [Heqk|Hk]; [subst k|].
      * by rewrite lookup_insert_eq.
      * rewrite lookup_insert_ne by done. rewrite decide_False by congruence.
        done.
    + intros k. rewrite Hit_a.
      destruct (decide (k = a)) as [Heqk|Hk]; [subst k|].
      * by rewrite lookup_insert_eq.
      * rewrite lookup_insert_ne by done. rewrite decide_False by congruence.
        done.
    + intros p k. rewrite Hn_a. destruct (decide (k = a)); [done|].
      by rewrite decide_False by congruence.
    + intros p k. rewrite He_a. destruct (decide (k = a)); [done|].
      by rewrite decide_False by congruence.
    + intros p k. rewrite Hd_a, He_a.
      destruct (decide (k = a)) as [Heqk|Hk]; [subst k|].
      * by rewrite decide_True by auto.
      * rewrite decide_False; [done|]. intros [?|?]; congruence.
  - assert (a ≠ b) as Hab by (subst a b; by rewrite <- node_eq_uid).
    assert (record_of sa b rb) as Hrb'.
    { unfold record_of. rewrite Hrel_a, lookup_insert_ne by done. exact Hrb. }
    destruct (add_edge_node_spec e oth (edge_w e) sa rb Hrb')
      as (s1 & Hrun_1 & Hrel_1 & Hit_1 & _ & Hn_1 & He_1 & Hd_1).
    fold b in Hrel_1, Hit_1, Hn_1, He_1, Hd_1.
    exists s1. split.
    { unfold mbind, M_bind, Py.bind. by rewrite Hrun_a. }
    assert (∀ p k, edges_of s1 p k
              = if decide (k = a)
                then edges_after_add e (edge_v e) p (edges_of s p k)
                else if decide (k = b)
                then edges_after_add e (edge_w e) p (edges_of s p k)
                else edges_of s p k) as Hedges.
    { intros p k. rewrite He_1, He_a.
      destruct (decide (k = a)) as [Heqk|Hka]; [subst k|].
      - by rewrite decide_False by done.
      - done. }
    split_and!.
    + intros k. rewrite Hrel_1, Hrel_a.
      destruct (decide (k = a)) as [Heqk|Hka]; [subst k|].
      * rewrite lookup_insert_ne by done. by rewrite lookup_insert_eq.
      * destruct (decide (k = b)) as [Heqk|Hkb]; [subst k|].
        -- by rewrite lookup_insert_eq.
        -- by rewrite !lookup_insert_ne.
    + intros k. rewrite Hit_1, Hit_a.
      destruct (decide (k = a)) as [Heqk|Hka]; [subst k|].
      * rewrite lookup_insert_ne by done. by rewrite lookup_insert_eq.
      * destruct (decide (k = b)) as [Heqk|Hkb]; [subst k|].
        -- by rewrite lookup_insert_eq.
        -- by rewrite !lookup_insert_ne.
    + intros p k. rewrite Hn_1, Hn_a.
      destruct (decide (k = a)) as [Heqk|Hka]; [subst k|].
      * by rewrite decide_False by done.
      * done.
    + exact Hedges.
    + intros p k. rewrite Hd_1.
      destruct (decide (k = b)) as [Heqk|Hkb]; [subst k|].
      * rewrite decide_True by auto. by rewrite He_1, decide_True.
      * rewrite Hd_a. destruct (decide (k = a)) as [Heqk|Hka]; [subst k|].
        -- rewrite decide_True by auto.
           rewrite Hedges, decide_True by done. done.
        -- rewrite decide_False; [done|]. intros [?|?]; congruence.
Qed.


Lemma add_edge_records e oth s s1 :
  add_edge e oth s = (s1, Ok tt) →
  ∃ ra rb, record_of s (node_uid (edge_v e)) ra ∧
           record_of s (node_uid (edge_w e)) rb.
Proof.
  rewrite add_edge_run. destruct (decide (edge_v e = edge_w e)) as [Heq|Hne].
  - intros Hrun. destruct (add_edge_node_record _ _ _ _ _ Hrun) as [ra Hra].
    exists ra, ra. split; [done|]. by rewrite <- Heq.
  - intros Hrun. apply bind_ok_inv in Hrun as (sa & [] & Hrun_a & Hrun_b).
    destruct (add_edge_node_record _ _ _ _ _ Hrun_a) as [ra Hra].
    destruct (add_edge_node_record _ _ _ _ _ Hrun_b) as [rb Hrb].
    exists ra, rb. split; [done|].
    destruct (add_edge_node_spec e oth (edge_v e) s ra Hra)
      as (sa' & Hrun_a' & Hrel_a & _).
    rewrite Hrun_a in Hrun_a'. injection Hrun_a' as <-.
    unfold record_of in *. rewrite Hrel_a in Hrb.
    rewrite lookup_insert_ne in Hrb; [done|]. by rewrite <- node_eq_uid.
Qed.

Ltac after_add :=
  unfold nodes_after_add, edges_after_add, related_after_add, writes_nodes,
    writes_edges;
  repeat case_decide; simpl; rewrite ?lookup_insert_eq; try done;
  try (destruct_and?; congruence); exfalso; intuition congruence.

(** X9:
    After a completed [add_edge], whatever the index held before: the head
    is a successor and an adjacent node of the tail, the tail a predecessor
    and an adjacent node of the head; the edge is an outgoing and adjacent
    edge of the tail and an incoming and adjacent edge of the head; both
    endpoints are stored in the index, and the RelatedObjects record of each
    names the edge and the other endpoint. *)
Theorem add_edge_registers e oth s s1 :
  add_edge e oth s = (s1, Ok tt) →
  let a := node_uid (edge_v e) in
  let b := node_uid (edge_w e) in
  nodes_of s1 successors a !! b = Some (edge_w e) ∧
  nodes_of s1 adjacent_nodes a !! b = Some (edge_w e) ∧
  nodes_of s1 predecessors b !! a = Some (edge_v e) ∧
  nodes_of s1 adjacent_nodes b !! a = Some (edge_v e) ∧
  edges_of s1 outgoing a !! edge_uid e = Some e ∧
  edges_of s1 adjacent_edges a !! edge_uid e = Some e ∧
  edges_of s1 incoming b !! edge_uid e = Some e ∧
  edges_of s1 adjacent_edges b !! edge_uid e = Some e ∧
  items (as_base s1) !! a = Some (edge_v e) ∧
  items (as_base s1) !! b = Some (edge_w e) ∧
  (∃ ra, _related (as_base s1) !! a = Some (RO ra) ∧
         edges ra !! edge_uid e = Some e ∧ nodes ra !! b = Some (edge_w e)) ∧
  (∃ rb, _related (as_base s1) !! b = Some (RO rb) ∧
         edges rb !! edge_uid e = Some e ∧ nodes rb !! a = Some (edge_v e)).
Proof.
  intros Hrun.
  destruct (add_edge_records _ _ _ _ Hrun) as (ra & rb & Hra & Hrb).
  destruct (add_edge_spec e oth s ra rb Hra Hrb)
    as (s1' & Hrun' & Hrel & Hit & Hn & He & _).
  rewrite Hrun in Hrun'. injection Hrun' as <-. clear Hrun Hra Hrb.
  destruct e as [u v w d]. simpl in *.
  destruct (decide (v = w)) as [<-|Hne].
  - split_and!; rewrite ?Hn, ?He, ?Hit; try (eexists; rewrite Hrel);
      rewrite ?decide_True by done; try (split_and!; [done|..]); simpl;
      try after_add.
  - assert (node_uid v ≠ node_uid w) as Hab by by rewrite <- node_eq_uid.
    split_and!; rewrite ?Hn, ?He, ?Hit; try (eexists; rewrite Hrel);
      rewrite ?(decide_True (P := node_uid v = node_uid v)) by done;
      rewrite ?(decide_False (P := node_uid w = node_uid v)) by done;
      rewrite ?(decide_True (P := node_uid w = node_uid w)) by done;
      try (split_and!; [done|..]); simpl; try after_add.
Qed.

End nodedict_add_edge.

Lemma index_AB_run :
  NodeDict.add_edge edge_AB None NodeDict.init = (index_AB, Ok tt).
Proof.
  unfold index_AB.
  destruct (add_edge_spec edge_AB None NodeDict.init Related.init Related.init)
    as (s1 & Hrun & _); [by right..|].
  by rewrite Hrun.
Qed.

Lemma add_edge_registers_witness :
  let s1 := index_AB in
  NodeDict.nodes_of s1 NodeDict.successors "A" !! "B" = Some (mkNode "B") ∧
  NodeDict.nodes_of s1 NodeDict.adjacent_nodes "A" !! "B"
    = Some (mkNode "B") ∧
  NodeDict.nodes_of s1 NodeDict.predecessors "B" !! "A"
    = Some (mkNode "A") ∧
  NodeDict.nodes_of s1 NodeDict.adjacent_nodes "B" !! "A"
    = Some (mkNode "A") ∧
  NodeDict.edges_of s1 NodeDict.outgoing "A" !! "e" = Some edge_AB ∧
  NodeDict.edges_of s1 NodeDict.adjacent_edges "A" !! "e" = Some edge_AB ∧
  NodeDict.edges_of s1 NodeDict.incoming "B" !! "e" = Some edge_AB ∧
  NodeDict.edges_of s1 NodeDict.adjacent_edges "B" !! "e" = Some edge_AB ∧
  BaseDict.items (NodeDict.as_base s1) !! "A" = Some (mkNode "A") ∧
  BaseDict.items (NodeDict.as_base s1) !! "B" = Some (mkNode "B") ∧
  (∃ ra, BaseDict._related (NodeDict.as_base s1) !! "A" = Some (RO ra) ∧
         edges ra !! "e" = Some edge_AB ∧
         nodes ra !! "B" = Some (mkNode "B")) ∧
  (∃ rb, BaseDict._related (NodeDict.as_base s1) !! "B" = Some (RO rb) ∧
         edges rb !! "e" = Some edge_AB ∧
         nodes rb !! "A" = Some (mkNode "A")).
Proof.
  apply (add_edge_registers edge_AB None NodeDict.init index_AB).
  apply index_AB_run.
Defined.

(** ** NodeDict: when [add_edge] and [remove_edge] raise *)

Section nodedict_failures.
Import NodeDict.
Import BaseDict(items, _related, _counter, set_items, set_related).
Implicit Types (s : NodeDict) (k uid : string) (r : RelatedObjects).

(** What a plain dictionary in [_related] raises in [add_edge]:
    [dict.update] cannot iterate a RelatedObjects, and a dict has no
    [add_edge]. *)
Definition add_edge_exc (oth : option RelatedObjects) : Exc :=
  match oth with Some _ => TypeError | None => AttributeError end.

Lemma add_edge_node_plain e oth n s :
  _related (as_base s) !! node_uid n = Some PlainDict →
  add_edge_node e oth n s = (s, Raise (add_edge_exc oth)).
Proof.
  intros Hr. unfold add_edge_node.
  assert (ensure_related (node_uid n) s = (s, Ok tt)) as H0.
  { unfold ensure_related, modify. by rewrite Hr. }
  rewrite (bind_run _ _ _ _ _ H0).
  destruct oth as [o|]; simpl.
  - apply bind_fail. unfold call_related. by rewrite Hr.
  - erewrite bind_run by reflexivity.
    apply bind_fail. unfold call_related. by rewrite Hr.
Qed.

Lemma add_edge_plain e oth s :
  _related (as_base s) !! node_uid (edge_v e) = Some PlainDict ∨
  _related (as_base s) !! node_uid (edge_w e) = Some PlainDict →
  (add_edge e oth s).2 = Raise (add_edge_exc oth).
Proof.
  intros Hbad. rewrite add_edge_run.
  destruct (decide (edge_v e = edge_w e)) as [Heq|Hne].
  - rewrite add_edge_node_plain; [done|].
    destruct Hbad as [H|H]; [done|]. by rewrite Heq.
  - destruct (_related (as_base s) !! node_uid (edge_v e)) as [[ra|]|] eqn:Hra.
    + destruct Hbad as [H|Hb]; [done|].
      destruct (add_edge_node_spec e oth (edge_v e) s ra (or_introl Hra))
        as (sa & Hrun_a & Hrel_a & _).
      rewrite (bind_run _ _ _ _ _ Hrun_a).
      rewrite add_edge_node_plain; [done|].
      rewrite Hrel_a, lookup_insert_ne; [done|]. by rewrite <- node_eq_uid.
    + erewrite bind_fail; [done|]. by apply add_edge_node_plain.
    + destruct Hbad as [H|Hb]; [done|].
      destruct (add_edge_node_spec e oth (edge_v e) s Related.init)
        as (sa & Hrun_a & Hrel_a & _); [by right|].
      rewrite (bind_run _ _ _ _ _ Hrun_a).
      rewrite add_edge_node_plain; [done|].
      rewrite Hrel_a, lookup_insert_ne; [done|]. by rewrite <- node_eq_uid.
Qed.

Lemma record_of_not_plain s uid :
  _related (as_base s) !! uid ≠ Some PlainDict → ∃ r0, record_of s uid r0.
Proof.
  unfold record_of.
  destruct (_related (as_base s) !! uid) as [[r|]|]; [eauto|done|eauto].
Qed.

(** X10:
    [add_edge] completes exactly when neither endpoint of the edge has a
    plain dictionary for its related objects; otherwise it raises TypeError
    when other related objects are passed, and AttributeError when none
    are. *)
Theorem add_edge_completes_iff e oth s :
  ((add_edge e oth s).2 = Ok tt ↔
   _related (as_base s) !! node_uid (edge_v e) ≠ Some PlainDict ∧
   _related (as_base s) !! node_uid (edge_w e) ≠ Some PlainDict) ∧
  ((add_edge e oth s).2 ≠ Ok tt →
   (add_edge e oth s).2 = Raise (add_edge_exc oth)).
Proof.
  assert (_related (as_base s) !! node_uid (edge_v e) ≠ Some PlainDict ∧
          _related (as_base s) !! node_uid (edge_w e) ≠ Some PlainDict →
          (add_edge e oth s).2 = Ok tt) as Hgood.
  { intros [Ha Hb].
    destruct (record_of_not_plain _ _ Ha) as [ra Hra].
    destruct (record_of_not_plain _ _ Hb) as [rb Hrb].
    destruct (add_edge_spec e oth s ra rb Hra Hrb) as (s1 & Hrun & _).
    by rewrite Hrun. }
  split; [split; [|done]|].
  - intros Hok. split; intros Hbad.
    + rewrite add_edge_plain in Hok by auto. done.
    + rewrite add_edge_plain in Hok by auto. done.
  - intros Hno.
    destruct (_related (as_base s) !! node_uid (edge_v e)) as [[ra|]|] eqn:Ha;
      [|apply add_edge_plain; auto|];
      (destruct (_related (as_base s) !! node_uid (edge_w e)) as [[rb|]|]
         eqn:Hb; [|apply add_edge_plain; auto|]);
    by destruct Hno; apply Hgood.
Qed.

Lemma remove_edge_first e s s' x :
  remove_edge_node e (edge_v e) s = (s', Raise x) →
  remove_edge e s = (s', Raise x).
Proof.
  intros Hrun. unfold remove_edge, edge_nodes.
  case_decide; cbn [for_each]; unfold Py.bind; by rewrite Hrun.
Qed.

(** X11:
    [remove_edge] of an edge whose tail has no related objects yet raises
    AttributeError, and leaves a plain dictionary as the related objects of
    the tail and everything else as it was: after that no [add_edge] of
    this edge completes. *)
Theorem remove_edge_without_record e s :
  _related (as_base s) !! node_uid (edge_v e) = None →
  ∃ s2, remove_edge e s = (s2, Raise AttributeError) ∧
    _related (as_base s2)
    = <[node_uid (edge_v e) := PlainDict]> (_related (as_base s)) ∧
    items (as_base s2) = items (as_base s) ∧
    _counter (as_base s2) = _counter (as_base s) ∧
    node_attr s2 = node_attr s ∧ edge_attr s2 = edge_attr s ∧
    deg_attr s2 = deg_attr s ∧
    ∀ oth, (add_edge e oth s2).2 = Raise (add_edge_exc oth).
Proof.
  intros Hr. eexists. split.
  - apply remove_edge_first. unfold remove_edge_node. apply bind_fail.
    unfold call_related. rewrite Hr. reflexivity.
  - split_and!; try done. intros oth. apply add_edge_plain. left.
    simpl. by rewrite lookup_insert_eq.
Qed.

(** X12:
    [remove_edge] of an edge that the related objects of its tail do not
    hold raises KeyError and changes nothing. *)
Theorem remove_edge_unknown_edge e s r :
  _related (as_base s) !! node_uid (edge_v e) = Some (RO r) →
  edges r !! edge_uid e = None →
  remove_edge e s = (s, Raise KeyError).
Proof.
  intros Hr He. apply remove_edge_first. unfold remove_edge_node.
  apply bind_fail. eapply call_related_fail; [exact Hr|].
  unfold Related.remove_edge, Related.dict_del. by rewrite He.
Qed.

End nodedict_failures.

Lemma remove_edge_without_record_witness :
  ∃ s2, NodeDict.remove_edge edge_AB NodeDict.init
        = (s2, Raise AttributeError) ∧
    BaseDict._related (NodeDict.as_base s2)
    = <["A" := PlainDict]>
        (BaseDict._related (NodeDict.as_base NodeDict.init)) ∧
    BaseDict.items (NodeDict.as_base s2)
    = BaseDict.items (NodeDict.as_base NodeDict.init) ∧
    BaseDict._counter (NodeDict.as_base s2)
    = BaseDict._counter (NodeDict.as_base NodeDict.init) ∧
    NodeDict.node_attr s2 = NodeDict.node_attr NodeDict.init ∧
    NodeDict.edge_attr s2 = NodeDict.edge_attr NodeDict.init ∧
    NodeDict.deg_attr s2 = NodeDict.deg_attr NodeDict.init ∧
    ∀ oth, (NodeDict.add_edge edge_AB oth s2).2 = Raise (add_edge_exc oth).
Proof.
  apply (remove_edge_without_record edge_AB NodeDict.init). reflexivity.
Defined.

Lemma remove_edge_unknown_edge_witness :
  NodeDict.remove_edge edge_AB_parallel index_AB = (index_AB, Raise KeyError).
Proof.
  apply (remove_edge_unknown_edge edge_AB_parallel index_AB
           (Related.add_node (mkNode "B")
              (Related.add_edge edge_AB Related.init)));
    vm_compute; reflexivity.
Defined.

(** ** NodeDict: adding an edge twice, and the degrees of a new edge *)

Section nodedict_add_twice.
Import NodeDict.
Import BaseDict(items, _related, _counter, set_items, set_related).
Implicit Types (s : NodeDict) (k uid : string) (r : RelatedObjects).

Lemma union_insert_absorb {X} (o m : gmap string X) (i : string) (x : X) :
  <[i := x]> (o ∪ <[i := x]> m) = <[i := x]> (o ∪ m).
Proof.
  apply map_eq. intros j. destruct (decide (j = i)) as [->|Hne].
  - by rewrite !lookup_insert_eq.
  - rewrite !lookup_insert_ne by done. rewrite !lookup_union.
    by rewrite lookup_insert_ne by done.
Qed.

Lemma insert_twice_2 {X} (m : gmap string X) (i j : string) (x y : X) :
  <[i := x]> (<[j := y]> (<[i := x]> (<[j := y]> m)))
  = <[i := x]> (<[j := y]> m).
Proof.
  apply map_eq. intros l. rewrite !lookup_insert.
  repeat case_decide; congruence.
Qed.

Lemma nodes_after_add_twice e n p (m : gmap string Node) :
  nodes_after_add e n p (nodes_after_add e n p m) = nodes_after_add e n p m.
Proof.
  unfold nodes_after_add. repeat case_decide; try done.
  - apply insert_twice_2.
  - apply insert_insert_eq.
  - apply insert_insert_eq.
Qed.

Lemma edges_after_add_twice e n p (m : gmap string Edge) :
  edges_after_add e n p (edges_after_add e n p m) = edges_after_add e n p m.
Proof.
  unfold edges_after_add. case_decide; [apply insert_insert_eq|done].
Qed.


Lemma related_after_add_twice e oth n r0 :
  related_after_add e oth n (related_after_add e oth n r0)
  = related_after_add e oth n r0.
Proof.
  unfold related_after_add, Related.add_node, Related.add_edge,
    Related.update, Related.dict_update.
  destruct oth as [o|]; repeat case_decide; simpl; f_equal;
    try (by rewrite <- (assoc_L (∪)), (idemp_L (∪)));
    try (apply map_eq; intros l;
         repeat (rewrite ?lookup_insert, ?lookup_union);
         repeat case_decide; try congruence;
         by destruct (nodes o !! l), (edges o !! l), (nodes r0 !! l),
              (edges r0 !! l)).
Qed.

(** X13:
    Adding the same edge a second time completes and changes nothing that
    can be read: the related objects, the stored nodes, the six tables and
    the degrees are those after the first call. *)
Theorem add_edge_twice e oth s s1 :
  add_edge e oth s = (s1, Ok tt) →
  ∃ s2, add_edge e oth s1 = (s2, Ok tt) ∧
    (∀ k, _related (as_base s2) !! k = _related (as_base s1) !! k) ∧
    (∀ k, items (as_base s2) !! k = items (as_base s1) !! k) ∧
    (∀ p k, nodes_of s2 p k = nodes_of s1 p k) ∧
    (∀ p k, edges_of s2 p k = edges_of s1 p k) ∧
    (∀ p k, degree_of s2 p k = degree_of s1 p k).
Proof.
  intros Hrun.
  destruct (add_edge_records _ _ _ _ Hrun) as (ra & rb & Hra & Hrb).
  destruct (add_edge_spec e oth s ra rb Hra Hrb)
    as (s1' & Hrun' & Hrel & Hit & Hn & He & Hd).
  rewrite Hrun in Hrun'. injection Hrun' as <-. clear Hrun.
  assert (∃ ra1 rb1,
    record_of s1 (node_uid (edge_v e)) ra1 ∧
    record_of s1 (node_uid (edge_w e)) rb1 ∧
    related_after_add e oth (edge_v e) ra1 = ra1 ∧
    related_after_add e oth (edge_w e) rb1 = rb1 ∧
    _related (as_base s1) !! node_uid (edge_v e) = Some (RO ra1) ∧
    _related (as_base s1) !! node_uid (edge_w e) = Some (RO rb1))
    as (ra1 & rb1 & Hra1 & Hrb1 & Hfa & Hfb & Hla & Hlb).
  { pose proof (Hrel (node_uid (edge_v e))) as Ha.
    pose proof (Hrel (node_uid (edge_w e))) as Hb.
    rewrite decide_True in Ha by done.
    destruct (decide (node_uid (edge_w e) = node_uid (edge_v e))) as [Heq|Hne].
    - apply node_eq_uid in Heq. rewrite Heq in *.
      eexists _, _. split_and!; [by left|by left| | |done|done];
        apply related_after_add_twice.
    - rewrite decide_True in Hb by done.
      eexists _, _. split_and!; [by left|by left| | |done|done];
        apply related_after_add_twice. }
  destruct (add_edge_spec e oth s1 ra1 rb1 Hra1 Hrb1)
    as (s2 & Hrun2 & Hrel2 & Hit2 & Hn2 & He2 & Hd2).
  assert (∀ p k, edges_of s2 p k = edges_of s1 p k) as Hedges.
  { intros p k. rewrite He2, He. repeat case_decide; try done;
      by rewrite edges_after_add_twice. }
  exists s2. split_and!; [done|..|done|].
  - intros k. rewrite Hrel2. repeat case_decide; subst; congruence.
  - intros k. rewrite Hit2, Hit. by repeat case_decide.
  - intros p k. rewrite Hn2, Hn. repeat case_decide; try done;
      by rewrite nodes_after_add_twice.
  - intros p k. rewrite Hd2, Hd. case_decide; [|done]. by rewrite Hedges.
Qed.

End nodedict_add_twice.

Lemma add_edge_twice_witness :
  ∃ s2, NodeDict.add_edge edge_AB None index_AB = (s2, Ok tt) ∧
    (∀ k, BaseDict._related (NodeDict.as_base s2) !! k
          = BaseDict._related (NodeDict.as_base index_AB) !! k) ∧
    (∀ k, BaseDict.items (NodeDict.as_base s2) !! k
          = BaseDict.items (NodeDict.as_base index_AB) !! k) ∧
    (∀ p k, NodeDict.nodes_of s2 p k = NodeDict.nodes_of index_AB p k) ∧
    (∀ p k, NodeDict.edges_of s2 p k = NodeDict.edges_of index_AB p k) ∧
    (∀ p k, NodeDict.degree_of s2 p k = NodeDict.degree_of index_AB p k).
Proof.
  apply (add_edge_twice edge_AB None NodeDict.init index_AB).
  apply index_AB_run.
Defined.

(** ** NodeDict: the degrees after a new edge, and [delete] *)

Section nodedict_new_edge.
Import NodeDict.
Import BaseDict(items, _related, _counter, set_items, set_related).
Implicit Types (s : NodeDict) (k uid key : string) (r : RelatedObjects).

(** X14:
    On an index whose degrees agree with its edge tables, adding an edge
    that its endpoints do not have yet raises the outdegree and the degree
    of the tail and the indegree and the degree of the head by one; a
    self-loop raises the degree of its node by one, not two.  When tail and
    head differ, the indegree of the tail and the outdegree of the head stay
    as they are. *)
Theorem add_new_edge_degrees e oth s s1 :
  degrees_consistent s →
  edges_of s adjacent_edges (node_uid (edge_v e)) !! edge_uid e = None →
  edges_of s outgoing (node_uid (edge_v e)) !! edge_uid e = None →
  edges_of s adjacent_edges (node_uid (edge_w e)) !! edge_uid e = None →
  edges_of s incoming (node_uid (edge_w e)) !! edge_uid e = None →
  add_edge e oth s = (s1, Ok tt) →
  let a := node_uid (edge_v e) in
  let b := node_uid (edge_w e) in
  degree_of s1 outdegrees a = S (degree_of s outdegrees a) ∧
  degree_of s1 degrees a = S (degree_of s degrees a) ∧
  degree_of s1 indegrees b = S (degree_of s indegrees b) ∧
  degree_of s1 degrees b = S (degree_of s degrees b) ∧
  (edge_v e ≠ edge_w e →
   degree_of s1 indegrees a = degree_of s indegrees a ∧
   degree_of s1 outdegrees b = degree_of s outdegrees b).
Proof.
  intros Hs Haa Hao Hba Hbi Hrun.
  destruct (add_edge_records _ _ _ _ Hrun) as (ra & rb & Hra & Hrb).
  destruct (add_edge_spec e oth s ra rb Hra Hrb)
    as (s1' & Hrun' & _ & _ & _ & He & Hd).
  rewrite Hrun in Hrun'. injection Hrun' as <-. clear Hrun Hra Hrb.
  simpl.
  assert (∀ p, degree_of s p (node_uid (edge_v e))
               = size (edges_of s (edges_for p) (node_uid (edge_v e))))
    as Hda by apply Hs.
  assert (∀ p, degree_of s p (node_uid (edge_w e))
               = size (edges_of s (edges_for p) (node_uid (edge_w e))))
    as Hdb by apply Hs.
  destruct e as [u v w d]. simpl in *.
  destruct (decide (v = w)) as [<-|Hne].
  - split_and!; [..|done]; rewrite Hd, decide_True by auto;
      rewrite He, decide_True by done; rewrite Hda; simpl;
      unfold edges_after_add, writes_edges;
      (rewrite decide_True by (simpl; auto)); simpl;
      by rewrite map_size_insert_None.
  - assert (node_uid v ≠ node_uid w) as Hab by by rewrite <- node_eq_uid.
    split_and!; [..|intros _; split]; rewrite Hd, decide_True by auto;
      rewrite He; simpl;
      rewrite ?(decide_True (P := node_uid v = node_uid v)) by done;
      rewrite ?(decide_False (P := node_uid w = node_uid v)) by done;
      rewrite ?(decide_True (P := node_uid w = node_uid w)) by done;
      rewrite ?Hda, ?Hdb; simpl; unfold edges_after_add, writes_edges; simpl.
    + rewrite decide_True by auto. by rewrite map_size_insert_None.
    + rewrite decide_True by auto. by rewrite map_size_insert_None.
    + rewrite decide_True by auto. by rewrite map_size_insert_None.
    + rewrite decide_True by auto. by rewrite map_size_insert_None.
    + rewrite decide_False; [done|]. intros [[_ [?|?]]|[? _]]; congruence.
    + rewrite decide_False; [done|]. intros [[? _]|[_ [?|?]]]; congruence.
Qed.

(** X15:
    [delete] drops the key from all nine tables whatever happens next: it
    completes exactly when the key has related objects and is stored;
    otherwise it raises KeyError, with the related objects of the key gone
    when there were any, and the stored nodes as they were. *)
Theorem nodedict_delete_outcomes s key :
  (∀ p, node_attr (delete key s).1 p !! key = None) ∧
  (∀ p, edge_attr (delete key s).1 p !! key = None) ∧
  (∀ p, deg_attr (delete key s).1 p !! key = None) ∧
  (∀ p k, k ≠ key → nodes_of (delete key s).1 p k = nodes_of s p k) ∧
  (∀ p k, k ≠ key → edges_of (delete key s).1 p k = edges_of s p k) ∧
  (∀ p k, k ≠ key → degree_of (delete key s).1 p k = degree_of s p k) ∧
  _related (as_base (delete key s).1) !! key = None ∧
  ((delete key s).2 = Ok tt ↔
   is_Some (_related (as_base s) !! key) ∧ is_Some (items (as_base s) !! key)) ∧
  ((delete key s).2 = Ok tt →
   items (as_base (delete key s).1) = base.delete key (items (as_base s))) ∧
  ((delete key s).2 ≠ Ok tt →
   (delete key s).2 = Raise KeyError ∧
   items (as_base (delete key s).1) = items (as_base s)).
Proof.
  unfold delete, mbind, M_bind, Py.bind, modify, lift_base, nodes_of,
    edges_of, degree_of, dd_read. simpl.
  unfold BaseDict.del_related, BaseDict.del_item. simpl.
  destruct (_related (as_base s) !! key) as [r|] eqn:Hr; simpl;
    [destruct (items (as_base s) !! key) as [n|] eqn:Hn; simpl|];
    (split_and!;
     [intros p; apply lookup_delete_eq
     |intros p; apply lookup_delete_eq
     |intros p; apply lookup_delete_eq
     |intros p k Hk; by rewrite lookup_delete_ne
     |intros p k Hk; by rewrite lookup_delete_ne
     |intros p k Hk; by rewrite lookup_delete_ne
     |rewrite ?lookup_delete_eq; done
     |split; [try done|intros [[? ?] [? ?]]; done]
     |try done
     |try done]).
Qed.

End nodedict_new_edge.

Lemma add_new_edge_degrees_witness :
  NodeDict.degree_of index_AB NodeDict.outdegrees "A"
    = S (NodeDict.degree_of NodeDict.init NodeDict.outdegrees "A") ∧
  NodeDict.degree_of index_AB NodeDict.degrees "A"
    = S (NodeDict.degree_of NodeDict.init NodeDict.degrees "A") ∧
  NodeDict.degree_of index_AB NodeDict.indegrees "B"
    = S (NodeDict.degree_of NodeDict.init NodeDict.indegrees "B") ∧
  NodeDict.degree_of index_AB NodeDict.degrees "B"
    = S (NodeDict.degree_of NodeDict.init NodeDict.degrees "B") ∧
  (edge_v edge_AB ≠ edge_w edge_AB →
   NodeDict.degree_of index_AB NodeDict.indegrees "A"
     = NodeDict.degree_of NodeDict.init NodeDict.indegrees "A" ∧
   NodeDict.degree_of index_AB NodeDict.outdegrees "B"
     = NodeDict.degree_of NodeDict.init NodeDict.outdegrees "B").
Proof.
  apply (add_new_edge_degrees edge_AB None NodeDict.init index_AB).
  - intros k p. destruct p; reflexivity.
  - reflexivity.
  - reflexivity.
  - reflexivity.
  - reflexivity.
  - apply index_AB_run.
Defined.

(** * EdgeDict and PathDict: storing edges and paths *)

(** The two statements on [_related] that [EdgeDict.add_edge] and
    [PathDict.add_path] share with [NodeDict.add_edge], on a BaseDict. *)
Module BaseDictRelated.
Import BaseDict(BaseDict, items, _related, _counter, set_items, set_related).

(** [if k not in self._related: self._related[k] = RelatedObjects()] *)
Definition ensure_related {V} (k : string) : M (BaseDict V) unit :=
  modify (λ d, match _related d !! k with
               | Some _ => d
               | None => set_related (<[k := RO Related.init]>) d
               end).

(** [self._related[k].method(...)]: reading a missing key stores a plain
    dictionary, on which the call raises [on_dict]. *)
Definition call_related {V} (on_dict : Exc) (k : string)
    (method : RelatedObjects → result RelatedObjects) : M (BaseDict V) unit :=
  λ d, match _related d !! k with
       | Some (RO r) =>
           match method r with
           | Ok r' => (set_related (<[k := RO r']>) d, Ok tt)
           | Raise e => (d, Raise e)
           end
       | Some PlainDict => (d, Raise on_dict)
       | None => (set_related (<[k := PlainDict]>) d, Raise on_dict)
       end.

End BaseDictRelated.

Module EdgeDictStore.
Import BaseDict(BaseDict, items, _related, _counter, set_items, set_related).
Import BaseDictRelated.

(** [EdgeDict.add_edge] *)
Definition add_edge (edge : Edge) (other : option RelatedObjects)
  : M (BaseDict Edge) unit :=
  let uid := edge_uid edge in
  ensure_related uid;;
  match other with
  | Some o => call_related TypeError uid (λ r, Ok (Related.update o r))
  | None => mret tt
  end;;
  for_each (edge_nodes edge) (λ node,
    call_related AttributeError uid (λ r, Ok (Related.add_node node r)));;
  (* [self.update({edge.uid: edge})] is [dict.update], which does not go
     through [__setitem__] *)
  modify (set_items (<[uid := edge]>)).

End EdgeDictStore.

Section edgedict_add_edge.
Import BaseDict(BaseDict, mkBase, items, _related, _counter, set_items,
  set_related).
Import BaseDictRelated EdgeDictStore.
Implicit Types (d : BaseDict Edge) (e : Edge) (r : RelatedObjects).

(** The related objects of an edge after [add_edge] has run for it. *)
Definition edge_record_after (e : Edge) (oth : option RelatedObjects)
    (r0 : RelatedObjects) : RelatedObjects :=
  let r := match oth with Some o => Related.update o r0 | None => r0 end in
  foldl (λ r n, Related.add_node n r) r (edge_nodes e).

Lemma for_each_call_related {V X} exc k
    (f : X → RelatedObjects → RelatedObjects) (ns : list X)
    (d : BaseDict V) r :
  _related d !! k = Some (RO r) →
  for_each ns (λ n, call_related exc k (λ r, Ok (f n r))) d
  = (set_related (<[k := RO (foldl (λ r n, f n r) r ns)]>) d, Ok tt).
Proof.
  revert d r. induction ns as [|n ns IH]; intros d r Hr; simpl.
  - unfold Py.ret. f_equal. destruct d as [it rel c]; simpl in *.
    unfold set_related; simpl. f_equal. by rewrite insert_id.
  - unfold Py.bind, call_related. rewrite Hr.
    rewrite (IH _ (f n r)) by (simpl; apply lookup_insert_eq).
    f_equal. destruct d as [it rel c]; unfold set_related; simpl. f_equal.
    by rewrite insert_insert_eq.
Qed.

Lemma edgedict_add_edge_run e oth d r0 :
  _related d !! edge_uid e = Some (RO r0) ∨
  (_related d !! edge_uid e = None ∧ r0 = Related.init) →
  add_edge e oth d
  = ({| items := <[edge_uid e := e]> (items d);
        _related := <[edge_uid e := RO (edge_record_after e oth r0)]>
                      (_related d);
        _counter := _counter d |}, Ok tt).
Proof.
  intros Hr. unfold add_edge.
  assert (∃ d0, ensure_related (edge_uid e) d = (d0, Ok tt) ∧
            _related d0 = <[edge_uid e := RO r0]> (_related d) ∧
            items d0 = items d ∧ _counter d0 = _counter d)
    as (d0 & Hrun0 & Hrel0 & Hit0 & Hc0).
  { unfold ensure_related, modify.
    destruct Hr as [Hr|[Hr ->]]; rewrite Hr; eexists; split_and!; try done.
    by rewrite insert_id. }
  rewrite (bind_run _ _ _ _ _ Hrun0).
  set (r := match oth with Some o => Related.update o r0 | None => r0 end).
  assert (∃ d1, match oth with
                | Some o => call_related TypeError (edge_uid e)
                              (λ r, Ok (Related.update o r))
                | None => mret tt
                end d0 = (d1, Ok tt) ∧
            _related d1 = <[edge_uid e := RO r]> (_related d) ∧
            items d1 = items d ∧ _counter d1 = _counter d)
    as (d1 & Hrun1 & Hrel1 & Hit1 & Hc1).
  { destruct oth as [o|]; subst r.
    - unfold call_related. rewrite Hrel0, lookup_insert_eq.
      eexists; split_and!; try done. simpl. by rewrite Hrel0, insert_insert_eq.
    - by exists d0. }
  rewrite (bind_run _ _ _ _ _ Hrun1).
  erewrite bind_run
    by (apply (for_each_call_related _ _ (λ n r, Related.add_node n r));
        by rewrite Hrel1, lookup_insert_eq).
  unfold modify, set_items, set_related, edge_record_after. simpl.
  fold r. by rewrite Hrel1, Hit1, Hc1, insert_insert_eq.
Qed.

Lemma edgedict_add_edge_plain e oth d :
  _related d !! edge_uid e = Some PlainDict →
  add_edge e oth d = (d, Raise (add_edge_exc oth)).
Proof.
  intros Hr. unfold add_edge.
  assert (ensure_related (edge_uid e) d = (d, Ok tt)) as H0.
  { unfold ensure_related, modify. by rewrite Hr. }
  rewrite (bind_run _ _ _ _ _ H0).
  destruct oth as [o|]; simpl.
  - apply bind_fail. unfold call_related. by rewrite Hr.
  - erewrite bind_run by reflexivity. apply bind_fail.
    unfold edge_nodes. case_decide; cbn [for_each]; unfold Py.bind,
      call_related; by rewrite Hr.
Qed.

Lemma edge_record_after_fields e oth r0 :
  nodes (edge_record_after e oth r0) !! node_uid (edge_v e) = Some (edge_v e) ∧
  nodes (edge_record_after e oth r0) !! node_uid (edge_w e) = Some (edge_w e) ∧
  paths r0 ⊆ paths (edge_record_after e oth r0) ∧
  (∀ k, is_Some (edges r0 !! k) →
        is_Some (edges (edge_record_after e oth r0) !! k)).
Proof.
  unfold edge_record_after, edge_nodes.
  destruct e as [u v w dir]. simpl.
  case_decide as Huid; simpl.
  - assert (v = w) as <- by (destruct v, w; simpl in *; congruence).
    rewrite lookup_insert_eq. split_and!; try done.
    + destruct oth; simpl; [apply union_subseteq_l|done].
    + intros k [x Hx]. destruct oth as [o|]; simpl; [|eauto].
      unfold Related.dict_update. rewrite lookup_union.
      rewrite Hx. destruct (edges o !! k); eauto.
  - rewrite lookup_insert_ne by done. rewrite !lookup_insert_eq.
    split_and!; try done.
    + destruct oth; simpl; [apply union_subseteq_l|done].
    + intros k [x Hx]. destruct oth as [o|]; simpl; [|eauto].
      unfold Related.dict_update. rewrite lookup_union.
      rewrite Hx. destruct (edges o !! k); eauto.
Qed.

(** X16:
    [EdgeDict.add_edge] completes exactly when the related objects of the
    edge are not a plain dictionary, and changes nothing when it raises.
    When it completes the edge is stored under its identifier, its related
    objects name both endpoints and still hold every path and every edge
    identifier they held before, and the other entries and the counters are
    as they were. *)
Theorem edgedict_add_edge_stores e oth d :
  ((add_edge e oth d).2 = Ok tt ↔ _related d !! edge_uid e ≠ Some PlainDict) ∧
  ((add_edge e oth d).2 ≠ Ok tt →
   add_edge e oth d = (d, Raise (add_edge_exc oth))) ∧
  ((add_edge e oth d).2 = Ok tt →
   let d1 := (add_edge e oth d).1 in
   items d1 = <[edge_uid e := e]> (items d) ∧
   _counter d1 = _counter d ∧
   (∀ k, k ≠ edge_uid e → _related d1 !! k = _related d !! k) ∧
   ∃ r1, _related d1 !! edge_uid e = Some (RO r1) ∧
     nodes r1 !! node_uid (edge_v e) = Some (edge_v e) ∧
     nodes r1 !! node_uid (edge_w e) = Some (edge_w e) ∧
     ∀ r0, _related d !! edge_uid e = Some (RO r0) →
       paths r0 ⊆ paths r1 ∧
       ∀ k, is_Some (edges r0 !! k) → is_Some (edges r1 !! k)).
Proof.
  destruct (_related d !! edge_uid e) as [[r0|]|] eqn:Hr.
  - rewrite (edgedict_add_edge_run e oth d r0) by auto. simpl.
    destruct (edge_record_after_fields e oth r0) as (Hv & Hw & Hp & He).
    split_and!; try done.
    intros _. split_and!; try done.
    + intros k Hk. by rewrite lookup_insert_ne.
    + eexists. rewrite lookup_insert_eq. split_and!; try done.
      intros r Heq. injection Heq as <-. done.
  - rewrite edgedict_add_edge_plain by done. simpl.
    split_and!; done.
  - rewrite (edgedict_add_edge_run e oth d Related.init) by auto. simpl.
    destruct (edge_record_after_fields e oth Related.init) as (Hv & Hw & _).
    split_and!; try done.
    intros _. split_and!; try done.
    + intros k Hk. by rewrite lookup_insert_ne.
    + eexists. rewrite lookup_insert_eq. split_and!; done.
Qed.

Lemma edge_record_after_twice e oth r0 :
  edge_record_after e oth (edge_record_after e oth r0)
  = edge_record_after e oth r0.
Proof.
  unfold edge_record_after, edge_nodes, Related.add_node, Related.update,
    Related.dict_update.
  destruct oth as [o|]; case_decide; simpl; f_equal;
    try (by rewrite <- (assoc_L (∪)), (idemp_L (∪)));
    try (apply map_eq; intros l;
         repeat (rewrite ?lookup_insert, ?lookup_union);
         repeat case_decide; try congruence;
         by destruct (nodes o !! l), (edges o !! l), (nodes r0 !! l),
              (edges r0 !! l)).
Qed.

(** X17:
    Storing the same edge a second time leaves the EdgeDict as it is. *)
Theorem edgedict_add_edge_twice e oth d d1 :
  add_edge e oth d = (d1, Ok tt) → add_edge e oth d1 = (d1, Ok tt).
Proof.
  intros Hrun.
  assert (∃ r0, d1 = {| items := <[edge_uid e := e]> (items d);
                        _related := <[edge_uid e :=
                                        RO (edge_record_after e oth r0)]>
                                      (_related d);
                        _counter := _counter d |}) as [r0 ->].
  { destruct (_related d !! edge_uid e) as [[r0|]|] eqn:Hr.
    - rewrite (edgedict_add_edge_run e oth d r0) in Hrun by auto.
      exists r0. congruence.
    - by rewrite edgedict_add_edge_plain in Hrun.
    - rewrite (edgedict_add_edge_run e oth d Related.init) in Hrun by auto.
      exists Related.init. congruence. }
  erewrite edgedict_add_edge_run
    by (left; simpl; apply lookup_insert_eq).
  simpl. by rewrite edge_record_after_twice, !insert_insert_eq.
Qed.

End edgedict_add_edge.

Lemma edgedict_add_edge_twice_witness :
  EdgeDictStore.add_edge edge_AB None
    (EdgeDictStore.add_edge edge_AB None BaseDict.init).1
  = ((EdgeDictStore.add_edge edge_AB None BaseDict.init).1, Ok tt).
Proof.
  apply (edgedict_add_edge_twice edge_AB None BaseDict.init).
  reflexivity.
Defined.

(** ** NodeDict: an [add_edge] that raises at the head of the edge *)

Section nodedict_half_added.
Import NodeDict.
Import BaseDict(items, _related, _counter, set_items, set_related).
Implicit Types (s : NodeDict) (k uid : string) (r : RelatedObjects).

(** X18:
    When the head of an edge has a plain dictionary for its related
    objects and the tail has not, [add_edge] raises only after the loop has
    run for the tail: the head is then a successor of the tail and the edge
    an outgoing edge of it, the tail is stored, and nothing is recorded for
    the head. *)
Theorem add_edge_raises_after_tail e oth s ra :
  edge_v e ≠ edge_w e →
  record_of s (node_uid (edge_v e)) ra →
  _related (as_base s) !! node_uid (edge_w e) = Some PlainDict →
  ∃ s', add_edge e oth s = (s', Raise (add_edge_exc oth)) ∧
    nodes_of s' successors (node_uid (edge_v e)) !! node_uid (edge_w e)
      = Some (edge_w e) ∧
    edges_of s' outgoing (node_uid (edge_v e)) !! edge_uid e = Some e ∧
    degree_of s' outdegrees (node_uid (edge_v e))
      = size (edges_of s' outgoing (node_uid (edge_v e))) ∧
    items (as_base s') !! node_uid (edge_v e) = Some (edge_v e) ∧
    items (as_base s') !! node_uid (edge_w e)
      = items (as_base s) !! node_uid (edge_w e) ∧
    (∀ p, nodes_of s' p (node_uid (edge_w e))
          = nodes_of s p (node_uid (edge_w e))) ∧
    (∀ p, edges_of s' p (node_uid (edge_w e))
          = edges_of s p (node_uid (edge_w e))).
Proof.
  intros Hne Hra Hb.
  assert (node_uid (edge_w e) ≠ node_uid (edge_v e)) as Hba.
  { intros Heq. apply Hne. symmetry. by apply node_eq_uid. }
  destruct (add_edge_node_spec e oth (edge_v e) s ra Hra)
    as (sa & Hrun_a & Hrel_a & Hit_a & _ & Hn_a & He_a & Hd_a).
  exists sa. split.
  - rewrite add_edge_run, decide_False by done.
    rewrite (bind_run _ _ _ _ _ Hrun_a).
    apply add_edge_node_plain. rewrite Hrel_a.
    by rewrite lookup_insert_ne.
  - split_and!.
    + rewrite Hn_a, decide_True by done.
      unfold nodes_after_add, writes_nodes.
      repeat case_decide; rewrite ?lookup_insert_eq; try done;
        exfalso; intuition congruence.
    + rewrite He_a, decide_True by done.
      unfold edges_after_add, writes_edges.
      case_decide; rewrite ?lookup_insert_eq; try done;
        exfalso; intuition congruence.
    + rewrite Hd_a, He_a. by rewrite !decide_True by done.
    + rewrite Hit_a. apply lookup_insert_eq.
    + rewrite Hit_a. by rewrite lookup_insert_ne.
    + intros p. rewrite Hn_a. by rewrite decide_False.
    + intros p. rewrite He_a. by rewrite decide_False.
Qed.

End nodedict_half_added.

(** An index on which [remove_edge] was called for an edge from [B] that it
    never held: [B] has a plain dictionary for its related objects. *)
Definition index_plain_B : NodeDict.NodeDict :=
  (NodeDict.remove_edge (mkEdge "h" (mkNode "B") (mkNode "A") true)
     NodeDict.init).1.

Lemma add_edge_raises_after_tail_witness :
  ∃ s', NodeDict.add_edge edge_AB None index_plain_B
        = (s', Raise AttributeError) ∧
    NodeDict.nodes_of s' NodeDict.successors "A" !! "B" = Some (mkNode "B") ∧
    NodeDict.edges_of s' NodeDict.outgoing "A" !! "e" = Some edge_AB ∧
    NodeDict.degree_of s' NodeDict.outdegrees "A"
      = size (NodeDict.edges_of s' NodeDict.outgoing "A") ∧
    BaseDict.items (NodeDict.as_base s') !! "A" = Some (mkNode "A") ∧
    BaseDict.items (NodeDict.as_base s') !! "B"
      = BaseDict.items (NodeDict.as_base index_plain_B) !! "B" ∧
    (∀ p, NodeDict.nodes_of s' p "B" = NodeDict.nodes_of index_plain_B p "B") ∧
    (∀ p, NodeDict.edges_of s' p "B" = NodeDict.edges_of index_plain_B p "B").
Proof.
  apply (add_edge_raises_after_tail edge_AB None index_plain_B Related.init).
  - discriminate.
  - right. split; reflexivity.
  - reflexivity.
Defined.

(** ** PathDict

    The node and edge dictionaries of a path and its length are those of
    [pathpy.core.path], outside the embedded sources: the methods take
    [path.nodes.values()], [path.edges.values()] and [len(path)] as
    parameters. *)

Module PathDict.
Import BaseDict(BaseDict, items, _related, _counter, set_items, set_related).
Import BaseDictRelated.

Section path_attributes.
Variable path_nodes : Path → list Node.
Variable path_edges : Path → list Edge.
Variable path_len : Path → nat.

(** [PathDict.add_path] *)
Definition add_path (path : Path) : M (BaseDict Path) unit :=
  let uid := path_uid path in
  ensure_related uid;;
  for_each (path_nodes path) (λ node,
    call_related AttributeError uid (λ r, Ok (Related.add_node node r)));;
  for_each (path_edges path) (λ edge,
    call_related AttributeError uid (λ r, Ok (Related.add_edge edge r)));;
  modify (set_items (<[uid := path]>)).



End path_attributes.
End PathDict.

Section pathdict.
Import BaseDict(BaseDict, mkBase, items, _related, _counter, set_items,
  set_related).
Import BaseDictRelated PathDict.
Variable path_nodes : Path → list Node.
Variable path_edges : Path → list Edge.
Variable path_len : Path → nat.
Implicit Types (d : BaseDict Path) (p : Path) (r : RelatedObjects).

Lemma nodes_foldl_add_node (ns : list Node) r (n : Node) :
  nodes r !! node_uid n = Some n ∨ n ∈ ns →
  nodes (foldl (λ r n, Related.add_node n r) r ns) !! node_uid n = Some n.
Proof.
  revert r. induction ns as [|n0 ns IH]; intros r Hn; simpl.
  - destruct Hn as [Hn|Hn]; [done|]. by apply elem_of_nil in Hn.
  - apply IH. destruct (decide (n = n0)) as [<-|Hne].
    + left. simpl. apply lookup_insert_eq.
    + destruct Hn as [Hn|Hn].
      * left. simpl. rewrite lookup_insert_ne; [done|].
        intros Heq. apply Hne. destruct n, n0; simpl in *; congruence.
      * right. apply elem_of_cons in Hn as [Hn|Hn]; [done|done].
Qed.

Lemma edges_foldl_add_node (ns : list Node) r :
  edges (foldl (λ r n, Related.add_node n r) r ns) = edges r ∧
  paths (foldl (λ r n, Related.add_node n r) r ns) = paths r.
Proof.
  revert r. induction ns as [|n ns IH]; intros r; [done|].
  simpl. by destruct (IH (Related.add_node n r)) as [-> ->].
Qed.

Lemma nodes_foldl_add_edge (es : list Edge) r :
  nodes (foldl (λ r e, Related.add_edge e r) r es) = nodes r ∧
  paths (foldl (λ r e, Related.add_edge e r) r es) = paths r.
Proof.
  revert r. induction es as [|e es IH]; intros r; [done|].
  simpl. by destruct (IH (Related.add_edge e r)) as [-> ->].
Qed.

Lemma edges_foldl_add_edge (es : list Edge) r (e : Edge) :
  e ∈ es →
  ∃ e', e' ∈ es ∧ edge_uid e' = edge_uid e ∧
        edges (foldl (λ r e, Related.add_edge e r) r es) !! edge_uid e
        = Some e'.
Proof.
  induction es as [|x es IH] using rev_ind; intros He.
  - by apply elem_of_nil in He.
  - rewrite foldl_app. simpl.
    destruct (decide (edge_uid x = edge_uid e)) as [Hx|Hx].
    + exists x. split_and!; [|done|].
      * apply elem_of_app. right. by apply list_elem_of_singleton.
      * rewrite Hx. apply lookup_insert_eq.
    + apply elem_of_app in He as [He|He].
      * destruct (IH He) as (e' & He' & Huid & Hlook).
        exists e'. split_and!; [|done|].
        -- apply elem_of_app. by left.
        -- by rewrite lookup_insert_ne.
      * apply list_elem_of_singleton in He. by subst.
Qed.

Lemma edges_foldl_add_edge_keeps (es : list Edge) r (k : string) :
  is_Some (edges r !! k) →
  is_Some (edges (foldl (λ r e, Related.add_edge e r) r es) !! k).
Proof.
  revert r. induction es as [|e es IH]; intros r Hk; [done|].
  simpl. apply IH. simpl. rewrite lookup_insert. by case_decide.
Qed.

(** X19:
    Unless the related objects of the path are a plain dictionary,
    [add_path] completes: the path is stored under its identifier, its
    related objects hold every node of the path and, under the identifier of
    every edge of the path, an edge of the path with that identifier, and
    the same paths as before; other entries and the counters are as they
    were. *)
Theorem add_path_stores p d r0 :
  _related d !! path_uid p = Some (RO r0) ∨
  (_related d !! path_uid p = None ∧ r0 = Related.init) →
  ∃ r1, add_path path_nodes path_edges p d
        = ({| items := <[path_uid p := p]> (items d);
              _related := <[path_uid p := RO r1]> (_related d);
              _counter := _counter d |}, Ok tt) ∧
    (∀ n, n ∈ path_nodes p → nodes r1 !! node_uid n = Some n) ∧
    (∀ e, e ∈ path_edges p →
          ∃ e', e' ∈ path_edges p ∧ edge_uid e' = edge_uid e ∧
                edges r1 !! edge_uid e = Some e') ∧
    (∀ k, is_Some (nodes r0 !! k) → is_Some (nodes r1 !! k)) ∧
    (∀ k, is_Some (edges r0 !! k) → is_Some (edges r1 !! k)) ∧
    paths r1 = paths r0.
Proof.
  intros Hr.
  set (rn := foldl (λ r n, Related.add_node n r) r0 (path_nodes p)).
  set (r1 := foldl (λ r e, Related.add_edge e r) rn (path_edges p)).
  exists r1. split.
  - unfold add_path.
    assert (∃ d0, ensure_related (path_uid p) d = (d0, Ok tt) ∧
              _related d0 = <[path_uid p := RO r0]> (_related d) ∧
              items d0 = items d ∧ _counter d0 = _counter d)
      as (d0 & Hrun0 & Hrel0 & Hit0 & Hc0).
    { unfold ensure_related, modify.
      destruct Hr as [Hr|[Hr ->]]; rewrite Hr; eexists; split_and!; try done.
      by rewrite insert_id. }
    rewrite (bind_run _ _ _ _ _ Hrun0).
    erewrite bind_run
      by (apply (for_each_call_related _ _ (λ n r, Related.add_node n r));
          by rewrite Hrel0, lookup_insert_eq).
    erewrite bind_run
      by (apply (for_each_call_related _ _ (λ e r, Related.add_edge e r));
          simpl; apply lookup_insert_eq).
    unfold modify, set_items, set_related. simpl. fold rn. fold r1.
    by rewrite Hrel0, Hit0, Hc0, !insert_insert_eq.
  - clear Hr. subst r1.
    destruct (nodes_foldl_add_edge (path_edges p) rn) as [Hnodes Hpaths].
    destruct (edges_foldl_add_node (path_nodes p) r0) as [Hedges Hpaths0].
    fold rn in Hedges, Hpaths0.
    split_and!.
    + intros n Hn. rewrite Hnodes. apply nodes_foldl_add_node. by right.
    + intros e He. by apply edges_foldl_add_edge.
    + intros k Hk. rewrite Hnodes. subst rn.
      clear Hedges Hpaths0 Hnodes Hpaths. revert r0 Hk.
      induction (path_nodes p) as [|n ns IH]; intros r0 Hk; [done|].
      simpl. apply IH. simpl. rewrite lookup_insert.
      by case_decide.
    + intros k Hk. apply edges_foldl_add_edge_keeps. by rewrite Hedges.
    + by rewrite Hpaths, Hpaths0.
Qed.





End pathdict.

Definition path_AB : Path := mkPath "p".

Lemma add_path_stores_witness :
  ∃ r1, PathDict.add_path (λ _, [mkNode "A"; mkNode "B"]) (λ _, [edge_AB])
          path_AB BaseDict.init
        = ({| BaseDict.items := <["p" := path_AB]> ∅;
              BaseDict._related := <["p" := RO r1]> ∅;
              BaseDict._counter := ∅ |}, Ok tt) ∧
    (∀ n, n ∈ [mkNode "A"; mkNode "B"] → nodes r1 !! node_uid n = Some n) ∧
    (∀ e, e ∈ [edge_AB] →
          ∃ e', e' ∈ [edge_AB] ∧ edge_uid e' = edge_uid e ∧
                edges r1 !! edge_uid e = Some e') ∧
    (∀ k, is_Some (nodes Related.init !! k) → is_Some (nodes r1 !! k)) ∧
    (∀ k, is_Some (edges Related.init !! k) → is_Some (edges r1 !! k)) ∧
    paths r1 = paths Related.init.
Proof.
  apply (add_path_stores (λ _, [mkNode "A"; mkNode "B"]) (λ _, [edge_AB])
           path_AB BaseDict.init Related.init).
  right. split; reflexivity.
Defined.

(** * TemporalEdgeCollection: more on slices, bounds and intervals *)

(** ** What a slice holds *)

Section temporal_slice_exact.
Import IntervalTree.
Import TemporalEdgeCollection(TemporalEdgeCollection, _map, _intervals,
  _interval_map, slice_tree).
Implicit Types (c : TemporalEdgeCollection) (iv : Interval) (b e : Time).

(** The part of an interval within the window from [b] to [e]. *)
Definition clip b e iv : Interval :=
  (tmax b (iv_begin iv), tmin (iv_end iv) e, iv_data iv).

Lemma clip_in_slice_tree b e c iv0 :
  tlt b e → iv0 ∈ _intervals c →
  tlt b (iv_end iv0) → tlt (iv_begin iv0) e →
  clip b e iv0 ∈ slice_tree b e c.
Proof.
  intros Hbe Hin Hb He. unfold slice_tree.
  set (t := _intervals c) in *.
  destruct iv0 as [[x y] d]. unfold clip, iv_begin, iv_end, iv_data in *.
  simpl in *.
  assert ((tmax b x, y, d) ∈ slice b t) as H1.
  { apply elem_of_slice. destruct (decide (tlt x b)) as [Hx|Hx].
    - right. exists (x, y, d). split; [done|]. split; [by split|].
      right. unfold iv_end, iv_data. simpl. f_equal. f_equal.
      revert Hx. clear. time_cases.
    - left. assert (tmax b x = x) as -> by (revert Hx; clear; time_cases).
      split; [done|]. by intros [H _]. }
  assert ((tmax b x, tmin y e, d) ∈ slice e (slice b t)) as H2.
  { apply elem_of_slice. destruct (decide (tlt e y)) as [Hy|Hy].
    - right. exists (tmax b x, y, d). split; [done|]. split.
      + split; [|done]. unfold iv_begin. simpl.
        revert Hbe He. clear. time_cases.
      + left. unfold iv_begin, iv_data. simpl. f_equal. f_equal.
        revert Hy. clear. time_cases.
    - left. assert (tmin y e = y) as -> by (revert Hy; clear; time_cases).
      split; [done|]. by intros [_ H]. }
  apply elem_of_remove_envelop. split.
  - apply elem_of_remove_envelop. split; [done|].
    unfold iv_begin, iv_end. simpl. intros (_ & _ & H).
    revert Hbe Hb H. clear. time_cases.
  - unfold iv_begin, iv_end. simpl. intros (_ & H & _).
    revert Hbe He H. clear. time_cases.
Qed.

(** X21:
    A slice from [b] to [e], [b] before [e], of a tree without null
    intervals holds exactly the parts within the window of the intervals
    that reach into it, each with the edge of its interval. *)
Theorem slice_tree_exact b e c iv :
  well_formed (_intervals c) → tlt b e →
  (iv ∈ slice_tree b e c ↔
   ∃ iv0, iv0 ∈ _intervals c ∧
          tlt b (iv_end iv0) ∧ tlt (iv_begin iv0) e ∧ iv = clip b e iv0).
Proof.
  intros Hwf Hbe. split.
  - intros Hiv.
    destruct (slice_tree_within b e c iv Hwf Hiv) as [Hlo Hhi].
    pose proof (slice_tree_well_formed b e c Hwf iv Hiv) as Hlt.
    unfold slice_tree in Hiv.
    apply elem_of_remove_envelop in Hiv as [Hiv _].
    apply elem_of_remove_envelop in Hiv as [Hiv _].
    set (t := _intervals c) in *.
    apply elem_of_slice in Hiv
      as [[Hiv Hne]|(iv1 & Hiv1 & [Hs1 Hs2] & Hpiece)].
    + apply elem_of_slice in Hiv
        as [[Hiv Hnb]|(iv0 & Hiv0 & [Hs1 Hs2] & [->| ->])].
      * exists iv. split; [done|]. destruct iv as [[x y] d].
        unfold clip, iv_begin, iv_end, iv_data in *. simpl in *.
        split_and!.
        -- revert Hlo Hlt. clear. time_cases.
        -- revert Hhi Hlt. clear. time_cases.
        -- repeat f_equal; revert Hlo Hhi; clear; time_cases.
      * exfalso. destruct iv0 as [[x y] d].
        unfold iv_begin, iv_end in *. simpl in *.
        revert Hlo Hs1. clear. time_cases.
      * exists iv0. split; [done|]. destruct iv0 as [[x y] d].
        unfold clip, iv_begin, iv_end, iv_data in *. simpl in *.
        split_and!; [done| |].
        -- revert Hbe Hs1. clear. time_cases.
        -- repeat f_equal; revert Hs1 Hhi; clear; time_cases.
    + destruct Hpiece as [->| ->].
      2:{ exfalso. destruct iv1 as [[x y] d].
          unfold iv_begin, iv_end in *. simpl in *.
          revert Hhi Hs2. clear. time_cases. }
      apply elem_of_slice in Hiv1
        as [[Hiv1 Hnb]|(iv0 & Hiv0 & [Hs3 Hs4] & [->| ->])].
      * exists iv1. split; [done|]. destruct iv1 as [[x y] d].
        unfold clip, iv_begin, iv_end, iv_data in *. simpl in *.
        split_and!; [|done|].
        -- revert Hbe Hs2. clear. time_cases.
        -- repeat f_equal; revert Hlo Hs2; clear; time_cases.
      * exfalso. destruct iv0 as [[x y] d].
        unfold iv_begin, iv_end in *. simpl in *.
        revert Hbe Hs2. clear. time_cases.
      * exists iv0. split; [done|]. destruct iv0 as [[x y] d].
        unfold clip, iv_begin, iv_end, iv_data in *. simpl in *.
        split_and!; [done| |].
        -- revert Hbe Hs3. clear. time_cases.
        -- repeat f_equal; revert Hs3 Hs2; clear; time_cases.
  - intros (iv0 & Hin & Hb & He & ->). by apply clip_in_slice_tree.
Qed.

End temporal_slice_exact.

(** A collection with one interval. *)
Definition one_interval : TemporalEdgeCollection.TemporalEdgeCollection :=
  {| TemporalEdgeCollection._map := {[ "e1" := edge_1 ]};
     TemporalEdgeCollection._intervals := {[ (Fin 0, Fin 5, edge_1) ]};
     TemporalEdgeCollection._interval_map :=
       {[ edge_1 := {[ (Fin 0, Fin 5) ]} ]} |}.

Lemma one_interval_well_formed :
  well_formed (TemporalEdgeCollection._intervals one_interval).
Proof.
  intros iv Hiv. simpl in Hiv. by apply elem_of_singleton in Hiv as ->.
Qed.

Lemma slice_tree_exact_witness :
  (Fin 4, Fin 5, edge_1)
    ∈ TemporalEdgeCollection.slice_tree (Fin 4) (Fin 6) one_interval ↔
  ∃ iv0, iv0 ∈ TemporalEdgeCollection._intervals one_interval ∧
         tlt (Fin 4) (IntervalTree.iv_end iv0) ∧
         tlt (IntervalTree.iv_begin iv0) (Fin 6) ∧
         (Fin 4, Fin 5, edge_1) = clip (Fin 4) (Fin 6) iv0.
Proof.
  apply (slice_tree_exact (Fin 4) (Fin 6) one_interval
           (Fin 4, Fin 5, edge_1)).
  - apply one_interval_well_formed.
  - simpl. lia.
Defined.

(** ** The bounds of a collection without a finite bound *)

Section temporal_bounds_more.
Import IntervalTree.
Import TemporalEdgeCollection(TemporalEdgeCollection, _map, _intervals,
  _interval_map).
Implicit Types (c : TemporalEdgeCollection) (t : gset Interval)
  (iv : Interval).

Lemma listing_nil t (l : list Interval) :
  (∀ iv, iv ∈ l ↔ iv ∈ t) → l = [] ↔ t = ∅.
Proof.
  intros Hl. split.
  - intros ->. apply elem_of_equiv_empty_L. intros iv Hiv.
    apply Hl in Hiv. by apply elem_of_nil in Hiv.
  - intros ->. destruct l as [|iv l]; [done|].
    exfalso. apply (not_elem_of_empty (C := gset Interval) iv).
    apply Hl. by left.
Qed.

Lemma last_item_nil {A} (l : list A) :
  TemporalEdgeCollection.last_item l = Raise IndexError ↔ l = [].
Proof.
  unfold TemporalEdgeCollection.last_item. split.
  - destruct l as [|x l] using rev_ind; [done|]. by rewrite last_snoc.
  - by intros ->.
Qed.

Lemma tmin_PosInf a : tmin a PosInf = a.
Proof. time_cases. Qed.
Lemma tmax_NegInf a : tmax NegInf a = a.
Proof. time_cases. Qed.

(** X22:
    On a collection without intervals [begin] and [end] raise IndexError
    for [finite=True], and only there; for [finite=False] both return 0. *)
Theorem bounds_of_empty_collection c :
  (TemporalEdgeCollection.begin true c = Raise IndexError ↔
   _intervals c = ∅) ∧
  (TemporalEdgeCollection.end_ true c = Raise IndexError ↔
   _intervals c = ∅) ∧
  (_intervals c = ∅ →
   TemporalEdgeCollection.begin false c = Ok (Fin 0) ∧
   TemporalEdgeCollection.end_ false c = Ok (Fin 0)).
Proof.
  unfold TemporalEdgeCollection.begin, TemporalEdgeCollection.end_.
  set (t := _intervals c). split_and!.
  - rewrite <- (listing_nil t (sorted_by_end t))
      by apply elem_of_sorted_by_end.
    destruct (sorted_by_end t) as [|iv l]; simpl; split; done.
  - rewrite <- (listing_nil t (sorted t)) by apply elem_of_sorted.
    rewrite <- last_item_nil.
    destruct (TemporalEdgeCollection.last_item (sorted t)) as [iv|x]; simpl;
      split; congruence.
  - intros ->. split; reflexivity.
Qed.

(** X23:
    When every interval of a collection reaches from minus infinity to
    plus infinity, [begin(finite=True)] is minus infinity and
    [end(finite=True)] plus infinity. *)
Theorem bounds_without_finite_bound c :
  _intervals c ≠ ∅ →
  (∀ iv, iv ∈ _intervals c → iv_begin iv = NegInf ∧ iv_end iv = PosInf) →
  TemporalEdgeCollection.begin true c = Ok NegInf ∧
  TemporalEdgeCollection.end_ true c = Ok PosInf.
Proof.
  intros Hne Hall.
  unfold TemporalEdgeCollection.begin, TemporalEdgeCollection.end_.
  set (t := _intervals c) in *.
  assert (∃ iv, iv ∈ t) as [iv0 Hiv0].
  { apply set_choose_L. done. }
  assert (IntervalTree.begin t = NegInf) as Hbegin.
  { apply tle_NegInf. destruct (Hall iv0 Hiv0) as [<- _].
    by apply tree_begin_le. }
  assert (IntervalTree.end_ t = PosInf) as Hend.
  { apply tle_PosInf. destruct (Hall iv0 Hiv0) as [_ <-].
    by apply tree_end_ge. }
  split.
  - destruct (find _ (sorted t)) as [iv|] eqn:Hfind.
    { apply find_some in Hfind as [Hin Hp]. apply list_elem_of_In in Hin.
      apply elem_of_sorted in Hin. destruct (Hall iv Hin) as [Hb _].
      rewrite Hb in Hp. done. }
    destruct (sorted_by_end t) as [|iv l] eqn:Hs.
    { apply (listing_nil t) in Hs; [done|]. apply elem_of_sorted_by_end. }
    simpl. assert (iv ∈ t) as Hin.
    { apply elem_of_sorted_by_end. rewrite Hs. by left. }
    destruct (Hall iv Hin) as [_ ->]. by rewrite Hbegin.
  - destruct (find _ (sorted_by_end_reverse t)) as [iv|] eqn:Hfind.
    { apply find_some in Hfind as [Hin Hp]. apply list_elem_of_In in Hin.
      apply elem_of_sorted_by_end_reverse in Hin.
      destruct (Hall iv Hin) as [_ He]. rewrite He in Hp. done. }
    destruct (TemporalEdgeCollection.last_item (sorted t)) as [iv|x] eqn:Hs.
    + simpl. assert (iv ∈ t) as Hin.
      { apply elem_of_sorted. unfold TemporalEdgeCollection.last_item in Hs.
        destruct (last (sorted t)) as [iv'|] eqn:Hlast; [|done].
        injection Hs as ->. apply last_Some in Hlast as [l' ->].
        apply elem_of_app. right. by left. }
      destruct (Hall iv Hin) as [-> _]. by rewrite Hend.
    + exfalso. unfold TemporalEdgeCollection.last_item in Hs.
      destruct (last (sorted t)) as [iv'|] eqn:Hlast; [done|].
      apply last_None in Hlast. apply (listing_nil t) in Hlast; [done|].
      apply elem_of_sorted.
Qed.

Lemma foldr_tmin_elem x xs : foldr tmin x xs ∈ x :: xs.
Proof.
  induction xs as [|y ys IH]; simpl; [by left|].
  destruct (tmin_cases y (foldr tmin x ys)) as [->| ->].
  - right. by left.
  - apply elem_of_cons in IH as [IH|IH]; [rewrite IH; by left|].
    right. by right.
Qed.

Lemma foldr_tmax_elem x xs : foldr tmax x xs ∈ x :: xs.
Proof.
  induction xs as [|y ys IH]; simpl; [by left|].
  destruct (tmax_cases y (foldr tmax x ys)) as [->| ->].
  - right. by left.
  - apply elem_of_cons in IH as [IH|IH]; [rewrite IH; by left|].
    right. by right.
Qed.

(** X24:
    On a collection with intervals, none of them null,
    [begin(finite=False)] is the earliest begin and [end(finite=False)] the
    latest end of its intervals, infinite when that one is. *)
Theorem bounds_not_finite c :
  well_formed (_intervals c) → _intervals c ≠ ∅ →
  ∃ lo hi,
    TemporalEdgeCollection.begin false c = Ok lo ∧
    TemporalEdgeCollection.end_ false c = Ok hi ∧
    (∃ iv, iv ∈ _intervals c ∧ iv_begin iv = lo) ∧
    (∀ iv, iv ∈ _intervals c → tle lo (iv_begin iv)) ∧
    (∃ iv, iv ∈ _intervals c ∧ iv_end iv = hi) ∧
    (∀ iv, iv ∈ _intervals c → tle (iv_end iv) hi).
Proof.
  intros Hwf Hne.
  unfold TemporalEdgeCollection.begin, TemporalEdgeCollection.end_.
  set (t := _intervals c) in *.
  exists (IntervalTree.begin t), (IntervalTree.end_ t).
  rewrite tmin_PosInf, tmax_NegInf.
  assert (∃ iv, iv ∈ t) as [iv0 Hiv0] by by apply set_choose_L.
  assert (iv_begin iv0 ∈ boundaries t) as Hb0
    by (apply elem_of_boundaries; eauto).
  split_and!; [done|done| |apply tree_begin_le| |apply tree_end_ge].
  - assert (IntervalTree.begin t ∈ boundaries t) as Hin.
    { unfold IntervalTree.begin.
      destruct (boundaries t) as [|x xs]; [by apply elem_of_nil in Hb0|].
      apply foldr_tmin_elem. }
    apply elem_of_boundaries in Hin as (iv & Hiv & [Hx|Hx]); [eauto|].
    exfalso. pose proof (tree_begin_le t iv Hiv) as Hle.
    pose proof (Hwf iv Hiv) as Hlt. rewrite <- Hx in Hle.
    apply tlt_not_tle in Hlt. done.
  - assert (IntervalTree.end_ t ∈ boundaries t) as Hin.
    { unfold IntervalTree.end_.
      destruct (boundaries t) as [|x xs]; [by apply elem_of_nil in Hb0|].
      apply foldr_tmax_elem. }
    apply elem_of_boundaries in Hin as (iv & Hiv & [Hx|Hx]); [|eauto].
    exfalso. pose proof (tree_end_ge t iv Hiv) as Hle.
    pose proof (Hwf iv Hiv) as Hlt. rewrite <- Hx in Hle.
    apply tlt_not_tle in Hlt. done.
Qed.

End temporal_bounds_more.

(** A collection whose one interval has no finite bound. *)
Definition unbounded_interval
  : TemporalEdgeCollection.TemporalEdgeCollection :=
  {| TemporalEdgeCollection._map := {[ "e1" := edge_1 ]};
     TemporalEdgeCollection._intervals := {[ (NegInf, PosInf, edge_1) ]};
     TemporalEdgeCollection._interval_map :=
       {[ edge_1 := {[ (NegInf, PosInf) ]} ]} |}.

Lemma bounds_without_finite_bound_witness :
  TemporalEdgeCollection.begin true unbounded_interval = Ok NegInf ∧
  TemporalEdgeCollection.end_ true unbounded_interval = Ok PosInf.
Proof.
  apply (bounds_without_finite_bound unbounded_interval).
  - simpl. apply (non_empty_singleton_L (C := gset IntervalTree.Interval)).
  - intros iv Hiv. simpl in Hiv. by apply elem_of_singleton in Hiv as ->.
Defined.

Lemma bounds_not_finite_witness :
  ∃ lo hi,
    TemporalEdgeCollection.begin false one_interval = Ok lo ∧
    TemporalEdgeCollection.end_ false one_interval = Ok hi ∧
    (∃ iv, iv ∈ TemporalEdgeCollection._intervals one_interval ∧
           IntervalTree.iv_begin iv = lo) ∧
    (∀ iv, iv ∈ TemporalEdgeCollection._intervals one_interval →
           tle lo (IntervalTree.iv_begin iv)) ∧
    (∃ iv, iv ∈ TemporalEdgeCollection._intervals one_interval ∧
           IntervalTree.iv_end iv = hi) ∧
    (∀ iv, iv ∈ TemporalEdgeCollection._intervals one_interval →
           tle (IntervalTree.iv_end iv) hi).
Proof.
  apply (bounds_not_finite one_interval).
  - apply one_interval_well_formed.
  - simpl. apply (non_empty_singleton_L (C := gset IntervalTree.Interval)).
Defined.

(** ** Intervals and the edges they belong to *)

Module TemporalListing.
Import IntervalTree(Interval, iv_begin, iv_end, iv_data).
Import TemporalEdgeCollection(TemporalEdgeCollection, _map, _intervals,
  _interval_map).

(** [TemporalEdgeCollection.temporal] *)
Definition temporal (self : TemporalEdgeCollection)
  : list (string * Edge * Time * Time) :=
  (λ i, (edge_uid (iv_data i), iv_data i, iv_begin i, iv_end i))
    <$> IntervalTree.sorted (_intervals self).

End TemporalListing.

Section temporal_intervals.
Import IntervalTree.
Import TemporalEdgeCollection(TemporalEdgeCollection, _map, _intervals,
  _interval_map, store_interval).
Import TemporalListing.
Implicit Types (c : TemporalEdgeCollection) (iv : Interval) (b e : Time)
  (d : Edge).

(** The interval tree and the table from edges to intervals hold the same
    intervals. *)
Definition in_step c : Prop :=
  ∀ b e d, (b, e, d) ∈ _intervals c ↔
           ∃ X, _interval_map c !! d = Some X ∧ (b, e) ∈ X.

(** X25:
    The two statements that [_add] and [_if_edge_exists] share raise
    ValueError exactly for an interval that ends at or before its begin,
    and then nothing is stored.  Otherwise the interval is in the tree
    afterwards, the edges of the collection are untouched, and the tree and
    the table from edges to intervals stay in step and without null
    intervals when they were; a new collection is so. *)
Theorem store_interval_in_step b e d c :
  in_step TemporalEdgeCollection.init ∧
  (store_interval b e d c = Raise ValueError ↔ tle e b) ∧
  (∀ c', store_interval b e d c = Ok c' →
     tlt b e ∧
     (b, e, d) ∈ _intervals c' ∧
     (∀ iv, iv ∈ _intervals c → iv ∈ _intervals c') ∧
     _map c' = _map c ∧
     (in_step c → in_step c') ∧
     (well_formed (_intervals c) → well_formed (_intervals c'))).
Proof.
  split_and!.
  - intros b' e' d'. simpl. rewrite lookup_empty. split.
    + intros H. by apply not_elem_of_empty in H.
    + by intros (X & ? & _).
  - unfold store_interval, addi.
    destruct (decide (tle e b)); simpl; split; done.
  - intros c'. unfold store_interval, addi.
    destruct (decide (tle e b)) as [Hle|Hle]; simpl; [done|].
    intros [= <-]. simpl. apply tlt_not_tle in Hle.
    split_and!; [done| | |done| |].
    + apply elem_of_union. left. by apply elem_of_singleton.
    + intros iv Hiv. apply elem_of_union. by right.
    + intros Hc b' e' d'. simpl.
      rewrite elem_of_union, elem_of_singleton, (Hc b' e' d').
      rewrite lookup_insert. destruct (decide (d = d')) as [<-|Hd].
      * split.
        -- intros [[= -> ->]|(X & HX & Hin)].
           ++ eexists. split; [done|]. apply elem_of_union. left.
              by apply elem_of_singleton.
           ++ eexists. split; [done|]. apply elem_of_union. right.
              by rewrite HX.
        -- intros (X & [= <-] & Hin).
           apply elem_of_union in Hin as [Hin|Hin].
           ++ apply elem_of_singleton in Hin. left. congruence.
           ++ right. destruct (_interval_map c !! d) as [Y|]; simpl in Hin.
              ** eauto.
              ** by apply not_elem_of_empty in Hin.
      * split; [|by auto]. intros [[= _ _ ?]|H]; [done|done].
    + intros Hwf iv Hiv. apply elem_of_union in Hiv as [Hiv|Hiv].
      * by apply elem_of_singleton in Hiv as ->.
      * by apply Hwf.
Qed.

Lemma StronglySorted_fmap_rel {A B} (R : relation A) (R' : relation B)
    (f : A → B) (l : list A) :
  (∀ x y, R x y → R' (f x) (f y)) →
  StronglySorted R l → StronglySorted R' (f <$> l).
Proof.
  intros Hf. induction 1 as [|x l Hl IH Hall]; simpl; constructor; [done|].
  rewrite List.Forall_forall in *. intros y Hy.
  apply list_elem_of_In, list_elem_of_fmap in Hy as (y' & -> & Hy').
  apply Hf, Hall. by apply list_elem_of_In.
Qed.

(** X26:
    [temporal()] lists every interval of the tree once, with the
    identifier and the edge it belongs to, ordered by begin and then by
    end. *)
Theorem temporal_listing c :
  (∀ x, x ∈ temporal c ↔
        ∃ iv, iv ∈ _intervals c ∧
              x = (edge_uid (iv_data iv), iv_data iv, iv_begin iv, iv_end iv)) ∧
  length (temporal c) = size (_intervals c) ∧
  StronglySorted
    (λ x y, tlt x.1.2 y.1.2 ∨ (x.1.2 = y.1.2 ∧ tle x.2 y.2)) (temporal c).
Proof.
  unfold temporal. split_and!.
  - intros x. rewrite list_elem_of_fmap. setoid_rewrite elem_of_sorted.
    split; intros (iv & H1 & H2); eauto.
  - rewrite length_fmap. unfold sorted.
    by rewrite merge_sort_Permutation.
  - apply (StronglySorted_fmap_rel iv_le); [|apply sorted_strongly].
    intros x y Hxy. exact Hxy.
Qed.

End temporal_intervals.
